(** * PyNAM: spike encoding, matching and demultiplexing

    A shallow embedding of [pynam/binam_network.py] and [pynam/utils.py].

    Conventions of the embedding.
    - Spike times are Python floats (binary64) in the source; here they are
      exact integers [Z] (a fixed time resolution).  Binary64 holds every
      integer of magnitude up to 2^53 and adds, subtracts and multiplies such
      integers exactly while the result stays in that range; beyond it the
      source rounds and the embedding does not.  Statements that need the
      arithmetic of times to be exact assume that range ([times_exact]);
      the others only compare times.
    - Sample indices are Python integers, here [Z]; where the source stores
      them in an array of dtype int32 the embedding does so too
      ([to_int32]).  List positions and neuron numbers are [nat].
    - A Python exception is a value [Raise e] of the type [result].
    - [np.argsort] and [np.lexsort] permute parallel arrays by one index
      vector; the embedding sorts the records themselves with a stable
      insertion sort.  The order numpy gives to equal keys under [argsort]
      is not specified, statements below never depend on it. *)

From Stdlib Require Import ZArith List Bool Lia Permutation Sorted QArith.
Import ListNotations.
Open Scope Z_scope.

(** ** Exceptions *)

Inductive exn : Type :=
| TypeError
| ValueError
| IndexError
| ZeroDivisionError
| OverflowError.

Inductive result (A : Type) : Type :=
| Ok (a : A)
| Raise (e : exn).

Arguments Ok {A} a.
Arguments Raise {A} e.

Definition bind {A B : Type} (m : result A) (k : A -> result B) : result B :=
  match m with
  | Ok a => k a
  | Raise e => Raise e
  end.

Notation "x <- m ;; k" := (bind m (fun x => k))
  (at level 61, m at next level, right associativity).
Notation "' p <- m ;; k" := (bind m (fun x => let p := x in k))
  (at level 61, p pattern, m at next level, right associativity).

Fixpoint mapM {A B : Type} (f : A -> result B) (l : list A) : result (list B) :=
  match l with
  | [] => Ok []
  | a :: l' => b <- f a ;; bs <- mapM f l' ;; Ok (b :: bs)
  end.

Fixpoint foldM {A S : Type} (f : S -> A -> result S) (l : list A) (s : S)
  : result S :=
  match l with
  | [] => Ok s
  | a :: l' => s' <- f s a ;; foldM f l' s'
  end.

Definition is_ok {A : Type} (m : result A) : bool :=
  match m with Ok _ => true | Raise _ => false end.

(** ** Sorting records by a key *)

Section StableSort.
Context {A : Type} (leb : A -> A -> bool).

Fixpoint insert_sorted (x : A) (l : list A) : list A :=
  match l with
  | [] => [x]
  | y :: l' => if leb x y then x :: l else y :: insert_sorted x l'
  end.

Fixpoint stable_sort (l : list A) : list A :=
  match l with
  | [] => []
  | x :: l' => insert_sorted x (stable_sort l')
  end.
End StableSort.

(** ** bisect (Python standard library, as used by the source) *)

Fixpoint bisect_left_loop (fuel : nat) (a : list Z) (x : Z) (lo hi : nat) : nat :=
  match fuel with
  | O => lo
  | S fuel' =>
      if (lo <? hi)%nat then
        let mid := ((lo + hi) / 2)%nat in
        if nth mid a 0 <? x
        then bisect_left_loop fuel' a x (S mid) hi
        else bisect_left_loop fuel' a x lo mid
      else lo
  end.

Definition bisect_left (a : list Z) (x : Z) : nat :=
  bisect_left_loop (length a) a x 0 (length a).

Fixpoint bisect_right_loop (fuel : nat) (a : list Z) (x : Z) (lo hi : nat) : nat :=
  match fuel with
  | O => lo
  | S fuel' =>
      if (lo <? hi)%nat then
        let mid := ((lo + hi) / 2)%nat in
        if x <? nth mid a 0
        then bisect_right_loop fuel' a x lo mid
        else bisect_right_loop fuel' a x (S mid) hi
      else lo
  end.

Definition bisect_right (a : list Z) (x : Z) : nat :=
  bisect_right_loop (length a) a x 0 (length a).

(** ** numpy arrays of dtype int32 *)

(** The low 32 bits of [k], read in two's complement. *)
Definition wrap32 (k : Z) : Z :=
  (k + 2147483648) mod 4294967296 - 2147483648.

(** [a[c] = k] for an array [a] of dtype [int32] and a Python integer [k], as
    numpy 1.x (the numpy of this Python 2 source) does it where a C long has
    64 bits: [k] is converted to a C long, which raises OverflowError when it
    does not fit, and the low 32 bits are kept.  For [k] in
    [[-2^31, 2^31)] the value stored is [k], on every numpy. *)
Definition to_int32 (k : Z) : result Z :=
  if (-9223372036854775808 <=? k) && (k <? 9223372036854775808)
  then Ok (wrap32 k)
  else Raise OverflowError.

(** ** NetworkInstance.flaten *)

(** One entry of the three flat arrays [tF], [kF], [nF]. *)
Record spike : Type := mkSpike {
  sp_t : Z;     (* tF[c]: spike time *)
  sp_k : Z;     (* kF[c]: sample index, as stored in the int32 array *)
  sp_n : nat    (* nF[c]: neuron index *)
}.

(** [np.argsort(tF)]: ascending spike time. *)
Definition time_leb (a b : spike) : bool := sp_t a <=? sp_t b.

(** [np.lexsort((kF, tF))]: the LAST key is the primary one, so this sorts by
    spike time and breaks ties by sample index. *)
Definition lex_leb (a b : spike) : bool :=
  (sp_t a <? sp_t b) || ((sp_t a =? sp_t b) && (sp_k a <=? sp_k b)).

(** Inner loop [for j in xrange(len(times[i]))]; [indices[i][j]] raises
    IndexError when the index list is shorter than the time list, and the
    index is stored into the int32 array [kF].  The unit number [i] goes into
    the int32 array [nF]; it is kept as the natural number it is, which is
    what the array holds for up to 2^31 units. *)
Fixpoint flaten_unit (i : nat) (ts ks : list Z) : result (list spike) :=
  match ts with
  | [] => Ok []
  | t :: ts' =>
      match ks with
      | [] => Raise IndexError
      | k :: ks' =>
          k32 <- to_int32 k ;;
          rest <- flaten_unit i ts' ks' ;;
          Ok (mkSpike t k32 i :: rest)
      end
  end.

(** Outer loop [for i in xrange(len(times))], [i] counting from [i0].  A
    missing [indices[i]] is only noticed when [times[i]] holds a spike. *)
Fixpoint flaten_loop (i0 : nat) (times indices : list (list Z))
  : result (list spike) :=
  match times with
  | [] => Ok []
  | ts :: times' =>
      row <- flaten_unit i0 ts (hd [] indices) ;;
      rest <- flaten_loop (S i0) times' (tl indices) ;;
      Ok (row ++ rest)
  end.

(** The sorted flat records; [reduce] over an empty [times] raises
    TypeError. *)
Definition flaten_spikes (times indices : list (list Z)) (sort_by_sample : bool)
  : result (list spike) :=
  match times with
  | [] => Raise TypeError
  | _ =>
      flat <- flaten_loop 0 times indices ;;
      Ok (if sort_by_sample then stable_sort lex_leb flat
          else stable_sort time_leb flat)
  end.

Definition flaten (times indices : list (list Z)) (sort_by_sample : bool)
  : result (list Z * list Z * list nat) :=
  fl <- flaten_spikes times indices sort_by_sample ;;
  Ok (map sp_t fl, map sp_k fl, map sp_n fl).

(** ** NetworkInstance.match_static *)

(** Body of the innermost loop: the sample index given to one output spike
    at time [t]. *)
Definition match_index (tIn kIn : list Z) (t : Z) : Z :=
  let idx := bisect_left tIn t in
  let idx := if (0 <? idx)%nat then (idx - 1)%nat else idx in
  if (idx <? length tIn)%nat then nth idx kIn 0 else 0.

(** [output] holds, per population, the spike times of its single neuron
    ([output[p]["spikes"][0]]), input populations first. *)
Definition match_static (input_times input_indices output : list (list Z))
  : result (list (list Z) * list (list Z)) :=
  '(tIn, kIn, _) <- flaten input_times input_indices false ;;
  let input_count := length input_times in
  let output_count := (length output - input_count)%nat in
  let output_times :=
    map (fun i => nth (i + input_count) output []) (seq 0 output_count) in
  let output_indices := map (map (match_index tIn kIn)) output_times in
  Ok (output_times, output_indices).

(** ** NetworkInstance.split *)

(** Inner loop of [split] for one unit. *)
Fixpoint split_unit (ts ks : list Z) (k0 k1 : Z) : result (list Z * list Z) :=
  match ts with
  | [] => Ok ([], [])
  | t :: ts' =>
      match ks with
      | [] => Raise IndexError
      | k :: ks' =>
          '(tp, kp) <- split_unit ts' ks' k0 k1 ;;
          if (k0 <=? k) && (k <? k1)
          then Ok (t :: tp, (k - k0) :: kp)
          else Ok (tp, kp)
      end
  end.

(** [times_part] has one list per entry of [times], [indices_part] one per
    entry of [indices]. *)
Fixpoint split (times indices : list (list Z)) (k0 k1 : Z)
  : result (list (list Z) * list (list Z)) :=
  match times with
  | [] => Ok ([], map (fun _ => []) indices)
  | ts :: times' =>
      '(tp, kp) <- split_unit ts (hd [] indices) k0 k1 ;;
      '(tps, kps) <- split times' (tl indices) k0 k1 ;;
      Ok (tp :: tps, match indices with [] => [] | _ :: _ => kp :: kps end)
  end.

(** ** NetworkAnalysis and NetworkInstance.build_analysis_static *)

Record NetworkAnalysis : Type := mkAnalysis {
  a_input_times : list (list Z);
  a_input_indices : list (list Z);
  a_output_times : list (list Z);
  a_output_indices : list (list Z)
}.

(** Python's [max] of a list; ValueError on the empty list. *)
Definition py_max (l : list Z) : result Z :=
  match l with
  | [] => Raise ValueError
  | x :: l' => Ok (fold_left Z.max l' x)
  end.

Definition py_min (l : list Z) : result Z :=
  match l with
  | [] => Raise ValueError
  | x :: l' => Ok (fold_left Z.min l' x)
  end.

(** [[max(map(max, input_indices)) + 1]] *)
Definition default_input_split (input_indices : list (list Z)) : result (list Z) :=
  ms <- mapM py_max input_indices ;;
  m <- py_max ms ;;
  Ok [m + 1].

(** The loop [for k in input_split] with its running lower bound [k0]. *)
Fixpoint analysis_loop (input_times input_indices output_times output_indices
                          : list (list Z)) (k0 : Z) (input_split : list Z)
  : result (list NetworkAnalysis) :=
  match input_split with
  | [] => Ok []
  | k :: rest =>
      '(itp, iip) <- split input_times input_indices k0 k ;;
      '(otp, oip) <- split output_times output_indices k0 k ;;
      more <- analysis_loop input_times input_indices output_times
                output_indices k rest ;;
      Ok (mkAnalysis itp iip otp oip :: more)
  end.

Definition build_analysis_static (input_times input_indices output
                                    : list (list Z)) (input_split : list Z)
  : result (list NetworkAnalysis) :=
  '(output_times, output_indices) <-
     match_static input_times input_indices output ;;
  input_split <-
     (if (length input_split =? 0)%nat
      then default_input_split input_indices
      else Ok input_split) ;;
  analysis_loop input_times input_indices output_times output_indices 0
    input_split.

(** ** NetworkInstance and NetworkPool *)

(** A population as far as this module reads it: whether it is a spike
    source and the spike times injected into it. *)
Record population : Type := mkPopulation {
  pop_source : bool;
  pop_spike_times : list Z
}.

(** [((src_pop, src_neuron), (tar_pop, tar_neuron), weight, delay)] *)
Record connection : Type := mkConnection {
  c_src : nat * nat;
  c_tar : nat * nat;
  c_weight : Q;
  c_delay : Q
}.

Record NetworkInstance : Type := mkInstance {
  populations : list population;
  connections : list connection;
  input_times : list (list Z);
  input_indices : list (list Z);
  input_split : list Z
}.

Definition build_analysis (net : NetworkInstance) (output : list (list Z))
  : result (list NetworkAnalysis) :=
  build_analysis_static (input_times net) (input_indices net) output
    (input_split net).

Record spatial_split_entry : Type := mkSpatial {
  ss_population : nat;
  ss_input : nat
}.

Record NetworkPool : Type := mkPool {
  p_populations : list population;
  p_connections : list connection;
  p_input_times : list (list Z);
  p_input_indices : list (list Z);
  p_input_split : list (list Z);
  p_spatial_split : list spatial_split_entry
}.

(** [NetworkPool()] with all defaults. *)
Definition empty_pool : NetworkPool := mkPool [] [] [] [] [] [].

Definition rebase_connection (nP0 : nat) (c : connection) : connection :=
  mkConnection (fst (c_src c) + nP0, snd (c_src c))%nat
               (fst (c_tar c) + nP0, snd (c_tar c))%nat
               (c_weight c) (c_delay c).

Definition add_network (pool : NetworkPool) (network : NetworkInstance)
  : NetworkPool :=
  let nP0 := length (p_populations pool) in
  let pops := p_populations pool ++ populations network in
  let ins := p_input_times pool ++ input_times network in
  mkPool pops
         (p_connections pool ++ map (rebase_connection nP0) (connections network))
         ins
         (p_input_indices pool ++ input_indices network)
         (p_input_split pool ++ [input_split network])
         (p_spatial_split pool ++ [mkSpatial (length pops) (length ins)]).

Definition add_networks (pool : NetworkPool) (networks : list NetworkInstance)
  : NetworkPool :=
  fold_left add_network networks pool.

(** Python slice [l[a:b]] for non-negative bounds. *)
Definition slice {A : Type} (l : list A) (a b : nat) : list A :=
  firstn (b - a) (skipn a l).

(** The loop of [NetworkPool.build_analysis]: [i] is the position in
    [spatial_split], [last_split] the previous descriptor. *)
Fixpoint pool_analysis_loop (pool : NetworkPool) (output : list (list Z))
    (i : nat) (last_split : spatial_split_entry)
    (splits : list spatial_split_entry) : result (list NetworkAnalysis) :=
  match splits with
  | [] => Ok []
  | sp :: rest =>
      let in_times :=
        slice (p_input_times pool) (ss_input last_split) (ss_input sp) in
      let in_indices :=
        slice (p_input_indices pool) (ss_input last_split) (ss_input sp) in
      let output_part :=
        slice output (ss_population last_split) (ss_population sp) in
      let in_split := nth i (p_input_split pool) [] in
      part <- build_analysis_static in_times in_indices output_part in_split ;;
      more <- pool_analysis_loop pool output (S i) sp rest ;;
      Ok (part ++ more)
  end.

Definition pool_build_analysis (pool : NetworkPool) (output : list (list Z))
  : result (list NetworkAnalysis) :=
  pool_analysis_loop pool output 0 (mkSpatial 0 0) (p_spatial_split pool).

(** ** NetworkAnalysis.calculate_latencies *)

Inductive latency : Type :=
| Finite (d : Z)
| Infinite.          (* np.inf *)

(** [xrange(n)] for an integer [n]. *)
Definition zrange (n : Z) : list Z := map Z.of_nat (seq 0 (Z.to_nat n)).

(** Body of the loop over the samples [k]. *)
Definition latency_of (tIn kIn tOut kOut : list Z) (k : Z) : latency :=
  let iInK := Z.of_nat (bisect_right kIn k) - 1 in
  let iOutK := Z.of_nat (bisect_right kOut k) - 1 in
  if (iInK <? 0) || (iOutK <? 0)
     || negb (nth (Z.to_nat iInK) kIn 0 =? k)
     || negb (nth (Z.to_nat iOutK) kOut 0 =? k)
  then Infinite
  else Finite (nth (Z.to_nat iOutK) tOut 0 - nth (Z.to_nat iInK) tIn 0).

Definition calculate_latencies (a : NetworkAnalysis) : result (list latency) :=
  '(tIn, kIn, _) <- flaten (a_input_times a) (a_input_indices a) true ;;
  '(tOut, kOut, _) <- flaten (a_output_times a) (a_output_indices a) true ;;
  m <- py_max kIn ;;                                   (* np.max(kIn) *)
  let N := m + 1 in
  if N <? 0 then Raise ValueError                      (* np.zeros(N) *)
  else Ok (map (latency_of tIn kIn tOut kOut) (zrange N)).

(** ** NetworkAnalysis.calculate_output_matrix *)

(** [row[c] = row[c] + 1], IndexError when [c] is not a column. *)
Fixpoint incr_at (c : nat) (row : list Z) : result (list Z) :=
  match row, c with
  | [], _ => Raise IndexError
  | v :: row', O => Ok (v + 1 :: row')
  | v :: row', S c' => row'' <- incr_at c' row' ;; Ok (v :: row'')
  end.

(** Row [k] of the count matrix: the loop [for i in xrange(i0, i1)], which
    is the only place where row [k] is written. *)
Definition output_row (kOut : list Z) (nOut : list nat) (s n : nat) (k : Z)
  : result (list Z) :=
  let i0 := bisect_left kOut k in
  let i1 := bisect_right kOut k in
  foldM (fun row i => incr_at (nth i nOut O / s)%nat row)
        (seq i0 (i1 - i0)) (repeat 0 n).

(** [s] is the multiplicity read from the topology parameters.  The burst
    size is a [positive]: the final [res / float(output_burst_size)] is the
    exact fraction [count / output_burst_size]. *)
Definition calculate_output_matrix (a : NetworkAnalysis) (s : nat)
    (output_burst_size : positive) : result (list (list Q)) :=
  '(_, kOut, nOut) <- flaten (a_output_times a) (a_output_indices a) true ;;
  ms <- mapM (fun ks => py_max (ks ++ [0])) (a_input_indices a) ;;
  m <- py_max ms ;;
  let N := m + 1 in
  n <- (if (s =? 0)%nat then Raise ZeroDivisionError
        else Ok (length (a_output_indices a) / s)%nat) ;;
  res <- mapM (output_row kOut nOut s n) (zrange N) ;;
  Ok (map (map (fun c => Qmake c output_burst_size)) res).

(** ** The shared random source (numpy's global generator) *)

(** [np.random] is used through three operations only: reading and writing
    the whole generator state, reseeding, and drawing a normal variate.  The
    generator itself is left abstract. *)
Class RandomSource : Type := {
  rng_state : Type;
  seed_state : Z -> rng_state;                      (* np.random.seed(v) *)
  normal : Z -> Z -> rng_state -> Z * rng_state     (* np.random.normal(mu, sigma) *)
}.

(** ** utils.initialize_seed / utils.finalize_seed *)

(** The global generator state is threaded explicitly: the functions take
    the current state and return the new one. *)
Definition initialize_seed `{RandomSource} (seed : option Z) (seq : Z)
    (g : rng_state) : option rng_state * rng_state :=
  match seed with
  | None => (None, g)
  | Some sd =>
      let old_state := g in
      (Some old_state, seed_state ((sd * (seq + 1)) mod (Z.shiftl 1 30)))
  end.

Definition finalize_seed `{RandomSource} (old_state : option rng_state)
    (g : rng_state) : rng_state :=
  match old_state with
  | Some st => st
  | None => g
  end.

(** ** The associative memory used by NetworkBuilder *)

(** Modelled from the spec: [binam.BiNAM] (module [binam] is not among the
    sources).  The weight matrix is an m x n matrix created all zero;
    [train(x, y)] ORs the outer product of [x] and [y] into it. *)
Definition BiNAM : Type := list (list bool).

Definition BiNAM_new (m n : nat) : BiNAM := repeat (repeat false n) m.

Definition BiNAM_train (W : BiNAM) (x y : list bool) : BiNAM :=
  map (fun '(row, xi) => map (fun '(w, yj) => w || (xi && yj)) (combine row y))
      (combine W x).

(** ** NetworkBuilder *)

Record NetworkBuilder : Type := mkBuilder {
  nb_N : nat;                       (* number of samples *)
  nb_m : nat;                       (* input dimensionality *)
  nb_n : nat;                       (* output dimensionality *)
  mat_in : list (list bool);        (* N x m *)
  mat_out : list (list bool);       (* N x n *)
  mem : option BiNAM;               (* None until first trained *)
  last_k : nat
}.

(** [NetworkBuilder(mat_in, mat_out)] for matrices of shape [N x m] and
    [N x n]. *)
Definition new_builder (N m n : nat) (X Y : list (list bool)) : NetworkBuilder :=
  mkBuilder N m n X Y None 0.

(** [if k < 0 or k > self.N: k = self.N] *)
Definition clamp_k (N : nat) (k : Z) : nat :=
  if (k <? 0) || (Z.of_nat N <? k) then N else Z.to_nat k.

(** The part of [build_topology] that maintains the cached memory (the
    neurons and connections handed to the simulator are not modelled):
    the builder after the call. *)
Definition build_topology (b : NetworkBuilder) (k : Z) : NetworkBuilder :=
  let k := clamp_k (nb_N b) k in
  let mem0 :=
    match mem b with
    | None => BiNAM_new (nb_m b) (nb_n b)
    | Some W => if (k <? last_k b)%nat then BiNAM_new (nb_m b) (nb_n b) else W
    end in
  let mem1 :=
    fold_left (fun W l => BiNAM_train W (nth l (mat_in b) []) (nth l (mat_out b) []))
              (seq (last_k b) (k - last_k b)) mem0 in
  mkBuilder (nb_N b) (nb_m b) (nb_n b) (mat_in b) (mat_out b) (Some mem1) k.

(** ** InputParameters.build_spike_train *)

Record InputParameters : Type := mkInput {
  burst_size : nat;
  time_window : Z;
  isi : Z;
  sigma_t : Z;
  sigma_t_offs : Z
}.

(** The loop over the spikes of one burst, drawing a jitter per spike when
    [sigma_t > 0]. *)
Fixpoint burst_loop `{RandomSource} (p : InputParameters) (offs : Z)
    (js : list nat) (g : rng_state) : list Z * rng_state :=
  match js with
  | [] => ([], g)
  | i :: js' =>
      let '(jitter, g1) :=
        if 0 <? sigma_t p then normal 0 (sigma_t p) g else (0, g) in
      let '(rest, g2) := burst_loop p offs js' g1 in
      (offs + Z.of_nat i * isi p + jitter :: rest, g2)
  end.

Definition build_spike_train `{RandomSource} (p : InputParameters) (offs : Z)
    (g : rng_state) : list Z * rng_state :=
  let '(offs, g0) :=
    if 0 <? sigma_t_offs p then normal offs (sigma_t_offs p) g else (offs, g) in
  let '(res, g1) := burst_loop p offs (seq 0 (burst_size p)) g0 in
  (stable_sort Z.leb res, g1).

(** ** NetworkBuilder.build_input *)

(** The matrices [T] and [K] are allocated with [max_num_spikes] columns and
    filled from the left, [N[i]] counting the filled columns of the rows of
    input [i]; only the filled part [T[x, 0:N[i]]] is ever read.  The
    embedding keeps, for each row, exactly that filled part as a list that
    grows at its end. *)
Record enc_state `{RandomSource} : Type := mkEnc {
  enc_T : list (list Z);       (* filled part of each row of T *)
  enc_K : list (list Z);       (* filled part of each row of K *)
  enc_min_t : option Z;        (* None stands for np.inf *)
  enc_t : Z;
  enc_sIdx : Z;
  enc_gen : rng_state
}.

Arguments mkEnc {_} _ _ _ _ _ _.

(** [rows[x] = rows[x] + extra] *)
Fixpoint append_at (x : nat) (extra : list Z) (rows : list (list Z))
  : list (list Z) :=
  match rows, x with
  | [], _ => []
  | r :: rows', O => (r ++ extra) :: rows'
  | r :: rows', S x' => r :: append_at x' extra rows'
  end.

(** [np.sum(X, 0)]: the column sums over all rows of [X]. *)
Definition col_sums (X : list (list bool)) (m : nat) : list Z :=
  map (fun i => Z.of_nat (length (filter (fun row => nth i row false) X)))
      (seq 0 m).

(** First loop over the parameter sets: the number of columns of [T]. *)
Definition max_num_spikes (X : list (list bool)) (m : nat)
    (input_params : list InputParameters) : result Z :=
  foldM (fun acc p =>
           mx <- py_max (col_sums X m) ;;
           Ok (acc + mx * Z.of_nat (burst_size p)))
        input_params 0.

(** Body of [for j in xrange(s)] for input [i]. *)
Definition enc_neuron `{RandomSource} (p : InputParameters) (s i : nat)
    (st : enc_state) (j : nat) : result enc_state :=
  let '(train, g) := build_spike_train p (enc_t st) (enc_gen st) in
  mt <- py_min train ;;                                   (* np.min(train) *)
  let min_t :=
    match enc_min_t st with
    | None => mt
    | Some m0 => Z.min m0 mt
    end in
  Ok (mkEnc (append_at (i * s + j)%nat train (enc_T st))
            (append_at (i * s + j)%nat
               (repeat (enc_sIdx st) (burst_size p)) (enc_K st))
            (Some min_t) (enc_t st) (enc_sIdx st) g).

(** Body of [for i in xrange(self.m)] for sample [l]. *)
Definition enc_input `{RandomSource} (X : list (list bool))
    (p : InputParameters) (s l : nat) (st : enc_state) (i : nat)
  : result enc_state :=
  if nth i (nth l X []) false
  then foldM (enc_neuron p s i) (seq 0 s) st
  else Ok st.

(** Body of [for l in xrange(k)]. *)
Definition enc_sample `{RandomSource} (X : list (list bool)) (m : nat)
    (p : InputParameters) (s : nat) (st : enc_state) (l : nat)
  : result enc_state :=
  st' <- foldM (enc_input X p s l) (seq 0 m) st ;;
  Ok (mkEnc (enc_T st') (enc_K st') (enc_min_t st')
            (enc_t st' + time_window p) (enc_sIdx st' + 1) (enc_gen st')).

(** Body of [for ip in input_params]. *)
Definition enc_params `{RandomSource} (X : list (list bool)) (m k s : nat)
    (input_params_delay : Z) (st : enc_state) (p : InputParameters)
  : result enc_state :=
  st' <- foldM (enc_sample X m p s) (seq 0 k) st ;;
  Ok (mkEnc (enc_T st') (enc_K st') (enc_min_t st')
            (enc_t st' + time_window p * input_params_delay)
            (enc_sIdx st') (enc_gen st')).

(** The second loop over the parameter sets, started on empty matrices with
    [t = 0], [sIdx = 0] and [min_t = np.inf]. *)
Definition fill_matrices `{RandomSource} (X : list (list bool)) (m k s : nat)
    (input_params : list InputParameters) (input_params_delay : Z)
    (g : rng_state) : result enc_state :=
  foldM (enc_params X m k s input_params_delay) input_params
        (mkEnc (repeat [] (s * m)%nat) (repeat [] (s * m)%nat) None 0 0 g).

(** [T - min_t + time_offs] on one entry.  When [min_t] is still [np.inf] no
    spike was written and no entry is read.  The source computes in
    binary64, the embedding exactly: the two agree on integer times as long
    as the values stay within 2^53 in magnitude ([times_exact]); beyond
    that the source rounds, the order of the shifted times is kept but
    distinct times may coincide. *)
Definition shift_time (min_t : option Z) (time_offs : Z) (v : Z) : Z :=
  match min_t with
  | Some m0 => v - m0 + time_offs
  | None => v
  end.

Definition pair_leb (a b : Z * Z) : bool := fst a <=? fst b.

(** [I = np.argsort(T[x, 0:N[i]])] applied to row [x] of [T] and of [K]: the
    (time, sample index) pairs of the row in ascending time. *)
Definition sorted_row (min_t : option Z) (time_offs : Z) (trow krow : list Z)
  : list (Z * Z) :=
  stable_sort pair_leb (combine (map (shift_time min_t time_offs) trow) krow).

(** [range(k, k * (len(input_params) + 1), k)]; a zero step is a
    ValueError. *)
Definition input_split_of (k np : nat) : result (list Z) :=
  if (k =? 0)%nat then Raise ValueError
  else Ok (map (fun q => Z.of_nat (k * (q + 1))) (seq 0 np)).

Record encoded `{RandomSource} : Type := mkEncoded {
  e_times : list (list Z);
  e_indices : list (list Z);
  e_split : list Z;
  e_gen : rng_state             (* the generator after the call *)
}.

Arguments mkEncoded {_} _ _ _ _.

Definition build_input `{RandomSource} (b : NetworkBuilder) (k : Z)
    (time_offs : Z) (s : nat) (input_params : list InputParameters)
    (input_params_delay : Z) (g : rng_state) : result encoded :=
  let k := clamp_k (nb_N b) k in
  let X := mat_in b in
  let m := nb_m b in
  _ <- max_num_spikes X m input_params ;;
  st <- fill_matrices X m k s input_params input_params_delay g ;;
  let rows :=
    flat_map (fun i =>
                map (fun j =>
                       let x := (i * s + j)%nat in
                       sorted_row (enc_min_t st) time_offs
                         (nth x (enc_T st) []) (nth x (enc_K st) []))
                    (seq 0 s))
             (seq 0 m) in
  split_at <- input_split_of k (length input_params) ;;
  Ok (mkEncoded (map (map fst) rows) (map (map snd) rows) split_at
                (enc_gen st)).

(** ** Vocabulary of the statements *)

(** Spike times and sample indices are parallel: every unit has as many
    indices as times. *)
Definition parallel (times indices : list (list Z)) : Prop :=
  Forall2 (fun ts ks => length ts = length ks) times indices.

(** All (time, sample index) pairs of a collection of spike trains. *)
Definition pooled (times indices : list (list Z)) : list (Z * Z) :=
  concat (map (fun p => combine (fst p) (snd p)) (combine times indices)).

(** [r] is the sample index of an input spike that is latest among those
    strictly before [t]. *)
Definition latest_before (P : list (Z * Z)) (t r : Z) : Prop :=
  exists t', In (t', r) P /\ t' < t /\
             forall t'' k'', In (t'', k'') P -> t'' < t -> t'' <= t'.

(** [r] is the sample index of an input spike that is latest among those at
    or before [t]. *)
Definition latest_at_or_before (P : list (Z * Z)) (t r : Z) : Prop :=
  exists t', In (t', r) P /\ t' <= t /\
             forall t'' k'', In (t'', k'') P -> t'' <= t -> t'' <= t'.

(** No input spike lies strictly before [t]. *)
Definition none_before (P : list (Z * Z)) (t : Z) : Prop :=
  forall t'' k'', In (t'', k'') P -> t <= t''.

(** [r] is the sample index of an earliest input spike. *)
Definition earliest (P : list (Z * Z)) (r : Z) : Prop :=
  exists t', In (t', r) P /\ forall t'' k'', In (t'', k'') P -> t' <= t''.

(** What the matcher assigns to an output spike at time [t]. *)
Definition matched (P : list (Z * Z)) (t r : Z) : Prop :=
  latest_before P t r \/ (none_before P t /\ earliest P r).

(** The (time, sample index) part of a flat record. *)
Definition spike_pair (sp : spike) : Z * Z := (sp_t sp, sp_k sp).

(** *** Temporal partitions, as the specification words them *)





(** *** Example data *)

(** A network with one input and one output population: two samples, spikes
    at times 0 and 100. *)
Definition example_net_A : NetworkInstance :=
  mkInstance [mkPopulation true [0; 100]; mkPopulation false []] []
             [[0; 100]] [[0; 1]] [1; 2].

(** A network with two input populations and one output population. *)
Definition example_net_B : NetworkInstance :=
  mkInstance [mkPopulation true [0]; mkPopulation true [50];
              mkPopulation false []] []
             [[0]; [50]] [[0]; [1]] [2].

Definition example_out_A : list (list Z) := [[]; [5; 105]].
Definition example_out_B : list (list Z) := [[]; []; [7; 60]].

(** The memory trained from the empty state on the rows [0 .. k-1] of the
    builder's matrices, in index order. *)
Definition trained_up_to (b : NetworkBuilder) (k : nat) : BiNAM :=
  fold_left (fun W l => BiNAM_train W (nth l (mat_in b) []) (nth l (mat_out b) []))
            (seq 0 k) (BiNAM_new (nb_m b) (nb_n b)).

(** Two samples over one input bit and one output bit, both set. *)
Definition example_builder : NetworkBuilder :=
  new_builder 2 1 1 [[true]; [true]] [[true]; [true]].

(** *** Counting matched output spikes *)

(** Later spikes never belong to earlier samples. *)
Definition causal_order (P : list (Z * Z)) : Prop :=
  forall t1 k1 t2 k2, In (t1, k1) P -> In (t2, k2) P -> t1 < t2 -> k1 <= k2.

(** The (neuron, sample index) pairs of all spikes, neuron numbers counted
    from [u0]. *)
Fixpoint labelled (u0 : nat) (indices : list (list Z)) : list (nat * Z) :=
  match indices with
  | [] => []
  | ks :: rest => map (pair u0) ks ++ labelled (S u0) rest
  end.

(** The number of spikes of sample [k] on the [s] neurons [j*s .. j*s+s-1]
    of logical unit [j]. *)
Definition spike_count (indices : list (list Z)) (s : nat) (k : Z) (j : nat) : Z :=
  Z.of_nat (length (filter (fun uk => (snd uk =? k) && (fst uk / s =? j)%nat)
                           (labelled 0 indices))).

(** The (neuron, sample index) part of a flat record. *)
Definition spike_label (sp : spike) : nat * Z := (sp_n sp, sp_k sp).

(** The largest sample index of a collection of trains, at least 0. *)
Definition max_sample (indices : list (list Z)) : Z :=
  fold_right Z.max 0 (concat indices).

(** Row [k] of the count matrix as the specification words it. *)
Definition count_row (indices : list (list Z)) (s : nat) (k : Z) : list Z :=
  map (spike_count indices s k) (seq 0 (length indices / s)).

(** The default input parameters of the source: one spike per burst, a time
    window of 100, an inter-spike interval of 1, no jitter. *)
Definition default_input : InputParameters := mkInput 1 100 1 0 0.

(** An analysis unit with one input and one output neuron and no spike. *)
Definition silent_analysis : NetworkAnalysis := mkAnalysis [[]] [[]] [[]] [[]].

(** *** Invariant of the encoder loops *)

(** [R] rows in [T] and in [K]; the filled parts of corresponding rows have
    the same length; [min_t] is the least time written so far. *)
Definition enc_inv `{RandomSource} (R : nat) (st : enc_state) : Prop :=
  length (enc_T st) = R /\
  length (enc_K st) = R /\
  (forall x, length (nth x (enc_T st) []) = length (nth x (enc_K st) [])) /\
  match enc_min_t st with
  | None => forall x, nth x (enc_T st) [] = []
  | Some mt =>
      (exists x, In mt (nth x (enc_T st) [])) /\
      forall x t, In t (nth x (enc_T st) []) -> mt <= t
  end.

(** At least one spike has been written. *)
Definition enc_fired `{RandomSource} (st : enc_state) : Prop :=
  enc_min_t st <> None.

(** Row [x] of the result of [build_input], as (time, sample index)
    pairs. *)
Definition out_row `{RandomSource} (st : enc_state) (time_offs : Z) (x : nat)
  : list (Z * Z) :=
  sorted_row (enc_min_t st) time_offs (nth x (enc_T st) []) (nth x (enc_K st) []).


(** A random source that never deviates from the mean. *)
Definition constant_source : RandomSource :=
  {| rng_state := unit;
     seed_state := fun _ => tt;
     normal := fun mu _ g => (mu, g) |}.

(** *** Encoding without jitter *)

(** Jitter is disabled and the burst fits into its time window. *)
Definition fits_window (p : InputParameters) : Prop :=
  sigma_t p = 0 /\ sigma_t_offs p = 0 /\
  (0 < burst_size p)%nat /\ 0 <= isi p /\
  (Z.of_nat (burst_size p) - 1) * isi p < time_window p.

(** The (time, sample index) pairs written so far into row [x]. *)
Definition written `{RandomSource} (st : enc_state) (x : nat) : list (Z * Z) :=
  combine (nth x (enc_T st) []) (nth x (enc_K st) []).

(** While the sample [enc_sIdx] is being encoded with a window of length
    [w]: spikes of earlier samples lie before [enc_t], those of the current
    sample in [[enc_t, enc_t + w)]; spikes of a later sample are later. *)
Definition mono_inv `{RandomSource} (w : Z) (st : enc_state) : Prop :=
  (forall x t k, In (t, k) (written st x) ->
     (k < enc_sIdx st /\ t < enc_t st) \/
     (k = enc_sIdx st /\ enc_t st <= t < enc_t st + w)) /\
  (forall x1 t1 k1 x2 t2 k2,
     In (t1, k1) (written st x1) -> In (t2, k2) (written st x2) ->
     k1 < k2 -> t1 < t2).

(** Spikes of a later sample are strictly later. *)
Definition sample_monotone (P : list (Z * Z)) : Prop :=
  forall t1 k1 t2 k2, In (t1, k1) P -> In (t2, k2) P -> k1 < k2 -> t1 < t2.

(** An earlier spike of the same sample exists. *)
Definition has_earlier_same (P : list (Z * Z)) (t k : Z) : Prop :=
  exists t', In (t', k) P /\ t' < t.

(** The spikes of each unit as (time, sample index) pairs. *)
Definition unit_spikes (times indices : list (list Z)) : list (list (Z * Z)) :=
  map (fun p => combine (fst p) (snd p)) (combine times indices).

(** Two samples over one input bit, set in both. *)
Definition example_two_samples : NetworkBuilder :=
  new_builder 2 1 1 [[true]; [true]] [[true]; [true]].

(** *** Sample indices that fit the int32 arrays *)

Definition int32_range (k : Z) : Prop := -2147483648 <= k < 2147483648.

(** Every sample index fits a signed 32-bit integer. *)
Definition fits_int32 (indices : list (list Z)) : Prop :=
  Forall (Forall int32_range) indices.

(** *** Times that binary64 computes exactly *)

(** The time that the encoding spans: for every parameter set, [k] time
    windows and the delay after them. *)
Definition total_time (k : nat) (ps : list InputParameters) (delay : Z) : Z :=
  fold_right (fun p acc =>
                Z.of_nat k * time_window p + time_window p * delay + acc)
             0 ps.

(** The span of the encoding and the requested start time stay within the
    integers that binary64 holds: every time that [build_input] computes is
    then an integer of magnitude at most 2^53, and the float arithmetic of
    the source is exact. *)
Definition times_exact (k : nat) (ps : list InputParameters) (delay : Z)
    (time_offs : Z) : Prop :=
  Z.abs time_offs + total_time k ps delay <= 9007199254740992.

(** *** The default temporal split *)




(** *** The sample counter and the clock of the encoder *)

(** Every sample index written so far is in [[0, hi)]. *)
Definition indices_below `{RandomSource} (hi : Z) (st : enc_state) : Prop :=
  forall x k, In k (nth x (enc_K st) []) -> 0 <= k < hi.

(** The sample counter is [c] and every sample index written is below
    [hi]. *)
Definition counted `{RandomSource} (hi c : Z) (st : enc_state) : Prop :=
  enc_sIdx st = c /\ 0 <= c /\ indices_below hi st.

(** The clock [t] is [c], every time written so far is in [[0, U)] and
    [min_t] is not negative. *)
Definition timed `{RandomSource} (U c : Z) (st : enc_state) : Prop :=
  enc_t st = c /\ 0 <= c /\
  (forall x v, In v (nth x (enc_T st) []) -> 0 <= v < U) /\
  (forall mt, enc_min_t st = Some mt -> 0 <= mt).

(** ** NetworkBuilder.build_input on its preallocated matrices *)

(** The state of the loops: the matrices [T] and [K] ([s * m] rows of
    [max_num_spikes] columns), the fill counters [N] (one per input), and the
    variables [min_t] ([None] stands for [np.inf]), [t] and [sIdx]; the
    generator is threaded along. *)
Record matrices `{RandomSource} : Type := mkMat {
  m_T : list (list Z);
  m_K : list (list Z);
  m_N : list nat;
  m_min_t : option Z;
  m_t : Z;
  m_sIdx : Z;
  m_gen : rng_state
}.

Arguments mkMat {_} _ _ _ _ _ _ _.

(** [l[i]] *)
Definition getitem {A : Type} (l : list A) (i : nat) : result A :=
  match nth_error l i with
  | Some a => Ok a
  | None => Raise IndexError
  end.

(** numpy's [row[a:b] = vals] for a one-dimensional [vals] and [a <= b]: the
    slice is clipped to the row; [vals] must have the length of the slice,
    or length 1 (it is then broadcast), else ValueError. *)
Definition assign_slice (row : list Z) (a b : nat) (vals : list Z)
  : result (list Z) :=
  let lo := Nat.min a (length row) in
  let hi := Nat.min b (length row) in
  if (length vals =? hi - lo)%nat
  then Ok (firstn lo row ++ vals ++ skipn hi row)
  else if (length vals =? 1)%nat
       then Ok (firstn lo row ++ repeat (hd 0 vals) (hi - lo) ++ skipn hi row)
       else Raise ValueError.

(** numpy's [row[a:b] = v] for a scalar [v]. *)
Definition fill_slice (row : list Z) (a b : nat) (v : Z) : list Z :=
  let lo := Nat.min a (length row) in
  let hi := Nat.min b (length row) in
  firstn lo row ++ repeat v (hi - lo) ++ skipn hi row.

(** [rows[x] = f(rows[x])], IndexError when there is no row [x]. *)
Fixpoint set_row {A : Type} (x : nat) (f : A -> result A) (rows : list A)
  : result (list A) :=
  match rows, x with
  | [], _ => Raise IndexError
  | r :: rows', O => r' <- f r ;; Ok (r' :: rows')
  | r :: rows', S x' => rows'' <- set_row x' f rows' ;; Ok (r :: rows'')
  end.

(** Body of [for j in xrange(s)] for input [i]. *)
Definition fill_neuron `{RandomSource} (p : InputParameters) (s i : nat)
    (st : matrices) (j : nat) : result matrices :=
  let '(train, g) := build_spike_train p (m_t st) (m_gen st) in
  mt <- py_min train ;;                                   (* np.min(train) *)
  let min_t :=
    match m_min_t st with
    | None => mt
    | Some m0 => Z.min m0 mt
    end in
  a <- getitem (m_N st) i ;;
  let b := burst_size p in
  T' <- set_row (i * s + j)%nat
          (fun row => assign_slice row a (a + b)%nat train) (m_T st) ;;
  K' <- set_row (i * s + j)%nat
          (fun row => Ok (fill_slice row a (a + b)%nat (m_sIdx st))) (m_K st) ;;
  Ok (mkMat T' K' (m_N st) (Some min_t) (m_t st) (m_sIdx st) g).

(** Body of [for i in xrange(self.m)] for sample [l]. *)
Definition fill_input `{RandomSource} (X : list (list bool))
    (p : InputParameters) (s l : nat) (st : matrices) (i : nat)
  : result matrices :=
  if nth i (nth l X []) false
  then
    st' <- foldM (fill_neuron p s i) (seq 0 s) st ;;
    N' <- set_row i (fun a => Ok (a + burst_size p)%nat) (m_N st') ;;
    Ok (mkMat (m_T st') (m_K st') N' (m_min_t st') (m_t st') (m_sIdx st')
              (m_gen st'))
  else Ok st.

(** Body of [for l in xrange(k)]. *)
Definition fill_sample `{RandomSource} (X : list (list bool)) (m : nat)
    (p : InputParameters) (s : nat) (st : matrices) (l : nat)
  : result matrices :=
  st' <- foldM (fill_input X p s l) (seq 0 m) st ;;
  Ok (mkMat (m_T st') (m_K st') (m_N st') (m_min_t st')
            (m_t st' + time_window p) (m_sIdx st' + 1) (m_gen st')).

(** Body of [for ip in input_params]. *)
Definition fill_params `{RandomSource} (X : list (list bool)) (m k s : nat)
    (input_params_delay : Z) (st : matrices) (p : InputParameters)
  : result matrices :=
  st' <- foldM (fill_sample X m p s) (seq 0 k) st ;;
  Ok (mkMat (m_T st') (m_K st') (m_N st') (m_min_t st')
            (m_t st' + time_window p * input_params_delay)
            (m_sIdx st') (m_gen st')).

(** The second loop over the parameter sets, started on zero matrices of
    [w] columns with [t = 0], [sIdx = 0] and [min_t = np.inf]. *)
Definition fill_arrays `{RandomSource} (X : list (list bool)) (m k s : nat)
    (input_params : list InputParameters) (input_params_delay : Z)
    (w : nat) (g : rng_state) : result matrices :=
  foldM (fill_params X m k s input_params_delay) input_params
        (mkMat (repeat (repeat 0 w) (s * m)%nat)
               (repeat (repeat 0 w) (s * m)%nat)
               (repeat 0%nat m) None 0 0 g).

(** Row [x = i * s + j] of the result: the filled parts [T[x, 0:N[i]]] and
    [K[x, 0:N[i]]], shifted and sorted. *)
Definition result_row `{RandomSource} (st : matrices) (time_offs : Z)
    (i x : nat) : list (Z * Z) :=
  let n := nth i (m_N st) 0%nat in
  sorted_row (m_min_t st) time_offs
             (firstn n (nth x (m_T st) [])) (firstn n (nth x (m_K st) [])).

Definition build_input_arrays `{RandomSource} (b : NetworkBuilder) (k : Z)
    (time_offs : Z) (s : nat) (input_params : list InputParameters)
    (input_params_delay : Z) (g : rng_state) : result encoded :=
  let k := clamp_k (nb_N b) k in
  let X := mat_in b in
  let m := nb_m b in
  w <- max_num_spikes X m input_params ;;
  st <- fill_arrays X m k s input_params input_params_delay (Z.to_nat w) g ;;
  let rows :=
    flat_map (fun i =>
                map (fun j => result_row st time_offs i (i * s + j)%nat)
                    (seq 0 s))
             (seq 0 m) in
  split_at <- input_split_of k (length input_params) ;;
  Ok (mkEncoded (map (map fst) rows) (map (map snd) rows) split_at
                (m_gen st)).

(** *** The matrices of build_input and their filled parts *)

(** Two computations fail alike or return related values. *)
Definition sim_res {S S' : Type} (R : S -> S' -> Prop) (r : result S)
    (r' : result S') : Prop :=
  match r, r' with
  | Ok a, Ok a' => R a a'
  | Raise e, Raise e' => e = e'
  | _, _ => False
  end.

(** The matrices [M] of [w] columns hold, in the first [F x] columns of row
    [x], the list kept for that row in [st]; the other variables agree. *)
Definition sim `{RandomSource} (s m w : nat) (F : nat -> nat) (M : matrices)
    (st : enc_state) : Prop :=
  length (m_T M) = (s * m)%nat /\
  length (m_K M) = (s * m)%nat /\
  length (m_N M) = m /\
  length (enc_T st) = (s * m)%nat /\
  length (enc_K st) = (s * m)%nat /\
  (forall x, (x < s * m)%nat ->
     length (nth x (m_T M) []) = w /\
     length (nth x (m_K M) []) = w /\
     (F x <= w)%nat /\
     firstn (F x) (nth x (m_T M) []) = nth x (enc_T st) [] /\
     firstn (F x) (nth x (m_K M) []) = nth x (enc_K st) []) /\
  m_min_t M = enc_min_t st /\
  m_t M = enc_t st /\
  m_sIdx M = enc_sIdx st /\
  m_gen M = enc_gen st.

(** Between two inputs row [x] is filled up to [N[x / s]]. *)
Definition fill_of `{RandomSource} (s : nat) (M : matrices) (x : nat) : nat :=
  nth (x / s) (m_N M) 0%nat.

(** While the neurons of input [i] are written, those before neuron [j]
    already hold the new burst of [b] spikes. *)
Definition fill_mid (s i a b j : nat) (N : list nat) (x : nat) : nat :=
  if ((i * s <=? x) && (x <? i * s + j))%nat then (a + b)%nat
  else nth (x / s) N 0%nat.

(** The columns that the loops add to the rows of each input. *)
Definition vsum (cs : list (nat -> nat)) (i : nat) : nat :=
  list_sum (map (fun c => c i) cs).

Definition cost_input (X : list (list bool)) (p : InputParameters) (l i0 : nat)
    (i : nat) : nat :=
  if (i =? i0)%nat && nth i0 (nth l X []) false then burst_size p else 0%nat.

Definition cost_sample (X : list (list bool)) (m : nat) (p : InputParameters)
    (l : nat) : nat -> nat :=
  vsum (map (cost_input X p l) (seq 0 m)).

Definition cost_params (X : list (list bool)) (m k : nat) (p : InputParameters)
  : nat -> nat :=
  vsum (map (cost_sample X m p) (seq 0 k)).

Definition cost_all (X : list (list bool)) (m k : nat)
    (ps : list InputParameters) : nat -> nat :=
  vsum (map (cost_params X m k) ps).

(** The relation between two inputs: the rows are filled up to the counters
    [N], which have the values [u]. *)
Definition sim_at `{RandomSource} (s m w : nat) (u : nat -> nat) (M : matrices)
    (st : enc_state) : Prop :=
  sim s m w (fill_of s M) M st /\ forall i, nth i (m_N M) 0%nat = u i.

(** *** Spike counts *)

(** The number of samples among the first [k] in which input bit [i] is
    set. *)
Definition active_samples (X : list (list bool)) (k i : nat) : nat :=
  length (filter (fun l => nth i (nth l X []) false) (seq 0 k)).

(** *** Flat spike records *)

(** Every spike of every unit with its sample index and the number of its
    unit, units counted from [u0]. *)
Fixpoint tagged (u0 : nat) (times indices : list (list Z)) : list spike :=
  match times, indices with
  | ts :: times', ks :: indices' =>
      map (fun tk => mkSpike (fst tk) (snd tk) u0) (combine ts ks)
      ++ tagged (S u0) times' indices'
  | _, _ => []
  end.

(** Every unit has at least as many sample indices as spike times. *)
Fixpoint covers (times indices : list (list Z)) : bool :=
  match times with
  | [] => true
  | ts :: times' =>
      (length ts <=? length (hd [] indices))%nat && covers times' (tl indices)
  end.

(** *** Latencies *)

(** [t] is the time of a latest spike of sample [k]. *)
Definition last_of (P : list (Z * Z)) (k t : Z) : Prop :=
  In (t, k) P /\ forall t', In (t', k) P -> t' <= t.

(** An analysis unit with two samples, one input and one output spike
    each. *)
Definition example_analysis : NetworkAnalysis :=
  mkAnalysis [[0; 10]] [[0; 1]] [[5; 20]] [[0; 1]].

(** *** Pools of several networks *)

(** The analyses of the networks on their own outputs, one after the
    other. *)
Fixpoint analyses (nets : list NetworkInstance) (outs : list (list (list Z)))
  : result (list NetworkAnalysis) :=
  match nets, outs with
  | net :: nets', out :: outs' =>
      ra <- build_analysis net out ;;
      rest <- analyses nets' outs' ;;
      Ok (ra ++ rest)
  | _, _ => Ok []
  end.

(** The split descriptors of networks added to a pool that holds [nP]
    populations and [nI] input units: the running totals. *)
Fixpoint entries (nP nI : nat) (nets : list NetworkInstance)
  : list spatial_split_entry :=
  match nets with
  | [] => []
  | net :: nets' =>
      let nP' := (nP + length (populations net))%nat in
      let nI' := (nI + length (input_times net))%nat in
      mkSpatial nP' nI' :: entries nP' nI' nets'
  end.

(** Both ends of a connection lie in the populations [lo .. hi - 1]. *)
Definition conn_within (lo hi : nat) (c : connection) : Prop :=
  (lo <= fst (c_src c) < hi)%nat /\ (lo <= fst (c_tar c) < hi)%nat.

(** A network of one source and one neuron population with a connection
    between them. *)
Definition example_net_C : NetworkInstance :=
  mkInstance [mkPopulation true [0]; mkPopulation false []]
             [mkConnection (0, 0)%nat (1, 0)%nat (3 # 100) 0]
             [[0]] [[0]] [1].

(** ** TopologyParameters.draw_weight *)

(** The topology parameters that the builder reads: the neuron multiplicity
    and the synapse weight with its standard deviation.  Weights are, like
    times, integers in a fixed resolution. *)
Record TopologyParameters : Type := mkTopology {
  multiplicity : nat;
  tp_w : Z;                 (* "w" *)
  sigma_w : Z
}.

Definition draw_weight `{RandomSource} (t : TopologyParameters)
    (g : rng_state) : Z * rng_state :=
  if sigma_w t <=? 0 then (tp_w t, g)
  else
    let '(v, g') := normal (tp_w t) (sigma_w t) g in
    (Z.max 0 v, g').

(** ** NetworkBuilder.build_topology: the connections *)

(** The closures [in_coord] and [out_coord] of [build_topology], for
    multiplicity [s] and input dimension [m]. *)
Definition in_coord (s i k : nat) : nat * nat := ((i * s + k)%nat, 0%nat).

Definition out_coord (m s j l : nat) : nat * nat :=
  ((m * s + j * s + l)%nat, 0%nat).

(** The list comprehension handed to [add_connections] for the cell
    [(i, j)]: one connection per pair [(k, l)] of [kl], each with a weight
    drawn in turn and delay 0. *)
Fixpoint cell_connections `{RandomSource} (t : TopologyParameters)
    (m i j : nat) (kl : list (nat * nat)) (g : rng_state)
  : list connection * rng_state :=
  match kl with
  | [] => ([], g)
  | (k, l) :: kl' =>
      let '(wt, g1) := draw_weight t g in
      let '(rest, g2) := cell_connections t m i j kl' g1 in
      (mkConnection (in_coord (multiplicity t) i k)
                    (out_coord m (multiplicity t) j l) (inject_Z wt) 0 :: rest,
       g2)
  end.

(** The loop [for i in xrange(self.m): for j in xrange(self.n)] over the
    cells of the memory [W]: the argument of each [add_connections] call, in
    call order. *)
Fixpoint connections_loop `{RandomSource} (W : BiNAM) (t : TopologyParameters)
    (m : nat) (cells : list (nat * nat)) (g : rng_state)
  : list (list connection) * rng_state :=
  match cells with
  | [] => ([], g)
  | (i, j) :: cells' =>
      if nth j (nth i W []) false
      then
        let s := multiplicity t in
        let '(batch, g1) :=
          cell_connections t m i j (list_prod (seq 0 s) (seq 0 s)) g in
        let '(rest, g2) := connections_loop W t m cells' g1 in
        (batch :: rest, g2)
      else connections_loop W t m cells' g
  end.

Definition topology_connections `{RandomSource} (b : NetworkBuilder)
    (W : BiNAM) (t : TopologyParameters) (g : rng_state)
  : list (list connection) * rng_state :=
  connections_loop W t (nb_m b)
    (list_prod (seq 0 (nb_m b)) (seq 0 (nb_n b))) g.

(** ** NetworkBuilder.inject_input *)

(** [topology["populations"][i]["params"]["spike_times"] = times[i]] for
    every [i < len(times)]; a missing population is an IndexError. *)
Fixpoint inject_input (pops : list population) (times : list (list Z))
  : result (list population) :=
  match times with
  | [] => Ok pops
  | ts :: times' =>
      match pops with
      | [] => Raise IndexError
      | p :: pops' =>
          rest <- inject_input pops' times' ;;
          Ok (mkPopulation (pop_source p) ts :: rest)
      end
  end.

(** A connection from an input neuron to an output neuron of a network with
    [m] inputs, [n] outputs and multiplicity [s], without delay. *)
Definition feed_forward (m n s : nat) (c : connection) : Prop :=
  (fst (c_src c) < m * s)%nat /\
  (m * s <= fst (c_tar c) < m * s + n * s)%nat /\
  snd (c_src c) = 0%nat /\ snd (c_tar c) = 0%nat /\ c_delay c = 0%Q.

(** The cells [(i, j)] with [i < m] and [j < n] that are set in [W]. *)
Definition set_cells (W : BiNAM) (m n : nat) : list (nat * nat) :=
  filter (fun ij => nth (snd ij) (nth (fst ij) W []) false)
         (list_prod (seq 0 m) (seq 0 n)).
(** * Proofs *)

(** ** The error monad *)

Lemma bind_ok {A B : Type} (m : result A) (k : A -> result B) (b : B) :
  bind m k = Ok b -> exists a, m = Ok a /\ k a = Ok b.
Proof.
  destruct m as [a|e]; simpl; intros Hk; [exists a; auto | discriminate].
Qed.

Ltac inv_bind H :=
  let a := fresh "a" in
  let Ha := fresh "Ha" in
  apply bind_ok in H; destruct H as (a & Ha & H).

(** ** Sorting *)

Section StableSortFacts.
Context {A : Type} (leb : A -> A -> bool).
Hypothesis leb_total : forall a b, leb a b = true \/ leb b a = true.
Hypothesis leb_trans :
  forall a b c, leb a b = true -> leb b c = true -> leb a c = true.

Let le (a b : A) : Prop := leb a b = true.

Lemma insert_sorted_perm (x : A) (l : list A) :
  Permutation (x :: l) (insert_sorted leb x l).
Proof.
  induction l as [|y l IH]; simpl; auto.
  destruct (leb x y); auto.
  rewrite perm_swap. constructor. exact IH.
Qed.

Lemma stable_sort_perm (l : list A) : Permutation l (stable_sort leb l).
Proof.
  induction l as [|x l IH]; simpl; auto.
  rewrite <- insert_sorted_perm. constructor. exact IH.
Qed.

Lemma insert_sorted_sorted (x : A) (l : list A) :
  StronglySorted le l -> StronglySorted le (insert_sorted leb x l).
Proof.
  induction 1 as [|y l Hs IH Hall]; simpl.
  - repeat constructor.
  - destruct (leb x y) eqn:E.
    + constructor; [constructor; assumption|].
      constructor; [exact E|].
      eapply Forall_impl; [|exact Hall].
      intros z Hz. eapply leb_trans; eassumption.
    + constructor; [exact IH|].
      assert (Hyx : le y x) by (destruct (leb_total x y); [congruence|assumption]).
      eapply Permutation_Forall; [apply insert_sorted_perm|].
      constructor; assumption.
Qed.

Lemma stable_sort_sorted (l : list A) : StronglySorted le (stable_sort leb l).
Proof.
  induction l as [|x l IH]; simpl; [constructor|].
  apply insert_sorted_sorted, IH.
Qed.

Lemma stable_sort_length (l : list A) : length (stable_sort leb l) = length l.
Proof. symmetry. apply Permutation_length, stable_sort_perm. Qed.

Lemma stable_sort_In (l : list A) (x : A) : In x (stable_sort leb l) <-> In x l.
Proof.
  split; apply Permutation_in;
    [apply Permutation_sym|]; apply stable_sort_perm.
Qed.
End StableSortFacts.

(** A list that is already sorted is left as it is. *)
Lemma insert_sorted_head {A : Type} (leb : A -> A -> bool) (x : A) (l : list A) :
  Forall (fun y => leb x y = true) l -> insert_sorted leb x l = x :: l.
Proof.
  destruct 1 as [|y l Hy _]; simpl; [reflexivity|].
  now rewrite Hy.
Qed.

Lemma stable_sort_id {A : Type} (leb : A -> A -> bool) (l : list A) :
  StronglySorted (fun a b => leb a b = true) l -> stable_sort leb l = l.
Proof.
  induction 1 as [|x l Hs IH Hall]; simpl; [reflexivity|].
  rewrite IH. apply insert_sorted_head, Hall.
Qed.

Lemma time_leb_total (a b : spike) : time_leb a b = true \/ time_leb b a = true.
Proof. unfold time_leb. lia. Qed.

Lemma time_leb_trans (a b c : spike) :
  time_leb a b = true -> time_leb b c = true -> time_leb a c = true.
Proof. unfold time_leb. lia. Qed.

Lemma lex_leb_total (a b : spike) : lex_leb a b = true \/ lex_leb b a = true.
Proof. unfold lex_leb. lia. Qed.

Lemma lex_leb_trans (a b c : spike) :
  lex_leb a b = true -> lex_leb b c = true -> lex_leb a c = true.
Proof. unfold lex_leb. lia. Qed.

Lemma pair_leb_total (a b : Z * Z) : pair_leb a b = true \/ pair_leb b a = true.
Proof. unfold pair_leb. lia. Qed.

Lemma pair_leb_trans (a b c : Z * Z) :
  pair_leb a b = true -> pair_leb b c = true -> pair_leb a c = true.
Proof. unfold pair_leb. lia. Qed.

Lemma Zleb_total (a b : Z) : (a <=? b) = true \/ (b <=? a) = true.
Proof. lia. Qed.

Lemma Zleb_trans (a b c : Z) :
  (a <=? b) = true -> (b <=? c) = true -> (a <=? c) = true.
Proof. lia. Qed.

(** Sortedness of a list of integers read through [nth]. *)
Lemma sorted_nth (a : list Z) :
  StronglySorted Z.le a ->
  forall i j, (i <= j)%nat -> (j < length a)%nat -> nth i a 0 <= nth j a 0.
Proof.
  induction 1 as [|x l Hs IH Hall]; simpl; intros i j Hij Hj; [lia|].
  destruct i as [|i], j as [|j]; try lia.
  - rewrite Forall_forall in Hall. apply Hall, nth_In. lia.
  - apply IH; lia.
Qed.

Lemma sorted_map_key {A : Type} (key : A -> Z) (leb : A -> A -> bool) (l : list A) :
  (forall a b, leb a b = true -> key a <= key b) ->
  StronglySorted (fun a b => leb a b = true) l ->
  StronglySorted Z.le (map key l).
Proof.
  intros Hk. induction 1 as [|x l Hs IH Hall]; simpl; constructor; auto.
  rewrite Forall_map. eapply Forall_impl; [|exact Hall]. simpl. auto.
Qed.

(** ** bisect *)

Lemma div2_between (lo hi : nat) :
  (lo < hi)%nat -> (lo <= (lo + hi) / 2 < hi)%nat.
Proof.
  intros H.
  pose proof (Nat.div_mod_eq (lo + hi) 2) as E.
  pose proof (Nat.mod_upper_bound (lo + hi) 2) as U. lia.
Qed.

(** On a sorted list [bisect_left] returns the position that separates the
    entries below [x] from the others. *)
Lemma bisect_left_loop_spec (a : list Z) (x : Z) :
  StronglySorted Z.le a ->
  forall fuel lo hi,
    (hi - lo <= fuel)%nat -> (lo <= hi)%nat -> (hi <= length a)%nat ->
    (forall i, (i < lo)%nat -> nth i a 0 < x) ->
    (forall i, (hi <= i)%nat -> (i < length a)%nat -> x <= nth i a 0) ->
    let r := bisect_left_loop fuel a x lo hi in
    (r <= length a)%nat /\
    (forall i, (i < r)%nat -> nth i a 0 < x) /\
    (forall i, (r <= i)%nat -> (i < length a)%nat -> x <= nth i a 0).
Proof.
  intros Hs. induction fuel as [|fuel IH]; intros lo hi Hf Hlh Hhi Hlo Hup r;
    subst r; [cbn [bisect_left_loop]|cbn [bisect_left_loop]].
  - assert (lo = hi) by lia. subst. auto with arith.
  - destruct (lo <? hi)%nat eqn:E.
    + apply Nat.ltb_lt in E. pose proof (div2_between lo hi E) as Hm.
      destruct (nth ((lo + hi) / 2) a 0 <? x) eqn:C.
      * apply IH; try lia; auto.
        intros i Hi. apply Z.ltb_lt in C.
        pose proof (sorted_nth a Hs i ((lo + hi) / 2)%nat). lia.
      * apply IH; try lia; auto.
        intros i Hi Hi'. apply Z.ltb_ge in C.
        pose proof (sorted_nth a Hs ((lo + hi) / 2)%nat i). lia.
    + apply Nat.ltb_ge in E. assert (lo = hi) by lia. subst.
      repeat split; auto.
Qed.

Lemma bisect_left_spec (a : list Z) (x : Z) :
  StronglySorted Z.le a ->
  (bisect_left a x <= length a)%nat /\
  (forall i, (i < bisect_left a x)%nat -> nth i a 0 < x) /\
  (forall i, (bisect_left a x <= i)%nat -> (i < length a)%nat -> x <= nth i a 0).
Proof.
  intros Hs. unfold bisect_left.
  apply bisect_left_loop_spec; auto; try lia.
Qed.

Lemma bisect_right_loop_spec (a : list Z) (x : Z) :
  StronglySorted Z.le a ->
  forall fuel lo hi,
    (hi - lo <= fuel)%nat -> (lo <= hi)%nat -> (hi <= length a)%nat ->
    (forall i, (i < lo)%nat -> nth i a 0 <= x) ->
    (forall i, (hi <= i)%nat -> (i < length a)%nat -> x < nth i a 0) ->
    let r := bisect_right_loop fuel a x lo hi in
    (r <= length a)%nat /\
    (forall i, (i < r)%nat -> nth i a 0 <= x) /\
    (forall i, (r <= i)%nat -> (i < length a)%nat -> x < nth i a 0).
Proof.
  intros Hs. induction fuel as [|fuel IH]; intros lo hi Hf Hlh Hhi Hlo Hup r;
    subst r; [cbn [bisect_right_loop]|cbn [bisect_right_loop]].
  - assert (lo = hi) by lia. subst. auto with arith.
  - destruct (lo <? hi)%nat eqn:E.
    + apply Nat.ltb_lt in E. pose proof (div2_between lo hi E) as Hm.
      destruct (x <? nth ((lo + hi) / 2) a 0) eqn:C.
      * apply IH; try lia; auto.
        intros i Hi Hi'. apply Z.ltb_lt in C.
        pose proof (sorted_nth a Hs ((lo + hi) / 2)%nat i). lia.
      * apply IH; try lia; auto.
        intros i Hi. apply Z.ltb_ge in C.
        pose proof (sorted_nth a Hs i ((lo + hi) / 2)%nat). lia.
    + apply Nat.ltb_ge in E. assert (lo = hi) by lia. subst.
      repeat split; auto.
Qed.

Lemma bisect_right_spec (a : list Z) (x : Z) :
  StronglySorted Z.le a ->
  (bisect_right a x <= length a)%nat /\
  (forall i, (i < bisect_right a x)%nat -> nth i a 0 <= x) /\
  (forall i, (bisect_right a x <= i)%nat -> (i < length a)%nat -> x < nth i a 0).
Proof.
  intros Hs. unfold bisect_right.
  apply bisect_right_loop_spec; auto; try lia.
Qed.

(** ** int32 *)

(** A sample index that fits 32 bits is stored as it is. *)
Lemma to_int32_in_range (k : Z) : int32_range k -> to_int32 k = Ok k.
Proof.
  unfold int32_range, to_int32, wrap32. intros Hk.
  destruct ((-9223372036854775808 <=? k) && (k <? 9223372036854775808)) eqn:E;
    [|lia].
  f_equal. rewrite Z.mod_small by lia. lia.
Qed.

Ltac int32 := repeat (constructor; try (unfold int32_range; lia)).

(** ** flaten *)

Lemma flaten_unit_parallel (i : nat) (ts ks : list Z) :
  length ts = length ks -> Forall int32_range ks ->
  exists fl, flaten_unit i ts ks = Ok fl /\
             map spike_pair fl = combine ts ks /\
             map sp_n fl = repeat i (length ts).
Proof.
  revert ks. induction ts as [|t ts IH]; intros [|k ks] Hlen Hr; simpl in *;
    try discriminate.
  - exists []. auto.
  - inversion Hr as [|? ? Hk Hr']; subst.
    rewrite (to_int32_in_range k Hk). cbn [bind].
    destruct (IH ks) as (fl & -> & Hp & Hn); [lia|exact Hr'|].
    simpl. eexists. split; [reflexivity|]. simpl. now rewrite Hp, Hn.
Qed.

Lemma flaten_loop_parallel (times indices : list (list Z)) :
  parallel times indices -> fits_int32 indices ->
  forall i0, exists fl, flaten_loop i0 times indices = Ok fl /\
                        map spike_pair fl = pooled times indices.
Proof.
  induction 1 as [|ts ks times indices Hlen Hrest IH]; intros Hfit i0; simpl.
  - exists []. auto.
  - inversion Hfit as [|? ? Hks Hfit']; subst.
    destruct (flaten_unit_parallel i0 ts ks Hlen Hks) as (row & -> & Hp & _).
    destruct (IH Hfit' (S i0)) as (fl & -> & Hfl).
    simpl. eexists. split; [reflexivity|].
    rewrite map_app, Hp, Hfl. reflexivity.
Qed.

(** On parallel trains of at least one unit, with sample indices that fit
    the int32 array, [flaten] succeeds; its records are the pooled spikes
    in ascending time. *)
Lemma flaten_by_time (times indices : list (list Z)) :
  parallel times indices -> fits_int32 indices -> times <> [] ->
  exists fl,
    flaten times indices false = Ok (map sp_t fl, map sp_k fl, map sp_n fl) /\
    Permutation (map spike_pair fl) (pooled times indices) /\
    StronglySorted Z.le (map sp_t fl).
Proof.
  intros Hpar Hfit Hne.
  destruct (flaten_loop_parallel times indices Hpar Hfit 0%nat)
    as (fl & Hfl & Hp).
  exists (stable_sort time_leb fl).
  unfold flaten, flaten_spikes.
  destruct times as [|ts times]; [congruence|].
  rewrite Hfl. simpl. split; [reflexivity|]. split.
  - rewrite <- Hp. apply Permutation_map, Permutation_sym, stable_sort_perm.
  - apply sorted_map_key with (leb := time_leb).
    + unfold time_leb. intros a b. lia.
    + apply stable_sort_sorted; [apply time_leb_total|apply time_leb_trans].
Qed.

(** ** match_index on a time-sorted pool *)

Lemma In_pair_nth (P : list (Z * Z)) (t k : Z) :
  In (t, k) P ->
  exists i, (i < length P)%nat /\ nth i (map fst P) 0 = t /\ nth i (map snd P) 0 = k.
Proof.
  intros Hin. destruct (In_nth P (t, k) (0, 0) Hin) as (i & Hi & E).
  exists i. split; [exact Hi|].
  rewrite (map_nth fst P (0, 0)), (map_nth snd P (0, 0)), E. auto.
Qed.

Lemma nth_pair_In (P : list (Z * Z)) (i : nat) :
  (i < length P)%nat -> In (nth i (map fst P) 0, nth i (map snd P) 0) P.
Proof.
  intros Hi.
  rewrite (map_nth fst P (0, 0)), (map_nth snd P (0, 0)).
  rewrite <- surjective_pairing. now apply nth_In.
Qed.

Lemma match_index_sorted (P : list (Z * Z)) (t : Z) :
  StronglySorted Z.le (map fst P) -> P <> [] ->
  matched P t (match_index (map fst P) (map snd P) t).
Proof.
  intros Hs Hne. unfold match_index.
  destruct (bisect_left_spec (map fst P) t Hs) as (Hle & Hlo & Hhi).
  rewrite length_map in *.
  assert (Hlen : (0 < length P)%nat) by (destruct P; simpl; [congruence|lia]).
  set (r := bisect_left (map fst P) t) in *.
  destruct (0 <? r)%nat eqn:E.
  - apply Nat.ltb_lt in E.
    assert (Hidx : (r - 1 < length P)%nat) by lia.
    apply Nat.ltb_lt in Hidx as Hidx'. rewrite Hidx'.
    left. exists (nth (r - 1) (map fst P) 0). split; [|split].
    + now apply nth_pair_In.
    + apply Hlo. lia.
    + intros t'' k'' Hin Hlt.
      destruct (In_pair_nth P t'' k'' Hin) as (i & Hi & Ht & _).
      assert (i < r)%nat.
      { destruct (Nat.lt_ge_cases i r) as [?|Hge]; [assumption|].
        specialize (Hhi i Hge Hi). lia. }
      rewrite <- Ht. apply sorted_nth; [assumption|lia|].
      rewrite length_map. lia.
  - apply Nat.ltb_ge in E. assert (r = 0)%nat by lia.
    apply Nat.ltb_lt in Hlen as Hlen'. replace r with 0%nat. rewrite Hlen'.
    right. split.
    + intros t'' k'' Hin.
      destruct (In_pair_nth P t'' k'' Hin) as (i & Hi & Ht & _).
      rewrite <- Ht. apply Hhi; lia.
    + exists (nth 0 (map fst P) 0). split; [now apply nth_pair_In|].
      intros t'' k'' Hin.
      destruct (In_pair_nth P t'' k'' Hin) as (i & Hi & Ht & _).
      rewrite <- Ht. apply sorted_nth; [assumption|lia|].
      rewrite length_map. lia.
Qed.

Lemma matched_ext (P P' : list (Z * Z)) (t r : Z) :
  (forall x, In x P <-> In x P') -> matched P t r -> matched P' t r.
Proof.
  intros HP [(t' & Hin & Hlt & Hmax)|(Hnone & t' & Hin & Hmin)].
  - left. exists t'. split; [now apply HP|]. split; [assumption|].
    intros t'' k'' Hin'. apply (Hmax t'' k''). now apply HP.
  - right. split.
    + intros t'' k'' Hin'. apply (Hnone t'' k''). now apply HP.
    + exists t'. split; [now apply HP|].
      intros t'' k'' Hin'. apply (Hmin t'' k''). now apply HP.
Qed.

Lemma map_nth_seq {A : Type} (l : list A) (d : A) :
  map (fun i => nth i l d) (seq 0 (length l)) = l.
Proof.
  induction l as [|a l IH]; simpl; [reflexivity|].
  f_equal. rewrite <- seq_shift, map_map. exact IH.
Qed.

Lemma match_static_output_times (input_count : nat) (output : list (list Z)) :
  map (fun i => nth (i + input_count) output [])
      (seq 0 (length output - input_count)) = skipn input_count output.
Proof.
  revert output. induction input_count as [|c IH]; intros output.
  - rewrite Nat.sub_0_r. simpl.
    erewrite map_ext; [apply map_nth_seq|].
    intros i. now rewrite Nat.add_0_r.
  - destruct output as [|o output]; simpl; [reflexivity|].
    rewrite <- IH. apply map_ext. intros i.
    now rewrite Nat.add_succ_r.
Qed.

(** ** match_static *)

Lemma Forall2_map_self {A B : Type} (R : A -> B -> Prop) (f : A -> B) (l : list A) :
  (forall a, In a l -> R a (f a)) -> Forall2 R l (map f l).
Proof.
  induction l as [|a l IH]; simpl; intros H; constructor; auto.
Qed.

Lemma pooled_nonempty_units (times indices : list (list Z)) :
  pooled times indices <> [] -> times <> [].
Proof. intros H ->. now apply H. Qed.

(** What [match_static] returns on parallel input trains: the output
    populations' spike times and, for each spike, [match_index] over the
    time-sorted pool [fl]. *)
Lemma match_static_parallel (input_times input_indices output : list (list Z)) :
  parallel input_times input_indices -> fits_int32 input_indices ->
  input_times <> [] ->
  exists fl,
    Permutation (map spike_pair fl) (pooled input_times input_indices) /\
    StronglySorted Z.le (map sp_t fl) /\
    match_static input_times input_indices output =
      Ok (skipn (length input_times) output,
          map (map (match_index (map sp_t fl) (map sp_k fl)))
              (skipn (length input_times) output)).
Proof.
  intros Hpar Hfit Hne.
  destruct (flaten_by_time input_times input_indices Hpar Hfit Hne)
    as (fl & Hfl & Hperm & Hs).
  exists fl. split; [exact Hperm|]. split; [exact Hs|].
  unfold match_static. rewrite Hfl. cbn [bind].
  now rewrite match_static_output_times.
Qed.

Lemma spike_pair_fst (fl : list spike) : map fst (map spike_pair fl) = map sp_t fl.
Proof. rewrite map_map. reflexivity. Qed.

Lemma spike_pair_snd (fl : list spike) : map snd (map spike_pair fl) = map sp_k fl.
Proof. rewrite map_map. reflexivity. Qed.

(** C2 (amended): with parallel input trains whose sample indices fit a
    signed 32-bit integer (they are stored in an int32 array) and at least
    one input spike, every output spike at time [t] is given the sample
    index of an input spike that is latest among the pooled input spikes
    strictly before [t] (an input spike at exactly [t] does not count); when
    no input spike lies strictly before [t], it is given the sample index
    of an earliest input spike. *)
Theorem match_static_latest_strictly_before
    (input_times input_indices output : list (list Z)) :
  parallel input_times input_indices ->
  fits_int32 input_indices ->
  pooled input_times input_indices <> [] ->
  exists output_times output_indices,
    match_static input_times input_indices output =
      Ok (output_times, output_indices) /\
    output_times = skipn (length input_times) output /\
    Forall2 (Forall2 (matched (pooled input_times input_indices)))
            output_times output_indices.
Proof.
  intros Hpar Hfit Hne.
  destruct (match_static_parallel input_times input_indices output Hpar Hfit
              (pooled_nonempty_units _ _ Hne)) as (fl & Hperm & Hs & Hm).
  do 2 eexists. split; [exact Hm|]. split; [reflexivity|].
  apply Forall2_map_self. intros ts _.
  apply Forall2_map_self. intros t _.
  apply matched_ext with (P := map spike_pair fl).
  - intros x. split; apply Permutation_in; [|apply Permutation_sym]; exact Hperm.
  - rewrite <- spike_pair_fst, <- spike_pair_snd.
    apply match_index_sorted.
    + now rewrite spike_pair_fst.
    + intros E. apply Hne. apply Permutation_nil. now rewrite <- E.
Qed.

Lemma match_static_latest_strictly_before_witness :
  exists output_times output_indices,
    match_static [[0; 10]] [[0; 1]] [[]; [10]] =
      Ok (output_times, output_indices) /\
    output_times = skipn 1 [[]; [10]] /\
    Forall2 (Forall2 (matched (pooled [[0; 10]] [[0; 1]])))
            output_times output_indices.
Proof.
  apply (match_static_latest_strictly_before [[0; 10]] [[0; 1]] [[]; [10]]).
  - repeat constructor.
  - int32.
  - discriminate.
Defined.

(** C2, as stated, fails: input spikes at times 0 (sample 0) and 10
    (sample 1), one output spike at time 10.  The input spike at exactly 10 is
    the latest one at or before the output spike, but the matcher assigns
    sample 0. *)
Lemma match_static_excludes_simultaneous_input :
  match_static [[0; 10]] [[0; 1]] [[]; [10]] = Ok ([[10]], [[0]]) /\
  latest_at_or_before (pooled [[0; 10]] [[0; 1]]) 10 1 /\
  ~ latest_at_or_before (pooled [[0; 10]] [[0; 1]]) 10 0.
Proof.
  split; [reflexivity|]. split.
  - exists 10. simpl. split; [auto|]. split; [lia|].
    intros t'' k'' [E|[E|[]]]; inversion E; lia.
  - intros (t' & Hin & Hle & Hmax). simpl in Hin.
    destruct Hin as [E|[E|[]]]; inversion E; subst.
    specialize (Hmax 10 1). simpl in Hmax.
    assert (10 <= 0) by (apply Hmax; [auto|lia]). lia.
Qed.

(** C6 (amended): with at least one input unit and parallel input trains
    whose sample indices fit a signed 32-bit integer, decoding never fails.
    An output spike with no input spike strictly before it is given sample
    index 0 when there is no input spike at all, and otherwise the sample
    index of an earliest input spike (whatever that index is). *)
Theorem match_static_unpreceded_spike
    (input_times input_indices output : list (list Z)) :
  parallel input_times input_indices -> fits_int32 input_indices ->
  input_times <> [] ->
  exists output_times output_indices,
    match_static input_times input_indices output =
      Ok (output_times, output_indices) /\
    Forall2 (Forall2 (fun t r =>
               none_before (pooled input_times input_indices) t ->
               (pooled input_times input_indices = [] -> r = 0) /\
               (pooled input_times input_indices <> [] ->
                earliest (pooled input_times input_indices) r)))
            output_times output_indices.
Proof.
  intros Hpar Hfit Hne.
  destruct (match_static_parallel input_times input_indices output Hpar Hfit
              Hne) as (fl & Hperm & Hs & Hm).
  do 2 eexists. split; [exact Hm|].
  apply Forall2_map_self. intros ts _.
  apply Forall2_map_self. intros t _ Hnone. split.
  - intros E. rewrite E in Hperm. apply Permutation_sym, Permutation_nil in Hperm.
    apply map_eq_nil in Hperm. subst fl. reflexivity.
  - intros Hpool.
    assert (Hm' : matched (pooled input_times input_indices) t
                    (match_index (map sp_t fl) (map sp_k fl) t)).
    { apply matched_ext with (P := map spike_pair fl).
      - intros x. split; apply Permutation_in; [|apply Permutation_sym]; exact Hperm.
      - rewrite <- spike_pair_fst, <- spike_pair_snd.
        apply match_index_sorted.
        + now rewrite spike_pair_fst.
        + intros E. apply Hpool. apply Permutation_nil. now rewrite <- E. }
    destruct Hm' as [(t' & Hin & Hlt & _)|[_ He]]; [|exact He].
    specialize (Hnone t' _ Hin). lia.
Qed.

Lemma match_static_unpreceded_spike_witness :
  exists output_times output_indices,
    match_static [[5]] [[3]] [[]; [1]] = Ok (output_times, output_indices) /\
    Forall2 (Forall2 (fun t r =>
               none_before (pooled [[5]] [[3]]) t ->
               (pooled [[5]] [[3]] = [] -> r = 0) /\
               (pooled [[5]] [[3]] <> [] -> earliest (pooled [[5]] [[3]]) r)))
            output_times output_indices.
Proof.
  apply (match_static_unpreceded_spike [[5]] [[3]] [[]; [1]]).
  - repeat constructor.
  - int32.
  - discriminate.
Defined.

(** C6, as stated, fails: one input spike at time 5 produced by sample 3 and
    an output spike at time 1, before every input spike.  The output spike is
    given sample index 3, not 0. *)
Lemma match_static_unpreceded_spike_not_zero :
  none_before (pooled [[5]] [[3]]) 1 /\
  match_static [[5]] [[3]] [[]; [1]] = Ok ([[1]], [[3]]) /\
  3 <> 0.
Proof.
  split; [|split; [reflexivity|lia]].
  intros t'' k'' [E|[]]. inversion E. lia.
Qed.

(** ** split and build_analysis_static *)






(** ** NetworkPool *)






(** *** The default split *)

Lemma fold_left_max_ge (l : list Z) (x : Z) :
  x <= fold_left Z.max l x /\ forall y, In y l -> y <= fold_left Z.max l x.
Proof.
  revert x. induction l as [|a l IH]; intros x; simpl.
  - split; [lia|tauto].
  - destruct (IH (Z.max x a)) as [H1 H2]. split; [lia|].
    intros y [<-|Hy]; [lia|auto].
Qed.

Lemma fold_left_max_In (l : list Z) (x : Z) : In (fold_left Z.max l x) (x :: l).
Proof.
  revert x. induction l as [|a l IH]; intros x; simpl; [auto|].
  destruct (IH (Z.max x a)) as [E|Hin]; [|now right; right].
  rewrite <- E.
  destruct (Z.max_spec x a) as [[_ Em]|[_ Em]]; rewrite Em; simpl; auto.
Qed.

(** Python's [max] of a list that is not empty is its largest element. *)
Lemma py_max_spec (l : list Z) :
  l <> [] ->
  exists m, py_max l = Ok m /\ In m l /\ forall x, In x l -> x <= m.
Proof.
  destruct l as [|x l]; [congruence|]. intros _.
  eexists. split; [reflexivity|]. split; [apply fold_left_max_In|].
  destruct (fold_left_max_ge l x) as [H1 H2].
  intros y [<-|Hy]; auto.
Qed.


(** One empty index list makes the default split fail. *)
Lemma mapM_py_max_silent (l : list (list Z)) :
  In [] l -> mapM py_max l = Raise ValueError.
Proof.
  induction l as [|ks l IH]; simpl; [tauto|].
  intros [->|Hin]; [reflexivity|].
  destruct ks as [|k ks]; [reflexivity|]. cbn [py_max bind].
  now rewrite IH.
Qed.





(** ** initialize_seed / finalize_seed *)

(** C10: without a seed [initialize_seed] returns [None] and leaves the
    generator alone; with a seed it reseeds the generator with
    [(seed * (seq + 1)) mod 2^30] and returns the prior state;
    [finalize_seed] on that returned state puts the generator back to the
    state before [initialize_seed], whatever was drawn in between, and
    [finalize_seed None] changes nothing. *)
Theorem seed_save_restore `{RandomSource} (seed seq : Z) (g g' : rng_state) :
  initialize_seed None seq g = (None, g) /\
  initialize_seed (Some seed) seq g =
    (Some g, seed_state ((seed * (seq + 1)) mod 2 ^ 30)) /\
  finalize_seed (fst (initialize_seed (Some seed) seq g)) g' = g /\
  finalize_seed (fst (initialize_seed None seq g)) g' = g' /\
  finalize_seed None g' = g'.
Proof.
  unfold initialize_seed, finalize_seed. simpl. repeat split.
Qed.

(** ** build_topology *)

Lemma clamp_k_le (N : nat) (k : Z) : (clamp_k N k <= N)%nat.
Proof. unfold clamp_k. destruct ((k <? 0) || (Z.of_nat N <? k)) eqn:E; lia. Qed.

(** The first call trains the rows [0 .. k-1] in index order. *)
Lemma build_topology_first (b : NetworkBuilder) (k : Z) :
  mem b = None -> last_k b = 0%nat ->
  mem (build_topology b k) = Some (trained_up_to b (clamp_k (nb_N b) k)) /\
  last_k (build_topology b k) = clamp_k (nb_N b) k.
Proof.
  intros Hm Hl. unfold build_topology, trained_up_to. rewrite Hm, Hl. simpl.
  now rewrite Nat.sub_0_r.
Qed.

(** A call with an equal or larger [k] continues the training where the
    last call stopped. *)
Lemma build_topology_grow (b : NetworkBuilder) (k : Z) :
  mem b = Some (trained_up_to b (last_k b)) ->
  (last_k b <= clamp_k (nb_N b) k)%nat ->
  mem (build_topology b k) = Some (trained_up_to b (clamp_k (nb_N b) k)).
Proof.
  intros Hm Hle. unfold build_topology. rewrite Hm.
  set (k' := clamp_k (nb_N b) k) in *.
  assert (E : (k' <? last_k b)%nat = false) by (apply Nat.ltb_ge; lia).
  rewrite E. cbn [mem]. f_equal. unfold trained_up_to.
  rewrite <- fold_left_app, <- seq_app.
  do 2 f_equal. lia.
Qed.

(** A call with a smaller [k] resets the memory and trains nothing: the loop
    [xrange(last_k, k)] is empty because [last_k] still has its old value. *)
Lemma build_topology_shrink (b : NetworkBuilder) (k : Z) (W : BiNAM) :
  mem b = Some W -> (clamp_k (nb_N b) k < last_k b)%nat ->
  mem (build_topology b k) = Some (BiNAM_new (nb_m b) (nb_n b)).
Proof.
  intros Hm Hlt. unfold build_topology. rewrite Hm.
  apply Nat.ltb_lt in Hlt as E. rewrite E.
  replace (clamp_k (nb_N b) k - last_k b)%nat with 0%nat by lia.
  reflexivity.
Qed.

(** C7 (code defect): after training up to sample 2, asking for the topology
    trained up to sample 1 leaves the memory all zero, whereas the memory
    trained on row 0 has its only cell set. *)
Theorem build_topology_smaller_k_leaves_memory_empty :
  mem (build_topology example_builder 2) = Some [[true]] /\
  mem (build_topology (build_topology example_builder 2) 1) = Some [[false]] /\
  last_k (build_topology (build_topology example_builder 2) 1) = 1%nat /\
  trained_up_to example_builder 1 = [[true]].
Proof. repeat split. Qed.

(** ** calculate_latencies *)

(** C3 (code defect): input spikes at time 0 (sample 1) and time 10
    (sample 0); the matcher attributes the output spike at time 5 to sample
    1 and the one at time 20 to sample 0.  Sample 1 has an input and a
    matched output spike, 5 apart, but its latency is reported as infinite:
    the flat arrays are ordered by time, while the search assumes them
    ordered by sample. *)
Theorem calculate_latencies_loses_sample :
  match_static [[0; 10]] [[1; 0]] [[]; [5; 20]] = Ok ([[5; 20]], [[1; 0]]) /\
  flaten [[0; 10]] [[1; 0]] true = Ok ([0; 10], [1; 0], [0; 0]%nat) /\
  In (0, 1) (pooled [[0; 10]] [[1; 0]]) /\
  In (5, 1) (pooled [[5; 20]] [[1; 0]]) /\
  calculate_latencies (mkAnalysis [[0; 10]] [[1; 0]] [[5; 20]] [[1; 0]]) =
    Ok [Finite 10; Infinite].
Proof. repeat split; simpl; auto. Qed.

(** ** calculate_output_matrix *)

(** Counting with [incr_at]. *)
Lemma incr_at_ok (c : nat) (row : list Z) :
  (c < length row)%nat ->
  exists row', incr_at c row = Ok row' /\ length row' = length row /\
               forall j, nth j row' 0 = nth j row 0 + (if (c =? j)%nat then 1 else 0).
Proof.
  revert c. induction row as [|v row IH]; intros c Hc; simpl in Hc; [lia|].
  destruct c as [|c]; simpl.
  - eexists. split; [reflexivity|]. split; [reflexivity|].
    intros [|j]; simpl; lia.
  - destruct (IH c) as (row' & -> & Hlen & Hnth); [lia|].
    simpl. eexists. split; [reflexivity|]. split; [simpl; lia|].
    intros [|j]; simpl; [lia|]. apply Hnth.
Qed.

Lemma foldM_incr_at (cs : list nat) (row : list Z) :
  Forall (fun c => (c < length row)%nat) cs ->
  exists row', foldM (fun r c => incr_at c r) cs row = Ok row' /\
               length row' = length row /\
               forall j, nth j row' 0 =
                         nth j row 0 + Z.of_nat (length (filter (Nat.eqb j) cs)).
Proof.
  revert row. induction cs as [|c cs IH]; intros row Hall; simpl.
  - exists row. split; [reflexivity|]. split; [reflexivity|]. intros j. lia.
  - inversion Hall as [|? ? Hc Hcs]; subst.
    destruct (incr_at_ok c row Hc) as (row1 & -> & Hlen1 & Hnth1). simpl.
    destruct (IH row1) as (row' & -> & Hlen & Hnth).
    { eapply Forall_impl; [|exact Hcs]. simpl. intros. lia. }
    eexists. split; [reflexivity|]. split; [lia|].
    intros j. rewrite Hnth, Hnth1. rewrite (Nat.eqb_sym j c).
    destruct (c =? j)%nat; simpl; lia.
Qed.

Lemma foldM_map {A B S : Type} (f : S -> B -> result S) (g : A -> B)
    (l : list A) (s : S) :
  foldM (fun st a => f st (g a)) l s = foldM f (map g l) s.
Proof.
  revert s. induction l as [|a l IH]; intros s; simpl; [reflexivity|].
  destruct (f s (g a)); simpl; auto.
Qed.

Lemma nth_repeat_zero (n j : nat) : nth j (repeat 0 n) 0 = 0.
Proof.
  revert j. induction n as [|n IH]; intros [|j]; simpl; auto.
Qed.

(** The positions at which a predicate holds form the range [[i0, i1)]. *)
Lemma filter_range {A : Type} (p : A -> bool) (d : A) (l : list A) :
  forall i0 i1,
    (i0 <= i1)%nat -> (i1 <= length l)%nat ->
    (forall i, (i < length l)%nat ->
               p (nth i l d) = true <-> (i0 <= i < i1)%nat) ->
    filter p l = map (fun i => nth i l d) (seq i0 (i1 - i0)).
Proof.
  induction l as [|a l IH]; intros i0 i1 H01 H1 Hp; simpl in *.
  - replace (i1 - i0)%nat with 0%nat by lia. reflexivity.
  - destruct i0 as [|i0].
    + destruct i1 as [|i1].
      * assert (E : p a = false).
        { destruct (p a) eqn:E; [|reflexivity]. apply (Hp 0%nat) in E; lia. }
        rewrite E. rewrite (IH 0%nat 0%nat); try lia; [reflexivity|].
        intros i Hi. rewrite (Hp (S i)); lia.
      * assert (E : p a = true) by (apply (Hp 0%nat); lia).
        rewrite E. simpl. f_equal.
        rewrite (IH 0%nat i1); try lia.
        -- rewrite Nat.sub_0_r, <- seq_shift, map_map. reflexivity.
        -- intros i Hi. rewrite (Hp (S i)); lia.
    + assert (E : p a = false).
      { destruct (p a) eqn:E; [|reflexivity]. apply (Hp 0%nat) in E; lia. }
      rewrite E. destruct i1 as [|i1]; [lia|].
      rewrite (IH i0 i1); try lia.
      * simpl. rewrite <- seq_shift, map_map. reflexivity.
      * intros i Hi. rewrite (Hp (S i)); lia.
Qed.

(** In a list sorted by [key] the two bisections delimit the entries whose
    key is [k]. *)
Lemma sorted_segment {A : Type} (key : A -> Z) (d : A) (l : list A) (k : Z) :
  StronglySorted Z.le (map key l) ->
  map (fun i => nth i l d)
      (seq (bisect_left (map key l) k)
           (bisect_right (map key l) k - bisect_left (map key l) k)) =
  filter (fun a => key a =? k) l.
Proof.
  intros Hs.
  destruct (bisect_left_spec (map key l) k Hs) as (Hl1 & Hl2 & Hl3).
  destruct (bisect_right_spec (map key l) k Hs) as (Hr1 & Hr2 & Hr3).
  set (i0 := bisect_left (map key l) k) in *.
  set (i1 := bisect_right (map key l) k) in *.
  rewrite length_map in *.
  assert (Hnth : forall i, (i < length l)%nat ->
                           nth i (map key l) 0 = key (nth i l d)).
  { intros i Hi. rewrite (nth_indep _ 0 (key d)) by now rewrite length_map.
    apply map_nth. }
  assert (H01 : (i0 <= i1)%nat).
  { destruct (Nat.le_gt_cases i0 i1) as [?|Hgt]; [assumption|].
    specialize (Hl2 i1 Hgt). specialize (Hr3 i1 (Nat.le_refl _)). lia. }
  symmetry. apply filter_range; auto.
  intros i Hi. rewrite <- (Hnth i Hi). rewrite Z.eqb_eq. split.
  - intros E. split.
    + destruct (Nat.le_gt_cases i0 i) as [?|Hgt]; [assumption|].
      specialize (Hl2 i Hgt). lia.
    + destruct (Nat.lt_ge_cases i i1) as [?|Hge]; [assumption|].
      specialize (Hr3 i Hge Hi). lia.
  - intros [H0 H1]. specialize (Hl3 i H0 Hi). specialize (Hr2 i H1). lia.
Qed.

Lemma filter_length_perm {A : Type} (p : A -> bool) (l l' : list A) :
  Permutation l l' -> length (filter p l) = length (filter p l').
Proof.
  induction 1 as [|x l l' _ IH|x y l|l1 l2 l3 _ IH1 _ IH2]; simpl.
  - reflexivity.
  - destruct (p x); simpl; congruence.
  - destruct (p x), (p y); reflexivity.
  - congruence.
Qed.

Lemma filter_map_length {A B : Type} (f : A -> B) (p : B -> bool) (l : list A) :
  length (filter p (map f l)) = length (filter (fun a => p (f a)) l).
Proof.
  induction l as [|a l IH]; simpl; [reflexivity|].
  destruct (p (f a)); simpl; congruence.
Qed.

Lemma filter_filter_length {A : Type} (p q : A -> bool) (l : list A) :
  length (filter q (filter p l)) = length (filter (fun a => p a && q a) l).
Proof.
  induction l as [|a l IH]; simpl; [reflexivity|].
  destruct (p a); simpl; [destruct (q a); simpl; congruence|assumption].
Qed.

(** The flat records carry the neuron number of their unit. *)
Lemma flaten_unit_labels (i : nat) (ts ks : list Z) (fl : list spike) :
  flaten_unit i ts ks = Ok fl -> length ts = length ks ->
  Forall int32_range ks ->
  map spike_label fl = map (pair i) ks.
Proof.
  revert ks fl. induction ts as [|t ts IH]; intros [|k ks] fl H Hlen Hr;
    simpl in *; try discriminate.
  - inversion H. reflexivity.
  - inversion Hr as [|? ? Hk Hr']; subst.
    rewrite (to_int32_in_range k Hk) in H. cbn [bind] in H.
    inv_bind H. inversion H; subst. simpl. f_equal.
    apply IH; [assumption|lia|assumption].
Qed.

Lemma flaten_loop_labels (times indices : list (list Z)) :
  parallel times indices -> fits_int32 indices ->
  forall i0 fl, flaten_loop i0 times indices = Ok fl ->
                map spike_label fl = labelled i0 indices.
Proof.
  induction 1 as [|ts ks times indices Hlen Hrest IH]; intros Hfit i0 fl H;
    simpl in *.
  - inversion H. reflexivity.
  - inversion Hfit as [|? ? Hks Hfit']; subst.
    inv_bind H. inv_bind H. inversion H; subst.
    rewrite map_app. f_equal.
    + eapply flaten_unit_labels; eassumption.
    + now apply IH.
Qed.

Lemma labelled_bound (indices : list (list Z)) (u0 u : nat) (k : Z) :
  In (u, k) (labelled u0 indices) -> (u < u0 + length indices)%nat.
Proof.
  revert u0. induction indices as [|ks rest IH]; intros u0; simpl; [tauto|].
  rewrite in_app_iff, in_map_iff. intros [(k' & E & _)|Hin].
  - inversion E. lia.
  - apply IH in Hin. lia.
Qed.

(** On parallel trains of at least one unit, with sample indices that fit
    the int32 array, [flaten] with [sort_by_sample] succeeds. *)
Lemma flaten_by_sample (times indices : list (list Z)) :
  parallel times indices -> fits_int32 indices -> times <> [] ->
  exists flat,
    flaten_loop 0 times indices = Ok flat /\
    flaten times indices true =
      Ok (map sp_t (stable_sort lex_leb flat),
          map sp_k (stable_sort lex_leb flat),
          map sp_n (stable_sort lex_leb flat)).
Proof.
  intros Hpar Hfit Hne.
  destruct (flaten_loop_parallel times indices Hpar Hfit 0%nat)
    as (flat & Hfl & _).
  exists flat. split; [exact Hfl|].
  unfold flaten, flaten_spikes.
  destruct times as [|ts times]; [congruence|].
  rewrite Hfl. reflexivity.
Qed.

(** When later spikes never belong to earlier samples, the order by time
    (ties by sample) is also an order by sample. *)
Lemma lex_sorted_by_sample (fl : list spike) :
  StronglySorted (fun a b => lex_leb a b = true) fl ->
  causal_order (map spike_pair fl) ->
  StronglySorted Z.le (map sp_k fl).
Proof.
  induction 1 as [|x l Hs IH Hall]; intros Hc; simpl; constructor.
  - apply IH. intros t1 k1 t2 k2 H1 H2. apply Hc; simpl; auto.
  - rewrite Forall_map. rewrite Forall_forall in *. intros y Hy.
    specialize (Hall y Hy). unfold lex_leb in Hall.
    destruct (sp_t x <? sp_t y) eqn:E.
    + apply Z.ltb_lt in E. apply (Hc (sp_t x) (sp_k x) (sp_t y) (sp_k y)).
      * left. reflexivity.
      * right. apply in_map_iff. exists y. auto.
      * exact E.
    + simpl in Hall. lia.
Qed.

Lemma fold_left_max_zero (l : list Z) (x : Z) :
  Z.max (fold_left Z.max l x) 0 = Z.max x (fold_right Z.max 0 l).
Proof.
  revert x. induction l as [|y l IH]; intros x; simpl; [reflexivity|].
  rewrite IH. lia.
Qed.

Lemma fold_left_max_ge_init (l : list Z) (x : Z) : x <= fold_left Z.max l x.
Proof.
  revert x. induction l as [|y l IH]; intros x; simpl; [lia|].
  specialize (IH (Z.max x y)). lia.
Qed.

Lemma py_max_with_zero (ks : list Z) :
  py_max (ks ++ [0]) = Ok (fold_right Z.max 0 ks).
Proof.
  destruct ks as [|x ks]; simpl; [reflexivity|].
  rewrite fold_left_app. simpl. now rewrite fold_left_max_zero.
Qed.

Lemma fold_right_max_nonneg (l : list Z) : 0 <= fold_right Z.max 0 l.
Proof. induction l; simpl; lia. Qed.

Lemma fold_right_max_app (l1 l2 : list Z) :
  fold_right Z.max 0 (l1 ++ l2) =
  Z.max (fold_right Z.max 0 l1) (fold_right Z.max 0 l2).
Proof.
  induction l1 as [|x l1 IH]; simpl.
  - pose proof (fold_right_max_nonneg l2). lia.
  - rewrite IH. lia.
Qed.

Lemma fold_right_max_ge (l : list Z) (x : Z) : In x l -> x <= fold_right Z.max 0 l.
Proof.
  induction l as [|y l IH]; simpl; [tauto|].
  intros [->|Hin]; [lia|]. specialize (IH Hin). lia.
Qed.

(** [max(map(lambda ks: max(ks + [0]), input_indices))] *)
Lemma output_matrix_rows (indices : list (list Z)) :
  indices <> [] ->
  exists ms, mapM (fun ks => py_max (ks ++ [0])) indices = Ok ms /\
             py_max ms = Ok (max_sample indices).
Proof.
  intros Hne.
  assert (H : mapM (fun ks => py_max (ks ++ [0])) indices =
              Ok (map (fold_right Z.max 0) indices)).
  { clear Hne. induction indices as [|ks rest IH]; simpl; [reflexivity|].
    rewrite py_max_with_zero. simpl. rewrite IH. reflexivity. }
  eexists. split; [exact H|].
  destruct indices as [|ks rest]; [congruence|]. simpl. f_equal.
  unfold max_sample. simpl. rewrite fold_right_max_app.
  pose proof (fold_left_max_zero (map (fold_right Z.max 0) rest)
                (fold_right Z.max 0 ks)) as E.
  assert (Hc : fold_right Z.max 0 (map (fold_right Z.max 0) rest) =
               fold_right Z.max 0 (concat rest)).
  { clear. induction rest as [|r rest IH]; simpl; [reflexivity|].
    rewrite fold_right_max_app, IH. reflexivity. }
  rewrite Hc in E. rewrite <- E.
  assert (0 <= fold_left Z.max (map (fold_right Z.max 0) rest)
                 (fold_right Z.max 0 ks)).
  { pose proof (fold_right_max_nonneg ks).
    pose proof (fold_left_max_ge_init (map (fold_right Z.max 0) rest)
                  (fold_right Z.max 0 ks)). lia. }
  lia.
Qed.

Lemma mapM_ok {A B : Type} (f : A -> result B) (g : A -> B) (l : list A) :
  (forall a, In a l -> f a = Ok (g a)) -> mapM f l = Ok (map g l).
Proof.
  induction l as [|a l IH]; intros H; simpl; [reflexivity|].
  rewrite (H a) by (left; reflexivity). simpl.
  rewrite IH by (intros; apply H; right; assumption). reflexivity.
Qed.

Lemma zrange_In (n k : Z) : In k (zrange n) <-> 0 <= k < n.
Proof.
  unfold zrange. rewrite in_map_iff. split.
  - intros (i & <- & Hi). apply in_seq in Hi. lia.
  - intros H. exists (Z.to_nat k). split; [lia|]. apply in_seq. lia.
Qed.

Lemma zrange_nth {A : Type} (f : Z -> A) (d : A) (n k : Z) :
  0 <= k < n -> nth (Z.to_nat k) (map f (zrange n)) d = f k.
Proof.
  intros H. unfold zrange. rewrite map_map.
  rewrite (nth_indep _ d (f (Z.of_nat 0))) by (rewrite length_map, length_seq; lia).
  rewrite (map_nth (fun i => f (Z.of_nat i))), seq_nth by lia.
  simpl. f_equal. lia.
Qed.

Lemma list_eq_nth (l l' : list Z) :
  length l = length l' -> (forall j, nth j l 0 = nth j l' 0) -> l = l'.
Proof.
  intros Hlen Hnth. apply nth_ext with (d := 0) (d' := 0); auto.
Qed.

Lemma filter_none {A : Type} (p : A -> bool) (l : list A) :
  (forall a, In a l -> p a = false) -> filter p l = [].
Proof.
  induction l as [|a l IH]; intros H; simpl; [reflexivity|].
  rewrite (H a) by (left; reflexivity). apply IH. intros; apply H; now right.
Qed.

(** One row of the count matrix, when the flat sample indices are sorted. *)
Lemma output_row_counts (flat : list spike) (s n : nat) (k : Z) :
  StronglySorted Z.le (map sp_k (stable_sort lex_leb flat)) ->
  (forall sp, In sp flat -> (sp_n sp / s < n)%nat) ->
  output_row (map sp_k (stable_sort lex_leb flat))
             (map sp_n (stable_sort lex_leb flat)) s n k =
    Ok (map (fun j => Z.of_nat (length (filter
               (fun uk => (snd uk =? k) && (fst uk / s =? j)%nat)
               (map spike_label flat))))
            (seq 0 n)).
Proof.
  intros Hs Hb. set (fl := stable_sort lex_leb flat) in *.
  unfold output_row.
  rewrite (foldM_map (fun r c => incr_at c r)
             (fun i => (nth i (map sp_n fl) 0 / s)%nat)).
  assert (E : map (fun i => (nth i (map sp_n fl) 0 / s)%nat)
                  (seq (bisect_left (map sp_k fl) k)
                       (bisect_right (map sp_k fl) k - bisect_left (map sp_k fl) k)) =
              map (fun sp => (sp_n sp / s)%nat)
                  (filter (fun sp => sp_k sp =? k) fl)).
  { rewrite <- (sorted_segment sp_k (mkSpike 0 0 0) fl k Hs), map_map.
    apply map_ext. intros i.
    now rewrite (map_nth sp_n fl (mkSpike 0 0 0)). }
  rewrite E. clear E.
  destruct (foldM_incr_at
              (map (fun sp => (sp_n sp / s)%nat) (filter (fun sp => sp_k sp =? k) fl))
              (repeat 0 n)) as (row & -> & Hlen & Hnth).
  { rewrite Forall_map, repeat_length. apply Forall_forall.
    intros sp Hin. apply filter_In in Hin. apply Hb.
    apply (stable_sort_In lex_leb flat sp). apply Hin. }
  f_equal. apply list_eq_nth.
  - now rewrite Hlen, repeat_length, length_map, length_seq.
  - intros j. rewrite Hnth, nth_repeat_zero.
    destruct (Nat.lt_ge_cases j n) as [Hj|Hj].
    + rewrite (nth_indep _ 0 (Z.of_nat (length (filter
                 (fun uk => (snd uk =? k) && (fst uk / s =? 0)%nat)
                 (map spike_label flat)))))
        by (rewrite length_map, length_seq; exact Hj).
      rewrite (map_nth (fun j => Z.of_nat (length (filter
                 (fun uk => (snd uk =? k) && (fst uk / s =? j)%nat)
                 (map spike_label flat))))).
      rewrite seq_nth by exact Hj. simpl.
      rewrite filter_map_length, filter_filter_length, filter_map_length.
      rewrite (filter_length_perm _ flat fl) by apply stable_sort_perm.
      f_equal. f_equal. apply filter_ext. intros sp. simpl.
      now rewrite (Nat.eqb_sym j).
    + rewrite nth_overflow by (rewrite length_map, length_seq; exact Hj).
      rewrite filter_map_length.
      assert (Hnil : filter (fun a => (j =? sp_n a / s)%nat)
                            (filter (fun sp => sp_k sp =? k) fl) = []).
      { apply filter_none. intros sp Hin. apply filter_In in Hin.
        destruct Hin as [Hin _].
        apply (stable_sort_In lex_leb flat sp) in Hin. apply Hb in Hin.
        apply Nat.eqb_neq. lia. }
      rewrite Hnil. reflexivity.
Qed.

Lemma causal_order_ext (P P' : list (Z * Z)) :
  (forall x, In x P' -> In x P) -> causal_order P -> causal_order P'.
Proof.
  intros Hsub Hc t1 k1 t2 k2 H1 H2. apply Hc; now apply Hsub.
Qed.

(** C4 (amended): for an analysis unit with at least one input unit and at
    least one and at most 2^31 output neurons, whose output trains are
    parallel with sample indices that fit a signed 32-bit integer (sample
    indices and neuron numbers are stored in int32 arrays) and whose output
    spikes never belong to an earlier sample than an earlier output spike,
    with [s >= 1] dividing the number of output neurons, the entry at (sample [k], output unit [j]) is the number of
    matched output spikes of sample [k] on the [s] neurons of unit [j],
    divided by the burst size.  The count is not divided by the
    multiplicity. *)
Theorem output_matrix_counts (a : NetworkAnalysis) (s : nat) (b : positive) :
  parallel (a_output_times a) (a_output_indices a) ->
  fits_int32 (a_output_indices a) ->
  Z.of_nat (length (a_output_times a)) <= 2147483648 ->
  a_output_times a <> [] ->
  a_input_indices a <> [] ->
  (0 < s)%nat ->
  (length (a_output_indices a) mod s = 0)%nat ->
  causal_order (pooled (a_output_times a) (a_output_indices a)) ->
  exists M,
    calculate_output_matrix a s b = Ok M /\
    length M = Z.to_nat (max_sample (a_input_indices a) + 1) /\
    forall k j,
      0 <= k <= max_sample (a_input_indices a) ->
      (j < length (a_output_indices a) / s)%nat ->
      nth j (nth (Z.to_nat k) M []) 0%Q =
        Qmake (spike_count (a_output_indices a) s k j) b.
Proof.
  intros Hpar Hfit _ Hne Hin Hs Hmod Hc.
  destruct (flaten_by_sample _ _ Hpar Hfit Hne) as (flat & Hflat & Hfl).
  destruct (output_matrix_rows _ Hin) as (ms & Hms & Hmax).
  pose proof (flaten_loop_labels _ _ Hpar Hfit _ _ Hflat) as Hlab.
  destruct (flaten_loop_parallel _ _ Hpar Hfit 0%nat)
    as (flat' & Hflat' & Hpool).
  rewrite Hflat in Hflat'. inversion Hflat'; subst flat'. clear Hflat'.
  assert (Hsorted : StronglySorted Z.le (map sp_k (stable_sort lex_leb flat))).
  { apply lex_sorted_by_sample.
    - apply stable_sort_sorted; [apply lex_leb_total|apply lex_leb_trans].
    - apply causal_order_ext with (2 := Hc). intros x Hx.
      rewrite <- Hpool. apply in_map_iff in Hx. destruct Hx as (sp & <- & Hsp).
      apply in_map, (stable_sort_In lex_leb flat sp), Hsp. }
  assert (Hbound : forall sp, In sp flat ->
            (sp_n sp / s < length (a_output_indices a) / s)%nat).
  { intros sp Hsp.
    assert (Hl : In (spike_label sp) (labelled 0 (a_output_indices a)))
      by (rewrite <- Hlab; now apply in_map).
    apply labelled_bound in Hl. simpl in Hl.
    apply Nat.Div0.div_lt_upper_bound.
    rewrite <- (proj2 (Nat.Div0.div_exact (length (a_output_indices a)) s) Hmod).
    exact Hl. }
  set (N := max_sample (a_input_indices a) + 1).
  set (n := (length (a_output_indices a) / s)%nat) in *.
  assert (Hcalc : calculate_output_matrix a s b =
            Ok (map (map (fun c => Qmake c b))
                    (map (count_row (a_output_indices a) s) (zrange N)))).
  { unfold calculate_output_matrix. rewrite Hfl. cbn [bind].
    rewrite Hms. cbn [bind]. rewrite Hmax. cbn [bind].
    destruct (s =? 0)%nat eqn:E; [apply Nat.eqb_eq in E; lia|]. cbn [bind].
    rewrite (mapM_ok _ (count_row (a_output_indices a) s)); [reflexivity|].
    intros k _.
    rewrite (output_row_counts flat s (length (a_output_indices a) / s) k
               Hsorted Hbound).
    rewrite Hlab. reflexivity. }
  eexists. split; [exact Hcalc|]. split.
  - unfold zrange. now rewrite !length_map, length_seq.
  - intros k j Hk Hj. rewrite map_map.
    rewrite (zrange_nth _ [] N k) by (unfold N; lia).
    unfold count_row. rewrite map_map. fold n.
    rewrite (nth_indep _ 0%Q (Qmake (spike_count (a_output_indices a) s k 0) b))
      by (rewrite length_map, length_seq; exact Hj).
    rewrite (map_nth (fun j => Qmake (spike_count (a_output_indices a) s k j) b)).
    now rewrite seq_nth by exact Hj.
Qed.

Lemma output_matrix_counts_witness :
  exists M,
    calculate_output_matrix (mkAnalysis [[0]] [[0]] [[1]; [2]] [[0]; [0]]) 2 1
      = Ok M /\
    length M = Z.to_nat (max_sample [[0]] + 1) /\
    forall k j,
      0 <= k <= max_sample [[0]] ->
      (j < length [[0]; [0]] / 2)%nat ->
      nth j (nth (Z.to_nat k) M []) 0%Q =
        Qmake (spike_count [[0]; [0]] 2 k j) 1.
Proof.
  apply (output_matrix_counts (mkAnalysis [[0]] [[0]] [[1]; [2]] [[0]; [0]]) 2 1).
  - repeat constructor.
  - int32.
  - simpl. lia.
  - discriminate.
  - discriminate.
  - lia.
  - reflexivity.
  - intros t1 k1 t2 k2 H1 H2 _. simpl in H1, H2.
    destruct H1 as [E1|[E1|[]]], H2 as [E2|[E2|[]]];
      inversion E1; inversion E2; lia.
Defined.

(** C4, as stated, fails: multiplicity 2, burst size 1, one output unit
    whose two neurons each fire once for sample 0.  The entry is the count 2,
    not the count divided by the multiplicity. *)
Lemma output_matrix_not_divided_by_multiplicity :
  calculate_output_matrix (mkAnalysis [[0]] [[0]] [[1]; [2]] [[0]; [0]]) 2 1
    = Ok [[2 # 1]] /\
  spike_count [[0]; [0]] 2 0 0 = 2 /\
  ~ Qeq (2 # 1)
        (Qdiv (Qdiv (inject_Z (spike_count [[0]; [0]] 2 0 0)) (inject_Z 2))
              (inject_Z 1)).
Proof.
  split; [reflexivity|]. split; [reflexivity|].
  intros H. vm_compute in H. discriminate.
Qed.

(** ** Empty inputs *)

(** C9 (code defect): empty inputs are not handled uniformly.  Matching and
    splitting trains without spikes give empty results, and
    [calculate_output_matrix] guards its maximum with [ks + [0]]; but
    encoding zero samples raises ValueError (a [range] with step 0), the
    latencies of a unit without spikes raise ValueError (maximum of an empty
    array), the default split of such a unit raises ValueError, and without
    any input unit flattening raises TypeError. *)
Theorem empty_inputs_raise `{RandomSource} (g : rng_state) :
  match_static [[]] [[]] [[]; []] = Ok ([[]], [[]]) /\
  split [[]] [[]] 0 1 = Ok ([[]], [[]]) /\
  calculate_output_matrix silent_analysis 1 1 = Ok [[0 # 1]] /\
  build_input (new_builder 0 1 1 [] []) (-1) 0 1 [default_input] 10 g
    = Raise ValueError /\
  build_input (new_builder 1 1 1 [[true]] [[true]]) 0 0 1 [default_input] 10 g
    = Raise ValueError /\
  calculate_latencies silent_analysis = Raise ValueError /\
  build_analysis_static [[]] [[]] [[]; []] [] = Raise ValueError /\
  match_static [] [] [] = Raise TypeError.
Proof. repeat split. Qed.

(** ** The encoder *)

Lemma foldM_inv {A S : Type} (I : S -> Prop) (f : S -> A -> result S)
    (l : list A) :
  (forall st a, In a l -> I st -> exists st', f st a = Ok st' /\ I st') ->
  forall st, I st -> exists st', foldM f l st = Ok st' /\ I st'.
Proof.
  induction l as [|a l IH]; intros Hstep st Hst; simpl.
  - exists st. auto.
  - destruct (Hstep st a (or_introl eq_refl) Hst) as (st1 & -> & H1). simpl.
    apply IH; [|exact H1]. intros st0 a0 Hin. apply Hstep. now right.
Qed.

(** An invariant [I] together with a property [Q] that every step keeps
    and that the step of some element establishes. *)
Lemma foldM_inv_event {A S : Type} (I Q : S -> Prop) (f : S -> A -> result S)
    (l : list A) :
  (forall st a, In a l -> I st ->
                exists st', f st a = Ok st' /\ I st' /\ (Q st -> Q st')) ->
  forall st, I st ->
  exists st', foldM f l st = Ok st' /\ I st' /\ (Q st -> Q st') /\
              forall a0, In a0 l ->
                (forall st1 st2, I st1 -> f st1 a0 = Ok st2 -> Q st2) -> Q st'.
Proof.
  induction l as [|a l IH]; intros Hstep st Hst; simpl.
  - exists st. repeat split; auto. intros a0 [].
  - destruct (Hstep st a (or_introl eq_refl) Hst) as (st1 & E & H1 & Hkeep).
    rewrite E. simpl.
    destruct (IH (fun st0 a0 Hin => Hstep st0 a0 (or_intror Hin)) st1 H1)
      as (st' & E' & H' & Hkeep' & Hev').
    exists st'. repeat split; auto.
    intros a0 [->|Hin] Hev.
    + apply Hkeep'. exact (Hev st st1 Hst E).
    + exact (Hev' a0 Hin Hev).
Qed.

Lemma append_at_length (x : nat) (extra : list Z) (rows : list (list Z)) :
  length (append_at x extra rows) = length rows.
Proof.
  revert x. induction rows as [|r rows IH]; intros [|x]; simpl; auto.
Qed.

Lemma append_at_nth (x y : nat) (extra : list Z) (rows : list (list Z)) :
  nth y (append_at x extra rows) [] =
  if (x =? y)%nat && (x <? length rows)%nat
  then nth y rows [] ++ extra else nth y rows [].
Proof.
  revert x y. induction rows as [|r rows IH]; intros x y; simpl.
  - rewrite andb_false_r. now destruct x, y.
  - destruct x as [|x], y as [|y]; simpl; try reflexivity.
    rewrite IH. reflexivity.
Qed.

Lemma append_at_In (x y : nat) (extra : list Z) (rows : list (list Z)) (t : Z) :
  In t (nth y (append_at x extra rows) []) <->
  In t (nth y rows []) \/ (x = y /\ (x < length rows)%nat /\ In t extra).
Proof.
  rewrite append_at_nth.
  destruct (Nat.eqb_spec x y) as [E1|E1];
    destruct (Nat.ltb_spec x (length rows)) as [E2|E2]; simpl;
    rewrite ?in_app_iff; intuition (try lia).
Qed.

Lemma append_at_nth_length (x y : nat) (extra : list Z) (rows : list (list Z)) :
  length (nth y (append_at x extra rows) []) =
  (length (nth y rows []) +
   if (x =? y)%nat && (x <? length rows)%nat then length extra else 0)%nat.
Proof.
  rewrite append_at_nth. destruct ((x =? y)%nat && (x <? length rows)%nat).
  - apply length_app.
  - lia.
Qed.

Lemma fold_left_min_spec (l : list Z) (x : Z) :
  (fold_left Z.min l x = x \/ In (fold_left Z.min l x) l) /\
  fold_left Z.min l x <= x /\
  forall t, In t l -> fold_left Z.min l x <= t.
Proof.
  revert x. induction l as [|y l IH]; intros x; simpl.
  - split; [auto|]. split; [lia|tauto].
  - destruct (IH (Z.min x y)) as (Hin & Hle & Hall). split; [|split].
    + destruct Hin as [E|Hin]; [|auto].
      rewrite E. destruct (Z.min_spec x y) as [[_ ->]|[_ ->]]; auto.
    + lia.
    + intros t [->|Ht]; [lia|auto].
Qed.

Lemma py_min_spec (l : list Z) :
  l <> [] ->
  exists mt, py_min l = Ok mt /\ In mt l /\ forall t, In t l -> mt <= t.
Proof.
  destruct l as [|x l]; [congruence|]. intros _. simpl.
  destruct (fold_left_min_spec l x) as (Hin & Hle & Hall).
  eexists. split; [reflexivity|]. split.
  - destruct Hin as [->|Hin]; auto.
  - intros t [<-|Ht]; auto.
Qed.

Section Encoder.
Context `{RandomSource}.

Lemma burst_loop_length (p : InputParameters) (offs : Z) (js : list nat)
    (g : rng_state) :
  length (fst (burst_loop p offs js g)) = length js.
Proof.
  revert g. induction js as [|i js IH]; intros g; simpl; [reflexivity|].
  destruct (if 0 <? sigma_t p then normal 0 (sigma_t p) g else (0, g))
    as [jitter g1].
  specialize (IH g1). destruct (burst_loop p offs js g1) as [rest g2].
  simpl in *. now rewrite IH.
Qed.

Lemma build_spike_train_length (p : InputParameters) (offs : Z) (g : rng_state) :
  length (fst (build_spike_train p offs g)) = burst_size p.
Proof.
  unfold build_spike_train.
  destruct (if 0 <? sigma_t_offs p then normal offs (sigma_t_offs p) g
            else (offs, g)) as [offs' g0].
  pose proof (burst_loop_length p offs' (seq 0 (burst_size p)) g0) as E.
  destruct (burst_loop p offs' (seq 0 (burst_size p)) g0) as [res g1].
  simpl in *. now rewrite stable_sort_length, E, length_seq.
Qed.

(** One neuron of an active input: the train is appended to its row, the
    invariant is kept and a spike has been written. *)
Lemma enc_neuron_inv (R : nat) (p : InputParameters) (s i j : nat)
    (st : enc_state) :
  (0 < burst_size p)%nat -> (i * s + j < R)%nat -> enc_inv R st ->
  exists st', enc_neuron p s i st j = Ok st' /\ enc_inv R st' /\ enc_fired st' /\
              enc_t st' = enc_t st /\ enc_sIdx st' = enc_sIdx st.
Proof.
  intros Hb Hx (HT & HK & Hlen & Hmin). unfold enc_neuron.
  pose proof (build_spike_train_length p (enc_t st) (enc_gen st)) as Htl.
  destruct (build_spike_train p (enc_t st) (enc_gen st)) as [train g].
  simpl in Htl.
  destruct (py_min_spec train) as (mt & -> & Hmt & Hmtle).
  { intros ->. simpl in Htl. lia. }
  simpl. eexists. split; [reflexivity|].
  split; [|split; [unfold enc_fired; simpl; discriminate|split; reflexivity]].
  unfold enc_inv. cbn [enc_T enc_K enc_min_t].
  rewrite !append_at_length. split; [exact HT|]. split; [exact HK|].
  split.
  - intros x. rewrite !append_at_nth_length, HT, HK, Hlen, repeat_length, Htl.
    reflexivity.
  - split.
    + assert (Hnew : forall t, In t train ->
                In t (nth (i * s + j) (append_at (i * s + j) train (enc_T st)) [])).
      { intros t Ht. apply append_at_In. right. repeat split; [lia|exact Ht]. }
      destruct (enc_min_t st) as [m0|]; [|eauto].
      destruct Hmin as ((x & Hx0) & Hall).
      destruct (Z.min_spec m0 mt) as [[_ ->]|[_ ->]]; [|eauto].
      exists x. apply append_at_In. now left.
    + intros x t Ht. apply append_at_In in Ht.
      destruct Ht as [Ht|(_ & _ & Ht)].
      * destruct (enc_min_t st) as [m0|].
        -- destruct Hmin as (_ & Hall). specialize (Hall x t Ht). lia.
        -- rewrite Hmin in Ht. destruct Ht.
      * specialize (Hmtle t Ht). destruct (enc_min_t st); lia.
Qed.

Lemma enc_input_inv (R : nat) (X : list (list bool)) (p : InputParameters)
    (s m l i : nat) (st : enc_state) :
  (0 < burst_size p)%nat -> R = (s * m)%nat -> (i < m)%nat -> enc_inv R st ->
  exists st', enc_input X p s l st i = Ok st' /\ enc_inv R st' /\
              (enc_fired st -> enc_fired st') /\
              ((0 < s)%nat -> nth i (nth l X []) false = true -> enc_fired st').
Proof.
  intros Hb HR Hi Hinv. unfold enc_input.
  destruct (nth i (nth l X []) false).
  - destruct (foldM_inv_event (enc_inv R) enc_fired (enc_neuron p s i)
                (seq 0 s)) with (st := st)
      as (st' & E & Hinv' & Hkeep & Hev); [|exact Hinv|].
    + intros st0 j Hj H0. apply in_seq in Hj.
      destruct (enc_neuron_inv R p s i j st0 Hb) as (st1 & E & H1 & Hf & _);
        [subst R; nia|exact H0|].
      exists st1. auto.
    + exists st'. split; [exact E|]. split; [exact Hinv'|].
      split; [exact Hkeep|].
      intros Hs _. apply (Hev 0%nat); [apply in_seq; lia|].
      intros st1 st2 H1 E2.
      destruct (enc_neuron_inv R p s i 0 st1 Hb) as (st3 & E3 & _ & Hf & _);
        [subst R; nia|exact H1|].
      congruence.
  - exists st. split; [reflexivity|]. split; [exact Hinv|].
    split; [auto|]. intros _ Hf. discriminate.
Qed.

Lemma enc_sample_inv (R : nat) (X : list (list bool)) (p : InputParameters)
    (s m l : nat) (st : enc_state) :
  (0 < burst_size p)%nat -> R = (s * m)%nat -> enc_inv R st ->
  exists st', enc_sample X m p s st l = Ok st' /\ enc_inv R st' /\
              (enc_fired st -> enc_fired st') /\
              ((0 < s)%nat ->
               (exists i, (i < m)%nat /\ nth i (nth l X []) false = true) ->
               enc_fired st').
Proof.
  intros Hb HR Hinv. unfold enc_sample.
  destruct (foldM_inv_event (enc_inv R) enc_fired (enc_input X p s l)
              (seq 0 m)) with (st := st)
    as (st' & E & Hinv' & Hkeep & Hev); [|exact Hinv|].
  - intros st0 i Hi H0. apply in_seq in Hi.
    destruct (enc_input_inv R X p s m l i st0 Hb HR) as (st1 & E & H1 & Hk & _);
      [lia|exact H0|].
    exists st1. auto.
  - rewrite E. simpl. eexists. split; [reflexivity|].
    split; [exact Hinv'|]. split; [exact Hkeep|].
    intros Hs (i & Hi & Hbit). unfold enc_fired. simpl.
    apply (Hev i); [apply in_seq; lia|].
    intros st1 st2 H1 E2.
    destruct (enc_input_inv R X p s m l i st1 Hb HR Hi H1)
      as (st3 & E3 & _ & _ & Hf).
    rewrite E2 in E3. inversion E3; subst. auto.
Qed.

Lemma enc_params_inv (R : nat) (X : list (list bool)) (p : InputParameters)
    (s m k : nat) (delay : Z) (st : enc_state) :
  (0 < burst_size p)%nat -> R = (s * m)%nat -> enc_inv R st ->
  exists st', enc_params X m k s delay st p = Ok st' /\ enc_inv R st' /\
              (enc_fired st -> enc_fired st') /\
              ((0 < s)%nat ->
               (exists l i, (l < k)%nat /\ (i < m)%nat /\
                            nth i (nth l X []) false = true) ->
               enc_fired st').
Proof.
  intros Hb HR Hinv. unfold enc_params.
  destruct (foldM_inv_event (enc_inv R) enc_fired (enc_sample X m p s)
              (seq 0 k)) with (st := st)
    as (st' & E & Hinv' & Hkeep & Hev); [|exact Hinv|].
  - intros st0 l Hl H0.
    destruct (enc_sample_inv R X p s m l st0 Hb HR H0) as (st1 & E & H1 & Hk & _).
    exists st1. auto.
  - rewrite E. simpl. eexists. split; [reflexivity|].
    split; [exact Hinv'|]. split; [exact Hkeep|].
    intros Hs (l & i & Hl & Hi & Hbit). unfold enc_fired. simpl.
    apply (Hev l); [apply in_seq; lia|].
    intros st1 st2 H1 E2.
    destruct (enc_sample_inv R X p s m l st1 Hb HR H1)
      as (st3 & E3 & _ & _ & Hf).
    rewrite E2 in E3. inversion E3; subst. eauto.
Qed.

Lemma enc_all_inv (R : nat) (X : list (list bool)) (ps : list InputParameters)
    (s m k : nat) (delay : Z) (st : enc_state) :
  Forall (fun p => (0 < burst_size p)%nat) ps -> R = (s * m)%nat ->
  enc_inv R st ->
  exists st', foldM (enc_params X m k s delay) ps st = Ok st' /\ enc_inv R st' /\
              (ps <> [] -> (0 < s)%nat ->
               (exists l i, (l < k)%nat /\ (i < m)%nat /\
                            nth i (nth l X []) false = true) ->
               enc_fired st').
Proof.
  intros Hb HR Hinv. rewrite Forall_forall in Hb.
  destruct (foldM_inv_event (enc_inv R) enc_fired (enc_params X m k s delay)
              ps) with (st := st)
    as (st' & E & Hinv' & Hkeep & Hev); [|exact Hinv|].
  - intros st0 p Hp H0.
    destruct (enc_params_inv R X p s m k delay st0 (Hb p Hp) HR H0)
      as (st1 & E & H1 & Hk & _).
    exists st1. auto.
  - exists st'. split; [exact E|]. split; [exact Hinv'|].
    intros Hne Hs Hbit. destruct ps as [|p ps]; [congruence|].
    apply (Hev p); [now left|].
    intros st1 st2 H1 E2.
    destruct (enc_params_inv R X p s m k delay st1 (Hb p (or_introl eq_refl))
                HR H1) as (st3 & E3 & _ & _ & Hf).
    rewrite E2 in E3. inversion E3; subst. auto.
Qed.
End Encoder.

(** ** build_input *)

Lemma flat_map_grid {B : Type} (F : nat -> B) (s m : nat) :
  flat_map (fun i => map (fun j => F (i * s + j)%nat) (seq 0 s)) (seq 0 m) =
  map F (seq 0 (m * s)).
Proof.
  induction m as [|m IH]; [reflexivity|].
  rewrite seq_S, flat_map_app, IH. simpl. rewrite app_nil_r.
  replace (s + m * s)%nat with (m * s + s)%nat by lia.
  rewrite seq_app, map_app. f_equal. simpl.
  rewrite <- (map_map (fun j => (m * s + j)%nat) F). f_equal.
  clear. generalize (m * s)%nat as c. intros c.
  induction s as [|s IH]; [reflexivity|].
  rewrite !seq_S, map_app, IH. reflexivity.
Qed.

Lemma map_fst_combine_eq {A B : Type} (l : list A) (l' : list B) :
  length l = length l' -> map fst (combine l l') = l.
Proof.
  revert l'. induction l as [|a l IH]; intros [|b l'] Hlen; simpl in *;
    try discriminate; [reflexivity|].
  f_equal. apply IH. lia.
Qed.

Lemma combine_fst_snd {A B : Type} (r : list (A * B)) :
  combine (map fst r) (map snd r) = r.
Proof.
  induction r as [|[a b] r IH]; simpl; [reflexivity|]. now rewrite IH.
Qed.

(** One row after sorting: the (time, sample index) pairs of the row are
    permuted together, into ascending time. *)
Lemma sorted_row_spec (min_t : option Z) (time_offs : Z) (trow krow : list Z) :
  length trow = length krow ->
  let r := sorted_row min_t time_offs trow krow in
  Permutation (combine (map fst r) (map snd r))
              (combine (map (shift_time min_t time_offs) trow) krow) /\
  StronglySorted Z.le (map fst r) /\
  Permutation (map fst r) (map (shift_time min_t time_offs) trow) /\
  length (map snd r) = length (map fst r).
Proof.
  intros Hlen r. subst r. unfold sorted_row.
  set (raw := combine (map (shift_time min_t time_offs) trow) krow).
  pose proof (stable_sort_perm pair_leb raw) as Hperm.
  split; [|split; [|split]].
  - rewrite combine_fst_snd. now apply Permutation_sym.
  - apply sorted_map_key with (leb := pair_leb).
    + unfold pair_leb. intros a b. lia.
    + apply stable_sort_sorted; [apply pair_leb_total|apply pair_leb_trans].
  - rewrite <- (map_fst_combine_eq (map (shift_time min_t time_offs) trow) krow)
      by now rewrite length_map.
    apply Permutation_map, Permutation_sym, Hperm.
  - now rewrite !length_map.
Qed.

Lemma max_num_spikes_ok (X : list (list bool)) (m : nat)
    (ps : list InputParameters) :
  (0 < m)%nat -> exists v, max_num_spikes X m ps = Ok v.
Proof.
  intros Hm. unfold max_num_spikes.
  assert (E : exists mx, py_max (col_sums X m) = Ok mx).
  { unfold col_sums. destruct m as [|m]; [lia|]. simpl. eauto. }
  destruct E as (mx & E). rewrite E. generalize 0 as acc.
  induction ps as [|p ps IH]; intros acc; simpl; [eauto|].
  apply IH.
Qed.

Lemma enc_inv_init `{RandomSource} (R : nat) (g : rng_state) :
  enc_inv R (mkEnc (repeat [] R) (repeat [] R) None 0 0 g).
Proof.
  unfold enc_inv. simpl. rewrite repeat_length.
  assert (E : forall x, nth x (repeat (@nil Z) R) [] = []).
  { intros x. destruct (Nat.lt_ge_cases x R).
    - now apply nth_repeat_lt.
    - apply nth_overflow. now rewrite repeat_length. }
  repeat split; auto.
Qed.

Section BuildInput.
Context `{RandomSource}.

(** The result of [build_input] in terms of the filled matrices. *)
Lemma build_input_rows (b : NetworkBuilder) (k time_offs : Z) (s : nat)
    (ps : list InputParameters) (delay : Z) (g : rng_state) (st : enc_state) :
  (0 < nb_m b)%nat -> (0 < clamp_k (nb_N b) k)%nat ->
  fill_matrices (mat_in b) (nb_m b) (clamp_k (nb_N b) k) s ps delay g = Ok st ->
  build_input b k time_offs s ps delay g =
    Ok (mkEncoded
          (map (fun x => map fst (out_row st time_offs x)) (seq 0 (nb_m b * s)))
          (map (fun x => map snd (out_row st time_offs x)) (seq 0 (nb_m b * s)))
          (map (fun q => Z.of_nat (clamp_k (nb_N b) k * (q + 1)))
               (seq 0 (length ps)))
          (enc_gen st)).
Proof.
  intros Hm Hk Hfill. unfold build_input.
  destruct (max_num_spikes_ok (mat_in b) (nb_m b) ps Hm) as (v & ->).
  cbn [bind]. rewrite Hfill. cbn [bind].
  unfold input_split_of.
  destruct (clamp_k (nb_N b) k =? 0)%nat eqn:E;
    [apply Nat.eqb_eq in E; lia|].
  cbn [bind]. f_equal.
  rewrite (flat_map_grid
             (fun x => sorted_row (enc_min_t st) time_offs
                         (nth x (enc_T st) []) (nth x (enc_K st) []))).
  rewrite !map_map. reflexivity.
Qed.

Lemma nth_map_seq {B : Type} (F : nat -> list B) (n x : nat) :
  (x < n)%nat -> nth x (map F (seq 0 n)) [] = F x.
Proof.
  intros Hx. rewrite (nth_indep _ [] (F 0%nat)) by now rewrite length_map, length_seq.
  now rewrite (map_nth F), seq_nth.
Qed.

End BuildInput.


(** ** Encoding without jitter, then matching *)

Lemma combine_app_eq {A B : Type} (l1 l2 : list A) (k1 k2 : list B) :
  length l1 = length k1 ->
  combine (l1 ++ l2) (k1 ++ k2) = combine l1 k1 ++ combine l2 k2.
Proof.
  revert k1. induction l1 as [|a l1 IH]; intros [|b k1] Hlen; simpl in *;
    try discriminate; [reflexivity|].
  f_equal. apply IH. lia.
Qed.

Lemma In_combine_repeat (l : list Z) (k : Z) (n : nat) (t k' : Z) :
  In (t, k') (combine l (repeat k n)) -> In t l /\ k' = k.
Proof.
  intros Hin. split.
  - eapply in_combine_l, Hin.
  - apply in_combine_r in Hin. eapply repeat_spec, Hin.
Qed.

Section JitterFree.
Context `{RandomSource}.

Lemma burst_loop_jitter_free (p : InputParameters) (offs : Z) (js : list nat)
    (g : rng_state) :
  sigma_t p = 0 ->
  burst_loop p offs js g =
    (map (fun i => offs + Z.of_nat i * isi p + 0) js, g).
Proof.
  intros Hs. induction js as [|i js IH]; simpl; [reflexivity|].
  rewrite Hs. simpl. rewrite IH. reflexivity.
Qed.

Lemma build_spike_train_jitter_free (p : InputParameters) (offs : Z)
    (g : rng_state) (t : Z) :
  sigma_t p = 0 -> sigma_t_offs p = 0 ->
  In t (fst (build_spike_train p offs g)) ->
  exists i, (i < burst_size p)%nat /\ t = offs + Z.of_nat i * isi p.
Proof.
  intros Hs Ho. unfold build_spike_train. rewrite Ho. simpl.
  rewrite (burst_loop_jitter_free p offs _ g Hs). simpl.
  intros Hin. apply (proj1 (stable_sort_In Z.leb _ _)) in Hin.
  apply in_map_iff in Hin. destruct Hin as (i & <- & Hi).
  apply in_seq in Hi. exists i. split; lia.
Qed.

(** The pairs written into a row by one step of [enc_neuron]. *)
Lemma written_append (st : enc_state) (x y : nat) (train ks : list Z)
    (mt : option Z) (g : rng_state) (t k : Z) :
  (forall z, length (nth z (enc_T st) []) = length (nth z (enc_K st) [])) ->
  length (enc_T st) = length (enc_K st) ->
  In (t, k) (written (mkEnc (append_at x train (enc_T st))
                            (append_at x ks (enc_K st))
                            mt (enc_t st) (enc_sIdx st) g) y) ->
  In (t, k) (written st y) \/ In (t, k) (combine train ks).
Proof.
  intros Hlen HTK. unfold written. cbn [enc_T enc_K].
  rewrite !append_at_nth, <- HTK.
  destruct ((x =? y)%nat && (x <? length (enc_T st))%nat); [|auto].
  rewrite combine_app_eq by apply Hlen.
  apply in_app_or.
Qed.

Lemma enc_neuron_mono (R : nat) (p : InputParameters) (s i j : nat)
    (st : enc_state) :
  fits_window p -> (i * s + j < R)%nat ->
  enc_inv R st -> mono_inv (time_window p) st ->
  exists st', enc_neuron p s i st j = Ok st' /\ enc_inv R st' /\
              mono_inv (time_window p) st' /\
              enc_t st' = enc_t st /\ enc_sIdx st' = enc_sIdx st.
Proof.
  intros (Hst & Hso & Hb & Hisi & Hfit) Hx Hinv (Hwin & Hmono).
  destruct (enc_neuron_inv R p s i j st Hb Hx Hinv) as (st' & E & Hinv' & _ & Ht & Hk).
  exists st'. split; [exact E|]. split; [exact Hinv'|].
  split; [|split; assumption].
  destruct Hinv as (HT & HK & Hlen & _).
  unfold enc_neuron in E.
  pose proof (build_spike_train_jitter_free p (enc_t st) (enc_gen st)) as Htrain.
  destruct (build_spike_train p (enc_t st) (enc_gen st)) as [train g].
  simpl in Htrain.
  destruct (py_min train) as [mt|e]; [|discriminate]. simpl in E.
  inversion E; subst st'; clear E.
  assert (Hnew : forall t k, In (t, k) (combine train
                   (repeat (enc_sIdx st) (burst_size p))) ->
                 k = enc_sIdx st /\ enc_t st <= t < enc_t st + time_window p).
  { intros t k Hin. apply In_combine_repeat in Hin. destruct Hin as (Hin & ->).
    destruct (Htrain t Hst Hso Hin) as (c & Hc & ->).
    split; [reflexivity|]. nia. }
  assert (Hcase : forall y t k,
            In (t, k) (written (mkEnc
               (append_at (i * s + j) train (enc_T st))
               (append_at (i * s + j) (repeat (enc_sIdx st) (burst_size p))
                  (enc_K st))
               (Some match enc_min_t st with
                     | Some m0 => Z.min m0 mt
                     | None => mt
                     end) (enc_t st) (enc_sIdx st) g) y) ->
            In (t, k) (written st y) \/
            (k = enc_sIdx st /\ enc_t st <= t < enc_t st + time_window p)).
  { intros y t k Hin. apply written_append in Hin; [|exact Hlen|congruence].
    destruct Hin as [Hin|Hin]; [now left|right; now apply Hnew]. }
  split.
  - intros y t k Hin. cbn [enc_t enc_sIdx].
    destruct (Hcase y t k Hin) as [Hold|Hn]; [apply (Hwin y), Hold|now right].
  - intros x1 t1 k1 x2 t2 k2 H1 H2 Hlt.
    destruct (Hcase x1 t1 k1 H1) as [Ho1|(-> & Hr1)];
      destruct (Hcase x2 t2 k2 H2) as [Ho2|(-> & Hr2)].
    + eapply Hmono; eassumption.
    + destruct (Hwin x1 t1 k1 Ho1) as [(_ & Hb1)|(-> & _)]; lia.
    + destruct (Hwin x2 t2 k2 Ho2) as [(Hb2 & _)|(-> & _)]; lia.
    + lia.
Qed.

Lemma enc_input_mono (R : nat) (X : list (list bool)) (p : InputParameters)
    (s m l i : nat) (st : enc_state) :
  fits_window p -> R = (s * m)%nat -> (i < m)%nat ->
  enc_inv R st -> mono_inv (time_window p) st ->
  exists st', enc_input X p s l st i = Ok st' /\ enc_inv R st' /\
              mono_inv (time_window p) st' /\
              enc_t st' = enc_t st /\ enc_sIdx st' = enc_sIdx st.
Proof.
  intros Hfit HR Hi Hinv Hmono. unfold enc_input.
  destruct (nth i (nth l X []) false); [|exists st; auto].
  apply (foldM_inv (fun st' => enc_inv R st' /\ mono_inv (time_window p) st' /\
                               enc_t st' = enc_t st /\ enc_sIdx st' = enc_sIdx st));
    [|auto].
  intros st0 j Hj (H0 & M0 & Et & Ek). apply in_seq in Hj.
  destruct (enc_neuron_mono R p s i j st0 Hfit) as (st1 & E & H1 & M1 & Et1 & Ek1);
    [subst R; nia|exact H0|exact M0|].
  exists st1. split; [exact E|]. split; [exact H1|]. split; [exact M1|].
  split; congruence.
Qed.

Lemma mono_inv_weaken (w : Z) (st : enc_state) :
  mono_inv 0 st -> mono_inv w st.
Proof.
  intros (Hwin & Hmono). split; [|exact Hmono].
  intros x t k Hin. destruct (Hwin x t k Hin) as [Hl|(_ & Hr)]; [now left|lia].
Qed.

Lemma enc_sample_mono (R : nat) (X : list (list bool)) (p : InputParameters)
    (s m l : nat) (st : enc_state) :
  fits_window p -> R = (s * m)%nat -> enc_inv R st -> mono_inv 0 st ->
  exists st', enc_sample X m p s st l = Ok st' /\ enc_inv R st' /\ mono_inv 0 st'.
Proof.
  intros Hfit HR Hinv Hmono. unfold enc_sample.
  destruct (foldM_inv
              (fun st' => enc_inv R st' /\ mono_inv (time_window p) st' /\
                          enc_t st' = enc_t st /\ enc_sIdx st' = enc_sIdx st)
              (enc_input X p s l) (seq 0 m)) with (st := st)
    as (st' & E & Hinv' & (Hwin & Hm) & Et & Ek).
  - intros st0 i Hi (H0 & M0 & Et & Ek). apply in_seq in Hi.
    destruct (enc_input_mono R X p s m l i st0 Hfit HR)
      as (st1 & E & H1 & M1 & Et1 & Ek1); [lia|exact H0|exact M0|].
    exists st1. split; [exact E|]. split; [exact H1|]. split; [exact M1|].
    split; congruence.
  - split; [exact Hinv|]. split; [now apply mono_inv_weaken|].
    split; reflexivity.
  - rewrite E. simpl. eexists. split; [reflexivity|].
    split; [exact Hinv'|].
    destruct Hfit as (_ & _ & Hb & Hisi & Hfit).
    assert (0 < time_window p) by nia.
    split; [|exact Hm].
    intros x t k Hin. left. cbn [enc_t enc_sIdx].
    destruct (Hwin x t k Hin) as [(Hk & Ht)|(-> & Ht)]; lia.
Qed.

Lemma enc_params_mono (R : nat) (X : list (list bool)) (p : InputParameters)
    (s m k : nat) (delay : Z) (st : enc_state) :
  fits_window p -> 0 <= delay -> R = (s * m)%nat ->
  enc_inv R st -> mono_inv 0 st ->
  exists st', enc_params X m k s delay st p = Ok st' /\ enc_inv R st' /\
              mono_inv 0 st'.
Proof.
  intros Hfit Hd HR Hinv Hmono. unfold enc_params.
  destruct (foldM_inv (fun st' => enc_inv R st' /\ mono_inv 0 st')
              (enc_sample X m p s) (seq 0 k)) with (st := st)
    as (st' & E & Hinv' & Hwin & Hm); [|auto|].
  - intros st0 l _ (H0 & M0).
    destruct (enc_sample_mono R X p s m l st0 Hfit HR H0 M0)
      as (st1 & E & H1 & M1).
    exists st1. auto.
  - rewrite E. simpl. eexists. split; [reflexivity|].
    split; [exact Hinv'|].
    destruct Hfit as (_ & _ & Hb & Hisi & Hfit).
    assert (0 < time_window p) by nia.
    assert (0 <= time_window p * delay) by nia.
    split; [|exact Hm].
    intros x t k0 Hin. left. cbn [enc_t enc_sIdx].
    destruct (Hwin x t k0 Hin) as [(Hk & Ht)|(_ & Ht)]; lia.
Qed.

Lemma fill_matrices_mono (X : list (list bool)) (ps : list InputParameters)
    (s m k : nat) (delay : Z) (g : rng_state) :
  Forall fits_window ps -> 0 <= delay ->
  exists st, fill_matrices X m k s ps delay g = Ok st /\
             enc_inv (s * m) st /\ mono_inv 0 st.
Proof.
  intros Hfit Hd. rewrite Forall_forall in Hfit. unfold fill_matrices.
  apply (foldM_inv (fun st' => enc_inv (s * m) st' /\ mono_inv 0 st')).
  - intros st0 p Hp (H0 & M0).
    destruct (enc_params_mono (s * m) X p s m k delay st0 (Hfit p Hp) Hd
                eq_refl H0 M0) as (st1 & E & H1 & M1).
    exists st1. auto.
  - split; [apply enc_inv_init|].
    assert (E : forall x, written (mkEnc (repeat [] (s * m)%nat)
                            (repeat [] (s * m)%nat) None 0 0 g) x = []).
    { intros x. unfold written. simpl.
      destruct (Nat.lt_ge_cases x (s * m)).
      - now rewrite nth_repeat_lt.
      - rewrite nth_overflow by now rewrite repeat_length. reflexivity. }
    split.
    + intros x t k0 Hin. rewrite E in Hin. destruct Hin.
    + intros x1 t1 k1 x2 t2 k2 Hin. rewrite E in Hin. destruct Hin.
Qed.
End JitterFree.

(** What a look-up recovers when later samples spike strictly later. *)
Lemma roundtrip_index (P : list (Z * Z)) (t k r : Z) :
  sample_monotone P -> In (t, k) P -> matched P t r ->
  (r = k <-> has_earlier_same P t k \/ none_before P t) /\ r <= k.
Proof.
  intros Hmono Hin [(t' & Hin' & Hlt & Hmax)|(Hnone & t0 & Hin0 & Hmin)].
  - assert (Hle : r <= k).
    { destruct (Z.le_gt_cases r k) as [?|Hgt]; [assumption|].
      pose proof (Hmono t k t' r Hin Hin' ltac:(lia)). lia. }
    split; [|exact Hle]. split.
    + intros ->. left. exists t'. auto.
    + intros [(t1 & Hin1 & Hlt1)|Hnone].
      * destruct (Z.eq_dec r k) as [?|Hne]; [assumption|].
        pose proof (Hmono t' r t1 k Hin' Hin1 ltac:(lia)).
        pose proof (Hmax t1 k Hin1 Hlt1). lia.
      * pose proof (Hnone t' r Hin'). lia.
  - assert (Ht0 : t0 = t).
    { pose proof (Hnone t0 r Hin0). pose proof (Hmin t k Hin). lia. }
    subst t0.
    assert (E : r = k).
    { destruct (Z.lt_trichotomy r k) as [Hlt|[?|Hgt]]; [|assumption|].
      - pose proof (Hmono t r t k Hin0 Hin Hlt). lia.
      - pose proof (Hmono t k t r Hin Hin0 ltac:(lia)). lia. }
    split; [|lia]. split; [auto|intros _; exact E].
Qed.

Lemma In_combine_map (f : Z -> Z) (l l' : list Z) (t k : Z) :
  In (t, k) (combine (map f l) l') ->
  exists t0, t = f t0 /\ In (t0, k) (combine l l').
Proof.
  revert l'. induction l as [|a l IH]; intros [|b l']; simpl; try tauto.
  intros [E|Hin].
  - inversion E; subst. exists a. auto.
  - destruct (IH l' Hin) as (t0 & -> & Hin0). exists t0. auto.
Qed.

Lemma pooled_of_rows {A : Type} (F : A -> list (Z * Z)) (l : list A) :
  pooled (map (fun x => map fst (F x)) l) (map (fun x => map snd (F x)) l) =
  concat (map F l) /\
  unit_spikes (map (fun x => map fst (F x)) l) (map (fun x => map snd (F x)) l) =
  map F l.
Proof.
  unfold pooled, unit_spikes.
  assert (E : map (fun p => combine (fst p) (snd p))
                  (combine (map (fun x => map fst (F x)) l)
                           (map (fun x => map snd (F x)) l)) = map F l).
  { induction l as [|a l IH]; simpl; [reflexivity|].
    now rewrite combine_fst_snd, IH. }
  now rewrite E.
Qed.

Lemma Forall2_map_both {A B C : Type} (R : B -> C -> Prop) (f : A -> B)
    (g : A -> C) (l : list A) :
  (forall a, In a l -> R (f a) (g a)) -> Forall2 R (map f l) (map g l).
Proof.
  induction l as [|a l IH]; simpl; intros Hl; constructor; auto.
Qed.

Lemma parallel_of_rows {A : Type} (F : A -> list (Z * Z)) (l : list A) :
  parallel (map (fun x => map fst (F x)) l) (map (fun x => map snd (F x)) l).
Proof.
  induction l as [|a l IH]; simpl; constructor; [|exact IH].
  now rewrite !length_map.
Qed.

(** ** The ranges of the encoder: sample indices and times *)

Lemma foldM_preserves {A S : Type} (P : S -> Prop) (f : S -> A -> result S)
    (l : list A) :
  (forall st a st', In a l -> f st a = Ok st' -> P st -> P st') ->
  forall st st', foldM f l st = Ok st' -> P st -> P st'.
Proof.
  induction l as [|a l IH]; intros Hstep st st' E HP; simpl in E.
  - inversion E; subst. exact HP.
  - destruct (f st a) as [st1|e] eqn:E1; [|discriminate]. simpl in E.
    apply (IH (fun st0 a0 st2 Hin => Hstep st0 a0 st2 (or_intror Hin)) st1 st' E).
    exact (Hstep st a st1 (or_introl eq_refl) E1 HP).
Qed.

(** A loop whose step for [a] advances a counter by [d a]. *)
Lemma foldM_sums {A S : Type} (R : Z -> S -> Prop) (d : A -> Z)
    (f : S -> A -> result S) (l : list A) :
  (forall st a st' c, In a l -> f st a = Ok st' -> R c st -> R (c + d a) st') ->
  forall st st' c, foldM f l st = Ok st' -> R c st ->
                   R (c + fold_right (fun a acc => d a + acc) 0 l) st'.
Proof.
  induction l as [|a l IH]; intros Hstep st st' c E HR.
  - simpl in E. injection E as <-. simpl. now rewrite Z.add_0_r.
  - cbn [foldM] in E. destruct (f st a) as [st1|e] eqn:E1; [|discriminate].
    cbn [bind] in E. cbn [fold_right].
    replace (c + (d a + fold_right (fun a0 acc => d a0 + acc) 0 l))
      with ((c + d a) + fold_right (fun a0 acc => d a0 + acc) 0 l) by lia.
    apply (IH (fun st0 a0 st2 c0 Hin => Hstep st0 a0 st2 c0 (or_intror Hin))
              st1 st' (c + d a) E).
    exact (Hstep st a st1 c (or_introl eq_refl) E1 HR).
Qed.

Lemma fold_right_const {A : Type} (d : Z) (l : list A) :
  fold_right (fun _ acc => d + acc) 0 l = d * Z.of_nat (length l).
Proof.
  induction l as [|a l IH]; [simpl; lia|].
  cbn [fold_right length]. rewrite IH. lia.
Qed.

Section EncoderRanges.
Context `{RandomSource}.

Lemma enc_neuron_indices (p : InputParameters) (s i j : nat) (c : Z)
    (st st' : enc_state) :
  enc_neuron p s i st j = Ok st' ->
  counted (c + 1) c st -> counted (c + 1) c st'.
Proof.
  intros E (Hc & H0 & Hb). unfold enc_neuron in E.
  destruct (build_spike_train p (enc_t st) (enc_gen st)) as [train g1].
  destruct (py_min train) as [mt|e]; [|discriminate].
  simpl in E. injection E as <-. unfold counted, indices_below.
  cbn [enc_sIdx enc_K].
  split; [exact Hc|]. split; [exact H0|].
  intros x k Hin. apply append_at_In in Hin.
  destruct Hin as [Hin|(_ & _ & Hin)].
  - exact (Hb x k Hin).
  - apply repeat_spec in Hin. lia.
Qed.

Lemma enc_input_indices (X : list (list bool)) (p : InputParameters)
    (s l i : nat) (c : Z) (st st' : enc_state) :
  enc_input X p s l st i = Ok st' ->
  counted (c + 1) c st -> counted (c + 1) c st'.
Proof.
  intros E Hst. unfold enc_input in E.
  destruct (nth i (nth l X []) false).
  - apply (foldM_preserves (counted (c + 1) c) _ _
             (fun st0 j st1 _ E0 => enc_neuron_indices p s i j c st0 st1 E0)
             st st' E Hst).
  - injection E as <-. exact Hst.
Qed.

Lemma enc_sample_indices (X : list (list bool)) (m : nat) (p : InputParameters)
    (s l : nat) (c : Z) (st st' : enc_state) :
  enc_sample X m p s st l = Ok st' ->
  counted c c st -> counted (c + 1) (c + 1) st'.
Proof.
  intros E (Hc & H0 & Hb). unfold enc_sample in E.
  destruct (foldM (enc_input X p s l) (seq 0 m) st) as [st1|e] eqn:E1;
    [|discriminate].
  simpl in E. injection E as <-.
  assert (H1 : counted (c + 1) c st1).
  { apply (foldM_preserves (counted (c + 1) c) _ _
             (fun st0 i st2 _ E0 => enc_input_indices X p s l i c st0 st2 E0)
             st st1 E1).
    split; [exact Hc|]. split; [exact H0|].
    intros x k Hin. specialize (Hb x k Hin). lia. }
  destruct H1 as (Hc1 & _ & Hb1). unfold counted, indices_below.
  cbn [enc_sIdx enc_K]. split; [lia|]. split; [lia|exact Hb1].
Qed.

Lemma enc_params_indices (X : list (list bool)) (m k s : nat) (delay : Z)
    (p : InputParameters) (c : Z) (st st' : enc_state) :
  enc_params X m k s delay st p = Ok st' ->
  counted c c st -> counted (c + Z.of_nat k) (c + Z.of_nat k) st'.
Proof.
  intros E Hst. unfold enc_params in E.
  destruct (foldM (enc_sample X m p s) (seq 0 k) st) as [st1|e] eqn:E1;
    [|discriminate].
  simpl in E. injection E as <-.
  pose proof (foldM_sums (fun c st => counted c c st) (fun _ => 1) _ (seq 0 k)
                (fun st0 l st2 c0 _ E0 =>
                   enc_sample_indices X m p s l c0 st0 st2 E0)
                st st1 c E1 Hst) as H1.
  cbv beta in H1. rewrite fold_right_const, length_seq, Z.mul_1_l in H1.
  destruct H1 as (Hc1 & H01 & Hb1). unfold counted, indices_below.
  cbn [enc_sIdx enc_K]. auto.
Qed.

(** The sample indices run from 0 to [k * len(input_params) - 1]. *)
Lemma fill_matrices_indices (X : list (list bool)) (m k s : nat)
    (ps : list InputParameters) (delay : Z) (g : rng_state) (st : enc_state) :
  fill_matrices X m k s ps delay g = Ok st ->
  indices_below (Z.of_nat k * Z.of_nat (length ps)) st.
Proof.
  intros E. unfold fill_matrices in E.
  pose proof (foldM_sums (fun c st => counted c c st) (fun _ => Z.of_nat k) _ ps
                (fun st0 p st2 c0 _ E0 =>
                   enc_params_indices X m k s delay p c0 st0 st2 E0)
                _ st 0 E) as H1.
  cbv beta in H1. rewrite fold_right_const in H1. simpl in H1. apply H1.
  split; [reflexivity|]. split; [lia|].
  intros x k0 Hin. cbn [enc_K] in Hin.
  assert (Hnil : nth x (repeat (@nil Z) (s * m)) [] = []).
  { destruct (Nat.lt_ge_cases x (s * m)).
    - now apply nth_repeat_lt.
    - apply nth_overflow. now rewrite repeat_length. }
  rewrite Hnil in Hin. destruct Hin.
Qed.

Lemma fits_window_positive (p : InputParameters) :
  fits_window p -> 0 < time_window p.
Proof. intros (_ & _ & Hb & Hisi & Hw). nia. Qed.

Lemma enc_neuron_timed (p : InputParameters) (s i j : nat) (c : Z)
    (st st' : enc_state) :
  fits_window p -> enc_neuron p s i st j = Ok st' ->
  timed (c + time_window p) c st -> timed (c + time_window p) c st'.
Proof.
  intros Hfit E (Hc & H0 & Hb & Hmin). unfold enc_neuron in E.
  pose proof (build_spike_train_jitter_free p (enc_t st) (enc_gen st)) as Hj.
  destruct (build_spike_train p (enc_t st) (enc_gen st)) as [train g1].
  cbn [fst] in Hj.
  destruct Hfit as (Hs & Ho & Hbs & Hisi & Hw).
  assert (Htrain : forall v, In v train -> c <= v < c + time_window p).
  { intros v Hv. destruct (Hj v Hs Ho Hv) as (q & Hq & ->). rewrite Hc. nia. }
  destruct (py_min train) as [mt|e] eqn:Emt; [|discriminate].
  assert (Hmt : In mt train).
  { destruct train as [|a train]; [discriminate|].
    destruct (py_min_spec (a :: train)) as (mt' & Emt' & Hin & _);
      [discriminate|].
    rewrite Emt in Emt'. injection Emt' as <-. exact Hin. }
  simpl in E. injection E as <-. unfold timed. cbn [enc_t enc_T enc_min_t].
  split; [exact Hc|]. split; [exact H0|]. split.
  - intros x v Hin. apply append_at_In in Hin.
    destruct Hin as [Hin|(_ & _ & Hin)].
    + exact (Hb x v Hin).
    + specialize (Htrain v Hin). lia.
  - intros m1 Em. specialize (Htrain mt Hmt).
    destruct (enc_min_t st) as [m0|] eqn:E0.
    + specialize (Hmin m0 eq_refl). injection Em as <-. lia.
    + injection Em as <-. lia.
Qed.

Lemma enc_input_timed (X : list (list bool)) (p : InputParameters)
    (s l i : nat) (c : Z) (st st' : enc_state) :
  fits_window p -> enc_input X p s l st i = Ok st' ->
  timed (c + time_window p) c st -> timed (c + time_window p) c st'.
Proof.
  intros Hfit E Hst. unfold enc_input in E.
  destruct (nth i (nth l X []) false).
  - apply (foldM_preserves (timed (c + time_window p) c) _ _
             (fun st0 j st1 _ E0 => enc_neuron_timed p s i j c st0 st1 Hfit E0)
             st st' E Hst).
  - injection E as <-. exact Hst.
Qed.

Lemma enc_sample_timed (X : list (list bool)) (m : nat) (p : InputParameters)
    (s l : nat) (c : Z) (st st' : enc_state) :
  fits_window p -> enc_sample X m p s st l = Ok st' ->
  timed c c st -> timed (c + time_window p) (c + time_window p) st'.
Proof.
  intros Hfit E (Hc & H0 & Hb & Hmin). unfold enc_sample in E.
  pose proof (fits_window_positive p Hfit) as Hw.
  destruct (foldM (enc_input X p s l) (seq 0 m) st) as [st1|e] eqn:E1;
    [|discriminate].
  simpl in E. injection E as <-.
  assert (H1 : timed (c + time_window p) c st1).
  { apply (foldM_preserves (timed (c + time_window p) c) _ _
             (fun st0 i st2 _ E0 => enc_input_timed X p s l i c st0 st2 Hfit E0)
             st st1 E1).
    split; [exact Hc|]. split; [exact H0|]. split; [|exact Hmin].
    intros x v Hin. specialize (Hb x v Hin). lia. }
  destruct H1 as (Hc1 & _ & Hb1 & Hmin1). unfold timed.
  cbn [enc_t enc_T enc_min_t]. split; [lia|]. split; [lia|]. auto.
Qed.

Lemma enc_params_timed (X : list (list bool)) (m k s : nat) (delay : Z)
    (p : InputParameters) (c : Z) (st st' : enc_state) :
  fits_window p -> 0 <= delay -> enc_params X m k s delay st p = Ok st' ->
  timed c c st ->
  timed (c + (Z.of_nat k * time_window p + time_window p * delay))
        (c + (Z.of_nat k * time_window p + time_window p * delay)) st'.
Proof.
  intros Hfit Hd E Hst. unfold enc_params in E.
  pose proof (fits_window_positive p Hfit) as Hw.
  destruct (foldM (enc_sample X m p s) (seq 0 k) st) as [st1|e] eqn:E1;
    [|discriminate].
  simpl in E. injection E as <-.
  pose proof (foldM_sums (fun c st => timed c c st) (fun _ => time_window p) _
                (seq 0 k)
                (fun st0 l st2 c0 _ E0 =>
                   enc_sample_timed X m p s l c0 st0 st2 Hfit E0)
                st st1 c E1 Hst) as H1.
  cbv beta in H1. rewrite fold_right_const, length_seq in H1.
  destruct H1 as (Hc1 & H01 & Hb1 & Hmin1). unfold timed.
  cbn [enc_t enc_T enc_min_t]. split; [lia|]. split; [nia|].
  split; [|exact Hmin1].
  intros x v Hin. specialize (Hb1 x v Hin). nia.
Qed.

(** Without jitter every time written into [T] lies in the span of the
    encoding, and so does [min_t]. *)
Lemma fill_matrices_timed (X : list (list bool)) (m k s : nat)
    (ps : list InputParameters) (delay : Z) (g : rng_state) (st : enc_state) :
  Forall fits_window ps -> 0 <= delay ->
  fill_matrices X m k s ps delay g = Ok st ->
  timed (total_time k ps delay) (total_time k ps delay) st.
Proof.
  intros Hfit Hd E. unfold fill_matrices in E. rewrite Forall_forall in Hfit.
  pose proof (foldM_sums (fun c st => timed c c st)
                (fun p => Z.of_nat k * time_window p + time_window p * delay)
                _ ps
                (fun st0 p st2 c0 Hp E0 =>
                   enc_params_timed X m k s delay p c0 st0 st2 (Hfit p Hp) Hd E0)
                _ st 0 E) as H1.
  simpl in H1. apply H1.
  split; [reflexivity|]. split; [lia|]. split; [|discriminate].
  intros x v Hin. cbn [enc_T] in Hin.
  assert (Hnil : nth x (repeat (@nil Z) (s * m)) [] = []).
  { destruct (Nat.lt_ge_cases x (s * m)).
    - now apply nth_repeat_lt.
    - apply nth_overflow. now rewrite repeat_length. }
  rewrite Hnil in Hin. destruct Hin.
Qed.
End EncoderRanges.

Section RoundTrip.
Context `{RandomSource}.

Lemma out_row_written (st : enc_state) (time_offs : Z) (x : nat) (t k : Z) :
  In (t, k) (out_row st time_offs x) ->
  exists t0, t = shift_time (enc_min_t st) time_offs t0 /\
             In (t0, k) (written st x).
Proof.
  unfold out_row, sorted_row, written. intros Hin.
  apply (proj1 (stable_sort_In pair_leb _ _)) in Hin.
  now apply In_combine_map.
Qed.

Lemma shift_time_lt (mt : option Z) (time_offs a c : Z) :
  a < c -> shift_time mt time_offs a < shift_time mt time_offs c.
Proof. unfold shift_time. destruct mt; lia. Qed.

(** C1 (amended): with jitter disabled, bursts that fit into their time
    window, a span of the encoding and a start time that stay within the
    integers binary64 holds exactly ([times_exact]: all times computed are
    then integers of magnitude at most 2^53 and the float arithmetic of the
    source is exact), and at most 2^31 sample indices (they are stored in
    int32 arrays), every encoded spike time is looked up with the matcher
    (the encoded trains are replayed as output spikes).  The recovered
    sample index equals the index that produced the spike exactly when an
    earlier spike of the same sample exists or no encoded spike is earlier
    at all; otherwise (the first spike of a later sample) it is the index of
    an earlier sample.  The encoded sample indices fit 32 bits and the
    encoded times have magnitude at most 2^53. *)
Theorem build_input_match_roundtrip (b : NetworkBuilder) (k time_offs : Z)
    (s : nat) (ps : list InputParameters) (delay : Z) (g : rng_state) :
  Forall fits_window ps -> 0 <= delay ->
  (0 < s)%nat -> (0 < nb_m b)%nat -> (0 < clamp_k (nb_N b) k)%nat ->
  times_exact (clamp_k (nb_N b) k) ps delay time_offs ->
  Z.of_nat (clamp_k (nb_N b) k) * Z.of_nat (length ps) <= 2147483648 ->
  exists e recovered,
    build_input b k time_offs s ps delay g = Ok e /\
    match_static (e_times e) (e_indices e) (e_times e ++ e_times e) =
      Ok (e_times e, recovered) /\
    Forall2 (Forall2 (fun tk r =>
               (r = snd tk <->
                has_earlier_same (pooled (e_times e) (e_indices e))
                                 (fst tk) (snd tk) \/
                none_before (pooled (e_times e) (e_indices e)) (fst tk)) /\
               r <= snd tk))
            (unit_spikes (e_times e) (e_indices e)) recovered /\
    fits_int32 (e_indices e) /\
    (forall ts t, In ts (e_times e) -> In t ts ->
                  Z.abs t <= 9007199254740992).
Proof.
  intros Hfit Hd Hs Hm Hk Hexact Hcount.
  destruct (fill_matrices_mono (mat_in b) ps s (nb_m b) (clamp_k (nb_N b) k)
              delay g Hfit Hd) as (st & Hfill & Hinv & _ & Hmono).
  pose proof (build_input_rows b k time_offs s ps delay g st Hm Hk Hfill) as He.
  set (rows := seq 0 (nb_m b * s)) in *.
  set (e := mkEncoded
              (map (fun x => map fst (out_row st time_offs x)) rows)
              (map (fun x => map snd (out_row st time_offs x)) rows)
              (map (fun q => Z.of_nat (clamp_k (nb_N b) k * (q + 1)))
                   (seq 0 (length ps)))
              (enc_gen st)) in *.
  destruct (pooled_of_rows (out_row st time_offs) rows) as (Hpool & Hunits).
  pose proof (parallel_of_rows (out_row st time_offs) rows) as Hpar.
  assert (Hne : e_times e <> []).
  { subst e rows. simpl. intros E. apply (f_equal (@length _)) in E.
    rewrite length_map, length_seq in E. simpl in E. nia. }
  assert (Hsm : sample_monotone (pooled (e_times e) (e_indices e))).
  { subst e. cbn [e_times e_indices]. rewrite Hpool.
    intros t1 k1 t2 k2 H1 H2 Hlt.
    apply in_concat in H1. destruct H1 as (r1 & Hr1 & H1).
    apply in_concat in H2. destruct H2 as (r2 & Hr2 & H2).
    apply in_map_iff in Hr1. destruct Hr1 as (x1 & <- & _).
    apply in_map_iff in Hr2. destruct Hr2 as (x2 & <- & _).
    apply out_row_written in H1. destruct H1 as (a1 & -> & H1).
    apply out_row_written in H2. destruct H2 as (a2 & -> & H2).
    apply shift_time_lt. eapply Hmono; eassumption. }
  assert (Hfit32 : fits_int32 (e_indices e)).
  { subst e. cbn [e_indices]. apply Forall_map, Forall_forall. intros x _.
    apply Forall_map, Forall_forall. intros [t k0] Hin. simpl.
    apply out_row_written in Hin. destruct Hin as (a & _ & Hin).
    apply in_combine_r in Hin.
    pose proof (fill_matrices_indices _ _ _ _ _ _ _ _ Hfill x k0 Hin).
    unfold int32_range. lia. }
  assert (Hbound : forall ts t, In ts (e_times e) -> In t ts ->
                     Z.abs t <= 9007199254740992).
  { destruct (fill_matrices_timed _ _ _ _ _ _ _ _ Hfit Hd Hfill)
      as (_ & _ & Hrange & Hmin0).
    destruct Hinv as (_ & _ & _ & Hmin).
    unfold times_exact in Hexact.
    subst e. cbn [e_times]. intros ts t Hts Ht.
    apply in_map_iff in Hts. destruct Hts as (x & <- & _).
    apply in_map_iff in Ht. destruct Ht as ((t', k0) & Et & Hin).
    simpl in Et. subst t'.
    apply out_row_written in Hin. destruct Hin as (a & -> & Hin).
    apply in_combine_l in Hin. specialize (Hrange x a Hin).
    destruct (enc_min_t st) as [mt|]; simpl.
    - destruct Hmin as (_ & Hle). specialize (Hle x a Hin).
      specialize (Hmin0 mt eq_refl). lia.
    - lia. }
  destruct (match_static_parallel (e_times e) (e_indices e)
              (e_times e ++ e_times e) Hpar Hfit32 Hne)
    as (fl & Hperm & Hsorted & Hmatch).
  rewrite skipn_app, skipn_all, Nat.sub_diag in Hmatch. simpl in Hmatch.
  exists e. eexists. split; [exact He|]. split; [exact Hmatch|].
  split; [|split; [exact Hfit32|exact Hbound]].
  assert (Hmatched : forall t,
            pooled (e_times e) (e_indices e) <> [] ->
            matched (pooled (e_times e) (e_indices e)) t
                    (match_index (map sp_t fl) (map sp_k fl) t)).
  { intros t Hpne. apply matched_ext with (P := map spike_pair fl).
    - intros x. split; apply Permutation_in; [|apply Permutation_sym]; exact Hperm.
    - rewrite <- spike_pair_fst, <- spike_pair_snd. apply match_index_sorted.
      + now rewrite spike_pair_fst.
      + intros E. apply Hpne. apply Permutation_nil. now rewrite <- E. }
  subst e. cbn [e_times e_indices] in *. rewrite Hunits.
  rewrite (map_map (fun x => map fst (out_row st time_offs x))).
  apply Forall2_map_both. intros x Hx. rewrite map_map.
  apply Forall2_map_self. intros [t k0] Htk. simpl.
  assert (Hin : In (t, k0) (pooled
            (map (fun x => map fst (out_row st time_offs x)) rows)
            (map (fun x => map snd (out_row st time_offs x)) rows))).
  { rewrite Hpool. apply in_concat. exists (out_row st time_offs x).
    split; [now apply in_map|exact Htk]. }
  apply roundtrip_index; [exact Hsm|exact Hin|].
  apply Hmatched. intros E. rewrite E in Hin. destruct Hin.
Qed.
End RoundTrip.

Lemma build_input_match_roundtrip_witness :
  exists e recovered,
    @build_input constant_source example_two_samples (-1) 0 1 [default_input] 10 tt
      = Ok e /\
    match_static (e_times e) (e_indices e) (e_times e ++ e_times e) =
      Ok (e_times e, recovered) /\
    Forall2 (Forall2 (fun tk r =>
               (r = snd tk <->
                has_earlier_same (pooled (e_times e) (e_indices e))
                                 (fst tk) (snd tk) \/
                none_before (pooled (e_times e) (e_indices e)) (fst tk)) /\
               r <= snd tk))
            (unit_spikes (e_times e) (e_indices e)) recovered /\
    fits_int32 (e_indices e) /\
    (forall ts t, In ts (e_times e) -> In t ts ->
                  Z.abs t <= 9007199254740992).
Proof.
  apply (@build_input_match_roundtrip constant_source example_two_samples
           (-1) 0 1 [default_input] 10 tt).
  - repeat constructor; vm_compute; congruence.
  - lia.
  - lia.
  - vm_compute; lia.
  - vm_compute; lia.
  - vm_compute; congruence.
  - vm_compute; congruence.
Defined.

(** C1, as stated, fails: two samples over one input bit, default
    parameters (one spike per burst, window 100, no jitter).  The spikes are
    at times 0 (sample 0) and 100 (sample 1); looking up time 100 recovers
    sample 0. *)
Lemma build_input_match_roundtrip_fails :
  exists e,
    @build_input constant_source example_two_samples (-1) 0 1 [default_input] 10 tt
      = Ok e /\
    e_times e = [[0; 100]] /\ e_indices e = [[0; 1]] /\
    match_static (e_times e) (e_indices e) (e_times e ++ e_times e) =
      Ok ([[0; 100]], [[0; 0]]) /\
    [[0; 0]] <> e_indices e.
Proof.
  exists (@mkEncoded constant_source [[0; 100]] [[0; 1]] [2] tt).
  split; [vm_compute; reflexivity|].
  split; [reflexivity|]. split; [reflexivity|].
  split; [vm_compute; reflexivity|]. discriminate.
Qed.


(** ** build_input_arrays fills its matrices as the growing lists do *)

Lemma set_row_ok {A : Type} (d : A) (x : nat) (f : A -> result A)
    (rows : list A) (r' : A) :
  (x < length rows)%nat -> f (nth x rows d) = Ok r' ->
  exists rows', set_row x f rows = Ok rows' /\
                length rows' = length rows /\
                forall y, nth y rows' d = if (y =? x)%nat then r' else nth y rows d.
Proof.
  revert x. induction rows as [|r rows IH]; intros x Hx Hf; simpl in Hx; [lia|].
  destruct x as [|x]; simpl in *.
  - rewrite Hf. simpl. eexists. split; [reflexivity|]. split; [reflexivity|].
    intros [|y]; reflexivity.
  - destruct (IH x) as (rows' & -> & Hlen & Hnth); [lia|exact Hf|].
    simpl. eexists. split; [reflexivity|]. split; [simpl; lia|].
    intros [|y]; simpl; [reflexivity|]. apply Hnth.
Qed.

Lemma assign_slice_ok (row vals : list Z) (a : nat) :
  (a + length vals <= length row)%nat ->
  assign_slice row a (a + length vals) vals =
    Ok (firstn a row ++ vals ++ skipn (a + length vals) row).
Proof.
  intros Hle. unfold assign_slice.
  rewrite !Nat.min_l by lia.
  replace (a + length vals - a)%nat with (length vals) by lia.
  now rewrite Nat.eqb_refl.
Qed.

Lemma fill_slice_ok (row : list Z) (a b : nat) (v : Z) :
  (a + b <= length row)%nat ->
  fill_slice row a (a + b) v = firstn a row ++ repeat v b ++ skipn (a + b) row.
Proof.
  intros Hle. unfold fill_slice. rewrite !Nat.min_l by lia.
  now replace (a + b - a)%nat with b by lia.
Qed.

(** Writing [vals] behind the first [a] columns of a row. *)
Lemma written_row (row vals : list Z) (a : nat) :
  (a + length vals <= length row)%nat ->
  let row' := firstn a row ++ vals ++ skipn (a + length vals) row in
  length row' = length row /\
  firstn (a + length vals) row' = firstn a row ++ vals.
Proof.
  intros Hle row'. subst row'. split.
  - rewrite !length_app, length_firstn, length_skipn. lia.
  - rewrite app_assoc, firstn_app.
    rewrite length_app, length_firstn, Nat.min_l by lia.
    rewrite Nat.sub_diag. simpl. rewrite app_nil_r.
    apply firstn_all2. rewrite length_app, length_firstn. lia.
Qed.

Lemma div_row (s i j : nat) : (j < s)%nat -> ((i * s + j) / s = i)%nat.
Proof.
  intros Hj. rewrite Nat.add_comm, Nat.div_add by lia.
  rewrite Nat.div_small by exact Hj. reflexivity.
Qed.

Lemma div_row_iff (s i x : nat) :
  (0 < s)%nat -> ((x / s = i)%nat <-> (i * s <= x < i * s + s)%nat).
Proof.
  intros Hs. pose proof (Nat.div_mod_eq x s) as E.
  pose proof (Nat.mod_upper_bound x s ltac:(lia)) as U.
  split.
  - intros <-. nia.
  - intros [H1 H2]. symmetry.
    apply Nat.div_unique with (r := (x - i * s)%nat); lia.
Qed.

Lemma sim_res_bind {S S' U U' : Type} (R : S -> S' -> Prop)
    (R' : U -> U' -> Prop) (r : result S) (r' : result S')
    (k : S -> result U) (k' : S' -> result U') :
  sim_res R r r' ->
  (forall a a', R a a' -> sim_res R' (k a) (k' a')) ->
  sim_res R' (bind r k) (bind r' k').
Proof.
  destruct r as [a|e], r' as [a'|e']; simpl; auto; tauto.
Qed.

Lemma sim_res_impl {S S' : Type} (R R' : S -> S' -> Prop) (r : result S)
    (r' : result S') :
  (forall a a', R a a' -> R' a a') -> sim_res R r r' -> sim_res R' r r'.
Proof.
  destruct r as [a|e], r' as [a'|e']; simpl; auto.
Qed.

(** The same when only the left computation goes on. *)
Lemma sim_res_bind_left {S S' U : Type} (R : S -> S' -> Prop)
    (R' : U -> S' -> Prop) (r : result S) (r' : result S')
    (k : S -> result U) :
  sim_res R r r' ->
  (forall a a', R a a' -> sim_res R' (k a) (Ok a')) ->
  sim_res R' (bind r k) r'.
Proof.
  destruct r as [a|e], r' as [a'|e']; simpl; auto; tauto.
Qed.

Section Refinement.
Context `{RandomSource}.

Lemma sim_ext (s m w : nat) (F F' : nat -> nat) (M : matrices) (st : enc_state) :
  (forall x, (x < s * m)%nat -> F x = F' x) -> sim s m w F M st -> sim s m w F' M st.
Proof.
  intros HF (H1 & H2 & H3 & H4 & H5 & Hrows & Hrest).
  repeat (split; [assumption|]). split; [|exact Hrest].
  intros x Hx. rewrite <- (HF x Hx). now apply Hrows.
Qed.

(** One neuron: the burst is written behind the filled part of its row. *)
Lemma fill_neuron_sim (s m w : nat) (F : nat -> nat) (p : InputParameters)
    (i j a : nat) (M : matrices) (st : enc_state) :
  sim s m w F M st -> (i < m)%nat -> (j < s)%nat ->
  nth i (m_N M) 0%nat = a -> F (i * s + j)%nat = a ->
  (a + burst_size p <= w)%nat ->
  sim_res (fun M' st' =>
             sim s m w (fun x => if (x =? i * s + j)%nat
                                 then (a + burst_size p)%nat else F x) M' st' /\
             m_N M' = m_N M)
          (fill_neuron p s i M j) (enc_neuron p s i st j).
Proof.
  intros (HT & HK & HN & HT' & HK' & Hrows & Hmin & Ht & Hk & Hg) Hi Hj Ha HF Hcap.
  unfold fill_neuron, enc_neuron. rewrite Ht, Hg.
  pose proof (build_spike_train_length p (enc_t st) (enc_gen st)) as Hlen.
  destruct (build_spike_train p (enc_t st) (enc_gen st)) as [train g].
  simpl in Hlen.
  destruct (py_min train) as [mt|e]; [|reflexivity]. cbn [bind].
  assert (Hget : getitem (m_N M) i = Ok a).
  { unfold getitem. rewrite (nth_error_nth' _ 0%nat) by lia. now rewrite Ha. }
  rewrite Hget. cbn [bind].
  assert (Hx : (i * s + j < s * m)%nat) by nia.
  destruct (Hrows _ Hx) as (HlT & HlK & _ & HfT & HfK). rewrite HF in HfT, HfK.
  destruct (set_row_ok [] (i * s + j)%nat
              (fun row => assign_slice row a (a + burst_size p) train) (m_T M)
              (firstn a (nth (i * s + j) (m_T M) []) ++ train ++
               skipn (a + burst_size p) (nth (i * s + j) (m_T M) [])))
    as (T' & -> & HlenT & HnthT); [lia| |].
  { rewrite <- Hlen. apply assign_slice_ok. lia. }
  cbn [bind].
  destruct (set_row_ok [] (i * s + j)%nat
              (fun row => Ok (fill_slice row a (a + burst_size p) (m_sIdx M)))
              (m_K M)
              (firstn a (nth (i * s + j) (m_K M) []) ++
               repeat (m_sIdx M) (burst_size p) ++
               skipn (a + burst_size p) (nth (i * s + j) (m_K M) [])))
    as (K' & -> & HlenK & HnthK); [lia| |].
  { f_equal. apply fill_slice_ok. lia. }
  cbn [bind sim_res]. split; [|reflexivity].
  unfold sim. cbn [m_T m_K m_N m_min_t m_t m_sIdx m_gen
                   enc_T enc_K enc_min_t enc_t enc_sIdx enc_gen].
  rewrite HlenT, HlenK, !append_at_length, Hmin.
  repeat (split; [assumption || reflexivity|]).
  split; [|repeat split; assumption].
  intros x Hx'. rewrite HnthT, HnthK, !append_at_nth, HT', HK'.
  rewrite (Nat.eqb_sym x). destruct (Nat.eqb_spec (i * s + j) x) as [<-|Hne].
  - apply Nat.ltb_lt in Hx as Hx2. rewrite Hx2. simpl.
    pose proof (written_row (nth (i * s + j) (m_T M) []) train a) as WT.
    pose proof (written_row (nth (i * s + j) (m_K M) [])
                  (repeat (m_sIdx M) (burst_size p)) a) as WK.
    rewrite repeat_length in WK. rewrite Hlen in WT.
    destruct WT as (WT1 & WT2); [lia|]. destruct WK as (WK1 & WK2); [lia|].
    rewrite WT1, WK1, WT2, WK2, HfT, HfK, Hk.
    repeat split; auto.
  - simpl. now apply Hrows.
Qed.

Lemma fill_neurons_sim (s m w : nat) (p : InputParameters) (i a : nat)
    (N : list nat) (n : nat) :
  forall j0 M st,
    (j0 + n <= s)%nat -> (i < m)%nat -> m_N M = N -> nth i N 0%nat = a ->
    (n = 0%nat \/ a + burst_size p <= w)%nat ->
    sim s m w (fill_mid s i a (burst_size p) j0 N) M st ->
    sim_res (fun M' st' =>
               sim s m w (fill_mid s i a (burst_size p) (j0 + n) N) M' st' /\
               m_N M' = N)
            (foldM (fill_neuron p s i) (seq j0 n) M)
            (foldM (enc_neuron p s i) (seq j0 n) st).
Proof.
  induction n as [|n IH]; intros j0 M st Hj Hi HN Ha Hcap Hsim.
  - simpl. rewrite Nat.add_0_r. auto.
  - cbn [seq foldM].
    assert (Hcap' : (a + burst_size p <= w)%nat) by (destruct Hcap; [lia|assumption]).
    assert (HF : fill_mid s i a (burst_size p) j0 N (i * s + j0)%nat = a).
    { unfold fill_mid.
      replace ((i * s <=? i * s + j0) && (i * s + j0 <? i * s + j0))%nat
        with false by (rewrite Nat.ltb_irrefl; now rewrite andb_false_r).
      rewrite div_row by lia. exact Ha. }
    pose proof (fill_neuron_sim s m w _ p i j0 a M st Hsim Hi ltac:(lia)
                  ltac:(now rewrite HN) HF Hcap') as Hstep.
    apply (sim_res_bind _ _ _ _ _ _ Hstep).
    intros M1 st1 (Hsim1 & HN1).
    replace (j0 + S n)%nat with (S j0 + n)%nat by lia.
    apply IH; [lia|assumption|congruence|assumption|right; exact Hcap'|].
    apply sim_ext with (2 := Hsim1). intros x Hx. unfold fill_mid.
    destruct (Nat.eqb_spec x (i * s + j0)) as [->|Hne].
    + replace ((i * s <=? i * s + j0) && (i * s + j0 <? i * s + S j0))%nat
        with true; [reflexivity|].
      symmetry. apply andb_true_intro. split; [apply Nat.leb_le|apply Nat.ltb_lt]; lia.
    + replace (x <? i * s + S j0)%nat with (x <? i * s + j0)%nat; [reflexivity|].
      destruct (Nat.ltb_spec x (i * s + j0)), (Nat.ltb_spec x (i * s + S j0));
        try reflexivity; lia.
Qed.

Lemma sim_at_ext (s m w : nat) (u u' : nat -> nat) (M : matrices)
    (st : enc_state) :
  (forall i, u i = u' i) -> sim_at s m w u M st -> sim_at s m w u' M st.
Proof.
  intros Hu (Hsim & HN). split; [exact Hsim|]. intros i. now rewrite <- Hu.
Qed.

(** One input of one sample: its [s] rows receive the burst and its counter
    moves on. *)
Lemma fill_input_sim (s m w : nat) (X : list (list bool)) (p : InputParameters)
    (l i : nat) (u : nat -> nat) (M : matrices) (st : enc_state) :
  sim_at s m w u M st -> (i < m)%nat ->
  (u i + cost_input X p l i i <= w)%nat ->
  sim_res (sim_at s m w (fun i' => (u i' + cost_input X p l i i')%nat))
          (fill_input X p s l M i) (enc_input X p s l st i).
Proof.
  intros (Hsim & HN) Hi Hcap. unfold fill_input, enc_input, cost_input in *.
  rewrite Nat.eqb_refl in Hcap. simpl in Hcap.
  destruct (nth i (nth l X []) false).
  - pose proof (fill_neurons_sim s m w p i (u i) (m_N M) s 0%nat M st
                  ltac:(lia) Hi eq_refl (HN i) (or_intror Hcap)) as Hloop.
    eapply sim_res_bind_left; [apply Hloop|].
    { apply sim_ext with (2 := Hsim). intros x Hx. unfold fill_mid, fill_of.
      replace (x <? i * s + 0)%nat with (x <? i * s)%nat
        by (now rewrite Nat.add_0_r).
      destruct (Nat.leb_spec (i * s) x), (Nat.ltb_spec x (i * s));
        simpl; try reflexivity; lia. }
    intros M1 st1 (Hsim1 & HN1). simpl in Hsim1.
    destruct Hsim1 as (HT & HK & HlN & HT' & HK' & Hrows & Hrest).
    destruct (set_row_ok 0%nat i (fun a => Ok (a + burst_size p)%nat) (m_N M1)
                (nth i (m_N M1) 0 + burst_size p)%nat)
      as (N' & -> & HlenN & HnthN); [lia|reflexivity|].
    cbn [bind sim_res]. split.
    + unfold sim. cbn [m_T m_K m_N m_min_t m_t m_sIdx m_gen].
      repeat (split; [assumption || lia|]). split; [|exact Hrest].
      intros x Hx. destruct (Hrows x Hx) as (H1 & H2 & H3 & H4 & H5).
      assert (E : fill_of s (mkMat (m_T M1) (m_K M1) N' (m_min_t M1) (m_t M1)
                               (m_sIdx M1) (m_gen M1)) x =
                  fill_mid s i (u i) (burst_size p) s (m_N M) x).
      { unfold fill_of, fill_mid. cbn [m_N]. rewrite HnthN, HN1, HN.
        assert (Hs : (0 < s)%nat) by nia.
        pose proof (div_row_iff s i x Hs) as Hd.
        destruct (Nat.eqb_spec (x / s) i) as [Eq|Ne].
        - apply Hd in Eq. destruct Eq as [E1 E2].
          apply Nat.leb_le in E1. apply Nat.ltb_lt in E2.
          now rewrite E1, E2.
        - destruct (Nat.leb_spec (i * s) x), (Nat.ltb_spec x (i * s + s));
            simpl; try reflexivity.
          exfalso. apply Ne, Hd. lia. }
      rewrite E. simpl. auto.
    + intros i'. cbn [m_N]. rewrite HnthN, HN1, !HN.
      destruct (Nat.eqb_spec i' i) as [->|Hne]; simpl; lia.
  - simpl. split; [exact Hsim|]. intros i'. rewrite HN.
    now rewrite andb_false_r, Nat.add_0_r.
Qed.
End Refinement.

Lemma vsum_cons (c : nat -> nat) (cs : list (nat -> nat)) (i : nat) :
  vsum (c :: cs) i = (c i + vsum cs i)%nat.
Proof. reflexivity. Qed.

(** A fold whose steps consume the columns [cost a] of the rows of each
    input, given that all of them fit. *)
Lemma foldM_sim_cost {A S S' : Type} (R : (nat -> nat) -> S -> S' -> Prop)
    (cost : A -> nat -> nat) (w m : nat) (f : S -> A -> result S)
    (g : S' -> A -> result S') (l : list A) :
  (forall u u' M st, (forall i, u i = u' i) -> R u M st -> R u' M st) ->
  (forall a u M st, In a l -> R u M st ->
     (forall i, (i < m)%nat -> (u i + cost a i <= w)%nat) ->
     sim_res (R (fun i => (u i + cost a i)%nat)) (f M a) (g st a)) ->
  forall u M st, R u M st ->
    (forall i, (i < m)%nat -> (u i + vsum (map cost l) i <= w)%nat) ->
    sim_res (R (fun i => (u i + vsum (map cost l) i)%nat))
            (foldM f l M) (foldM g l st).
Proof.
  intros Hext. induction l as [|a l IH]; intros Hstep u M st HR Hcap.
  - simpl. eapply Hext; [|exact HR]. intros i. unfold vsum. simpl. lia.
  - cbn [foldM map].
    assert (Hcap' : forall i, (i < m)%nat ->
              (u i + (cost a i + vsum (map cost l) i) <= w)%nat).
    { intros i Hi. rewrite <- vsum_cons. apply (Hcap i Hi). }
    eapply sim_res_bind.
    + apply Hstep; [now left|exact HR|].
      intros i Hi. specialize (Hcap' i Hi). lia.
    + intros M1 st1 HR1. cbv beta in HR1.
      eapply sim_res_impl;
        [|apply (IH (fun a0 u0 M0 st0 Hin => Hstep a0 u0 M0 st0 (or_intror Hin))
                    _ M1 st1 HR1)].
      * intros M2 st2. apply Hext. intros i. rewrite vsum_cons. lia.
      * intros i Hi. specialize (Hcap' i Hi). cbv beta. lia.
Qed.

Section RefinementLoops.
Context `{RandomSource}.

Lemma fill_sample_sim (s m w : nat) (X : list (list bool)) (p : InputParameters)
    (l : nat) (u : nat -> nat) (M : matrices) (st : enc_state) :
  sim_at s m w u M st ->
  (forall i, (i < m)%nat -> (u i + cost_sample X m p l i <= w)%nat) ->
  sim_res (sim_at s m w (fun i => (u i + cost_sample X m p l i)%nat))
          (fill_sample X m p s M l) (enc_sample X m p s st l).
Proof.
  intros Hsim Hcap. unfold fill_sample, enc_sample.
  eapply sim_res_bind.
  - apply (foldM_sim_cost (sim_at s m w) (cost_input X p l) w m);
      [apply sim_at_ext| |exact Hsim|exact Hcap].
    intros i u0 M0 st0 Hi H0 Hc. apply in_seq in Hi.
    apply fill_input_sim; [exact H0|lia|apply Hc; lia].
  - intros M1 st1 ((H1 & H2 & H3 & H4 & H5 & Hrows & Hm & Ht & Hk & Hg) & HN).
    simpl. split; [|exact HN].
    unfold sim. cbn [m_T m_K m_N m_min_t m_t m_sIdx m_gen
                     enc_T enc_K enc_min_t enc_t enc_sIdx enc_gen].
    rewrite Ht, Hk.
    repeat split; try assumption; try reflexivity; apply Hrows; assumption.
Qed.

Lemma fill_params_sim (s m k w : nat) (X : list (list bool)) (delay : Z)
    (p : InputParameters) (u : nat -> nat) (M : matrices) (st : enc_state) :
  sim_at s m w u M st ->
  (forall i, (i < m)%nat -> (u i + cost_params X m k p i <= w)%nat) ->
  sim_res (sim_at s m w (fun i => (u i + cost_params X m k p i)%nat))
          (fill_params X m k s delay M p) (enc_params X m k s delay st p).
Proof.
  intros Hsim Hcap. unfold fill_params, enc_params.
  eapply sim_res_bind.
  - apply (foldM_sim_cost (sim_at s m w) (cost_sample X m p) w m);
      [apply sim_at_ext| |exact Hsim|exact Hcap].
    intros l u0 M0 st0 _ H0 Hc. now apply fill_sample_sim.
  - intros M1 st1 ((H1 & H2 & H3 & H4 & H5 & Hrows & Hm & Ht & Hk & Hg) & HN).
    simpl. split; [|exact HN].
    unfold sim. cbn [m_T m_K m_N m_min_t m_t m_sIdx m_gen
                     enc_T enc_K enc_min_t enc_t enc_sIdx enc_gen].
    rewrite Ht.
    repeat split; try assumption; try reflexivity; apply Hrows; assumption.
Qed.

Lemma fill_arrays_sim_at (s m k w : nat) (X : list (list bool)) (delay : Z)
    (ps : list InputParameters) (g : rng_state) :
  (forall i, (i < m)%nat -> (cost_all X m k ps i <= w)%nat) ->
  sim_res (sim_at s m w (cost_all X m k ps))
          (fill_arrays X m k s ps delay w g) (fill_matrices X m k s ps delay g).
Proof.
  intros Hcap. unfold fill_arrays, fill_matrices.
  eapply sim_res_impl;
    [|apply (foldM_sim_cost (sim_at s m w) (cost_params X m k) w m _ _ ps
               (sim_at_ext s m w)) with (u := fun _ => 0%nat)].
  - intros M st. apply sim_at_ext. intros i. reflexivity.
  - intros p u0 M0 st0 _ H0 Hc. now apply fill_params_sim.
  - split.
    + unfold sim. cbn [m_T m_K m_N m_min_t m_t m_sIdx m_gen
                       enc_T enc_K enc_min_t enc_t enc_sIdx enc_gen].
      rewrite !repeat_length. repeat (split; [reflexivity|]).
      split; [|auto].
      intros x Hx. rewrite !nth_repeat_lt by exact Hx.
      rewrite repeat_length. unfold fill_of. cbn [m_N].
      assert (E : nth (x / s) (repeat 0%nat m) 0%nat = 0%nat).
      { destruct (Nat.lt_ge_cases (x / s) m).
        - now apply nth_repeat_lt.
        - apply nth_overflow. now rewrite repeat_length. }
      rewrite E. simpl. repeat split; lia.
    + intros i. cbn [m_N].
      destruct (Nat.lt_ge_cases i m).
      * now apply nth_repeat_lt.
      * apply nth_overflow. now rewrite repeat_length.
  - intros i Hi. simpl. apply Hcap, Hi.
Qed.

Lemma fill_arrays_sim (s m k w : nat) (X : list (list bool)) (delay : Z)
    (ps : list InputParameters) (g : rng_state) :
  (forall i, (i < m)%nat -> (cost_all X m k ps i <= w)%nat) ->
  sim_res (fun M st => sim s m w (fill_of s M) M st)
          (fill_arrays X m k s ps delay w g) (fill_matrices X m k s ps delay g).
Proof.
  intros Hcap. eapply sim_res_impl; [|apply fill_arrays_sim_at, Hcap].
  intros M st [Hsim _]. exact Hsim.
Qed.
End RefinementLoops.

(** ** The matrices are wide enough *)

Lemma py_max_ge (l : list Z) (mx : Z) :
  py_max l = Ok mx -> forall y, In y l -> y <= mx.
Proof.
  destruct l as [|x l]; simpl; [discriminate|].
  intros E y Hy. inversion E; subst.
  destruct (fold_left_max_ge l x) as [H1 H2].
  destruct Hy as [<-|Hy]; auto.
Qed.

(** Input [i] of sample [l] takes a burst when its bit is set. *)
Lemma cost_inputs_sum (X : list (list bool)) (p : InputParameters)
    (l i n a : nat) :
  vsum (map (cost_input X p l) (seq a n)) i =
    if ((a <=? i) && (i <? a + n))%nat && nth i (nth l X []) false
    then burst_size p else 0%nat.
Proof.
  revert a. induction n as [|n IH]; intros a.
  - cbn [seq map]. unfold vsum. cbn [map list_sum].
    destruct (Nat.leb_spec a i), (Nat.ltb_spec i (a + 0)); try lia; reflexivity.
  - cbn [seq map]. rewrite vsum_cons, IH. unfold cost_input.
    destruct (Nat.eqb_spec i a), (Nat.leb_spec (S a) i),
      (Nat.ltb_spec i (S a + n)), (Nat.leb_spec a i),
      (Nat.ltb_spec i (a + S n)); try lia; subst; cbn [andb];
      destruct (nth _ (nth l X []) false); lia.
Qed.

Lemma cost_sample_eq (X : list (list bool)) (m : nat) (p : InputParameters)
    (l i : nat) :
  (i < m)%nat ->
  cost_sample X m p l i =
    if nth i (nth l X []) false then burst_size p else 0%nat.
Proof.
  intros Hi. unfold cost_sample. rewrite cost_inputs_sum.
  destruct (Nat.leb_spec 0 i), (Nat.ltb_spec i (0 + m)); try lia; reflexivity.
Qed.

(** The rows among the first [k] that satisfy [f] are rows of [X]. *)
Lemma count_rows_le (f : list bool -> bool) (X : list (list bool)) (b k : nat) :
  f [] = false ->
  (list_sum (map (fun l => if f (nth l X []) then b else 0%nat) (seq 0 k))
   <= b * length (filter f X))%nat.
Proof.
  intros Hf. revert k. induction X as [|r X IH]; intros k.
  - assert (E : forall a, list_sum (map (fun l => if f (nth l [] [])
                                           then b else 0%nat) (seq a k)) = 0%nat).
    { induction k as [|k IHk]; intros a; simpl; [reflexivity|].
      rewrite IHk. destruct a; rewrite Hf; reflexivity. }
    rewrite E. lia.
  - destruct k as [|k]; [simpl; lia|].
    cbn [seq map list_sum filter]. rewrite <- seq_shift, map_map.
    specialize (IH k). cbn [nth].
    destruct (f r); simpl; rewrite ?Nat.mul_succ_r; lia.
Qed.

Lemma cost_params_le (X : list (list bool)) (m k : nat) (p : InputParameters)
    (i : nat) :
  (i < m)%nat ->
  (cost_params X m k p i
   <= burst_size p * length (filter (fun row => nth i row false) X))%nat.
Proof.
  intros Hi. unfold cost_params, vsum. rewrite map_map.
  rewrite (map_ext _ (fun l => if nth i (nth l X []) false
                               then burst_size p else 0%nat))
    by (intros l; now apply cost_sample_eq).
  apply (count_rows_le (fun row => nth i row false)).
  now destruct i.
Qed.

Lemma cost_all_cons (X : list (list bool)) (m k : nat) (p : InputParameters)
    (ps : list InputParameters) (i : nat) :
  cost_all X m k (p :: ps) i = (cost_params X m k p i + cost_all X m k ps i)%nat.
Proof. unfold cost_all. cbn [map]. apply vsum_cons. Qed.

(** [max_num_spikes] bounds the number of columns that the loops fill in the
    rows of every input. *)
Lemma max_num_spikes_bound (X : list (list bool)) (m k : nat)
    (ps : list InputParameters) (w : Z) :
  max_num_spikes X m ps = Ok w ->
  forall i, (i < m)%nat -> (cost_all X m k ps i <= Z.to_nat w)%nat.
Proof.
  intros E i Hi. unfold max_num_spikes in E.
  assert (G : forall acc,
             foldM (fun acc p =>
                      mx <- py_max (col_sums X m) ;;
                      Ok (acc + mx * Z.of_nat (burst_size p))) ps acc = Ok w ->
             acc + Z.of_nat (cost_all X m k ps i) <= w).
  { clear E. induction ps as [|p ps IH]; intros acc E.
    - simpl in E. inversion E. unfold cost_all, vsum. simpl. lia.
    - cbn [foldM] in E.
      destruct (py_max (col_sums X m)) as [mx|e] eqn:Emx; [|discriminate].
      cbn [bind] in E. apply IH in E.
      rewrite cost_all_cons.
      pose proof (cost_params_le X m k p i Hi) as Hc.
      assert (Hmx : Z.of_nat (length (filter (fun row => nth i row false) X))
                    <= mx).
      { apply (py_max_ge _ _ Emx). unfold col_sums.
        apply (in_map (fun i => Z.of_nat (length (filter
                                  (fun row => nth i row false) X)))).
        apply in_seq. lia. }
      nia. }
  specialize (G 0 E). lia.
Qed.

(** ** build_input_arrays and the filled parts *)

Section RefinementResult.
Context `{RandomSource}.

Lemma result_rows_sim (s m w : nat) (M : matrices) (st : enc_state)
    (time_offs : Z) :
  sim s m w (fill_of s M) M st ->
  flat_map (fun i => map (fun j => result_row M time_offs i (i * s + j)%nat)
                         (seq 0 s)) (seq 0 m) =
  flat_map (fun i => map (fun j =>
                            let x := (i * s + j)%nat in
                            sorted_row (enc_min_t st) time_offs
                              (nth x (enc_T st) []) (nth x (enc_K st) []))
                         (seq 0 s)) (seq 0 m).
Proof.
  intros (_ & _ & _ & _ & _ & Hrows & Hm & _).
  assert (E : forall i, In i (seq 0 m) ->
            map (fun j => result_row M time_offs i (i * s + j)%nat) (seq 0 s) =
            map (fun j => let x := (i * s + j)%nat in
                          sorted_row (enc_min_t st) time_offs
                            (nth x (enc_T st) []) (nth x (enc_K st) []))
                (seq 0 s)).
  { intros i Hi. apply in_seq in Hi. apply map_ext_in. intros j Hj.
    apply in_seq in Hj. cbv zeta. unfold result_row.
    destruct (Hrows (i * s + j)%nat) as (_ & _ & _ & HT & HK); [nia|].
    unfold fill_of in HT, HK. rewrite div_row in HT, HK by lia.
    now rewrite HT, HK, Hm. }
  induction (seq 0 m) as [|i l IH]; simpl; [reflexivity|].
  rewrite E by (now left). rewrite IH; [reflexivity|].
  intros i' Hi'. apply E. now right.
Qed.

(** X1: the matrices [T], [K] and [N] that [build_input] allocates are wide
    enough, and every slice it assigns lies within them.  With at most 2^31
    sample indices (the range of the int32 matrix [K]) and fewer than 2^32
    columns (the range of the uint32 counters [N]), the encoder on
    preallocated matrices returns what the encoder on growing rows returns,
    and fails when it fails. *)
Theorem build_input_refines (b : NetworkBuilder) (k : Z) (time_offs : Z)
    (s : nat) (input_params : list InputParameters) (input_params_delay : Z)
    (g : rng_state) :
  Z.of_nat (clamp_k (nb_N b) k) * Z.of_nat (length input_params)
    <= 2147483648 ->
  (forall w, max_num_spikes (mat_in b) (nb_m b) input_params = Ok w ->
             w < 4294967296) ->
  build_input_arrays b k time_offs s input_params input_params_delay g =
  build_input b k time_offs s input_params input_params_delay g.
Proof.
  intros _ _. unfold build_input_arrays, build_input. cbv zeta.
  destruct (max_num_spikes (mat_in b) (nb_m b) input_params) as [w|e] eqn:Ew;
    [|reflexivity].
  cbn [bind].
  pose proof (fill_arrays_sim s (nb_m b) (clamp_k (nb_N b) k) (Z.to_nat w)
                (mat_in b) input_params_delay input_params g
                (max_num_spikes_bound _ _ _ _ _ Ew)) as Hsim.
  destruct (fill_arrays _ _ _ _ _ _ _ _) as [M|e1];
    destruct (fill_matrices _ _ _ _ _ _ _) as [st|e2]; simpl in Hsim;
    try contradiction; [|now subst].
  cbn [bind].
  rewrite (result_rows_sim s (nb_m b) (Z.to_nat w) M st time_offs Hsim).
  destruct Hsim as (_ & _ & _ & _ & _ & _ & _ & _ & _ & Hg).
  now rewrite Hg.
Qed.
End RefinementResult.

Lemma build_input_refines_witness :
  @build_input_arrays constant_source example_two_samples (-1) 0 1
    [default_input] 10 tt =
  @build_input constant_source example_two_samples (-1) 0 1
    [default_input] 10 tt.
Proof.
  apply (@build_input_refines constant_source example_two_samples (-1) 0 1
           [default_input] 10 tt).
  - vm_compute. congruence.
  - intros w E. vm_compute in E. injection E as <-. lia.
Defined.

(** ** The number of spikes that build_input emits *)

Lemma list_sum_indicator {A : Type} (f : A -> bool) (b : nat) (l : list A) :
  list_sum (map (fun a => if f a then b else 0%nat) l) =
    (b * length (filter f l))%nat.
Proof.
  induction l as [|a l IH]; simpl; [lia|].
  rewrite IH. destruct (f a); simpl; lia.
Qed.

Lemma cost_params_eq (X : list (list bool)) (m k : nat) (p : InputParameters)
    (i : nat) :
  (i < m)%nat ->
  cost_params X m k p i = (burst_size p * active_samples X k i)%nat.
Proof.
  intros Hi. unfold cost_params, vsum, active_samples. rewrite map_map.
  rewrite (map_ext _ (fun l => if nth i (nth l X []) false
                               then burst_size p else 0%nat))
    by (intros l; now apply cost_sample_eq).
  apply (list_sum_indicator (fun l => nth i (nth l X []) false)).
Qed.

Lemma cost_all_eq (X : list (list bool)) (m k : nat)
    (ps : list InputParameters) (i : nat) :
  (i < m)%nat ->
  cost_all X m k ps i =
    (list_sum (map burst_size ps) * active_samples X k i)%nat.
Proof.
  intros Hi. induction ps as [|p ps IH].
  - reflexivity.
  - rewrite cost_all_cons, IH, cost_params_eq by exact Hi. simpl. lia.
Qed.

Lemma list_sum_ge (l : list nat) (a : nat) : In a l -> (a <= list_sum l)%nat.
Proof.
  induction l as [|x l IH]; simpl; [tauto|].
  intros [->|Hin]; [lia|]. specialize (IH Hin). lia.
Qed.

Section SpikeCounts.
Context `{RandomSource}.

(** Every row of input [i] is filled with as many columns as the loops add
    to the counter [N[i]]. *)
Lemma fill_matrices_row_length (X : list (list bool)) (m k s : nat)
    (ps : list InputParameters) (delay : Z) (g : rng_state) (st : enc_state)
    (x : nat) :
  fill_matrices X m k s ps delay g = Ok st -> (x < s * m)%nat ->
  length (nth x (enc_T st) []) = cost_all X m k ps (x / s).
Proof.
  intros Hfill Hx.
  pose (w := list_sum (map (cost_all X m k ps) (seq 0 m))).
  assert (Hcap : forall i, (i < m)%nat -> (cost_all X m k ps i <= w)%nat).
  { intros i Hi. apply list_sum_ge.
    apply (in_map (cost_all X m k ps)), in_seq. lia. }
  pose proof (fill_arrays_sim_at s m k w X delay ps g Hcap) as Hsim.
  rewrite Hfill in Hsim.
  destruct (fill_arrays X m k s ps delay w g) as [M|e]; [|destruct Hsim].
  destruct Hsim as ((_ & _ & _ & _ & _ & Hrows & _) & HN).
  destruct (Hrows x Hx) as (HlT & _ & Hle & HT & _).
  rewrite <- HT, length_firstn, HlT, Nat.min_l by exact Hle.
  unfold fill_of. apply HN.
Qed.
End SpikeCounts.

(** X2: whenever there is an input bit, a sample to encode, every burst
    has a spike and the spikes of one input stay below 2^32 (the range of the
    uint32 counters [N]), [build_input] succeeds and the train of neuron [j]
    of input
    [i] holds, for each parameter set, one burst per encoded sample in which
    bit [i] is set: [sum of the burst sizes * number of such samples] spikes,
    each with its sample index. *)
Theorem build_input_spike_counts `{RandomSource} (b : NetworkBuilder)
    (k time_offs : Z) (s : nat) (ps : list InputParameters) (delay : Z)
    (g : rng_state) :
  (0 < nb_m b)%nat -> (0 < clamp_k (nb_N b) k)%nat ->
  Forall (fun p => (0 < burst_size p)%nat) ps ->
  Z.of_nat (list_sum (map burst_size ps)) * Z.of_nat (clamp_k (nb_N b) k)
    < 4294967296 ->
  exists e,
    build_input b k time_offs s ps delay g = Ok e /\
    forall i j, (i < nb_m b)%nat -> (j < s)%nat ->
      length (nth (i * s + j) (e_times e) []) =
        (list_sum (map burst_size ps) *
         active_samples (mat_in b) (clamp_k (nb_N b) k) i)%nat /\
      length (nth (i * s + j) (e_indices e) []) =
        length (nth (i * s + j) (e_times e) []).
Proof.
  intros Hm Hk Hb _.
  destruct (enc_all_inv (s * nb_m b) (mat_in b) ps s (nb_m b)
              (clamp_k (nb_N b) k) delay
              (mkEnc (repeat [] (s * nb_m b)%nat) (repeat [] (s * nb_m b)%nat)
                     None 0 0 g) Hb eq_refl (enc_inv_init _ g))
    as (st & Hfill & (HT & HK & Hlen & Hmin) & _).
  fold (fill_matrices (mat_in b) (nb_m b) (clamp_k (nb_N b) k) s ps delay g)
    in Hfill.
  eexists. split; [apply (build_input_rows b k time_offs s ps delay g st);
                   [exact Hm|exact Hk|exact Hfill]|].
  intros i j Hi Hj. cbn [e_times e_indices].
  assert (Hx : (i * s + j < nb_m b * s)%nat) by nia.
  rewrite !nth_map_seq by exact Hx.
  destruct (sorted_row_spec (enc_min_t st) time_offs
              (nth (i * s + j) (enc_T st) []) (nth (i * s + j) (enc_K st) [])
              (Hlen _)) as (_ & _ & Hp & Hl).
  unfold out_row. split; [|exact Hl].
  rewrite (Permutation_length Hp), length_map.
  rewrite (fill_matrices_row_length _ _ _ _ _ _ _ _ _ Hfill) by nia.
  rewrite div_row by exact Hj. now apply cost_all_eq.
Qed.

Lemma build_input_spike_counts_witness :
  exists e,
    @build_input constant_source example_two_samples (-1) 0 1
      [default_input] 10 tt = Ok e /\
    forall i j, (i < nb_m example_two_samples)%nat -> (j < 1)%nat ->
      length (nth (i * 1 + j) (e_times e) []) =
        (list_sum (map burst_size [default_input]) *
         active_samples (mat_in example_two_samples)
           (clamp_k (nb_N example_two_samples) (-1)) i)%nat /\
      length (nth (i * 1 + j) (e_indices e) []) =
        length (nth (i * 1 + j) (e_times e) []).
Proof.
  apply (@build_input_spike_counts constant_source example_two_samples (-1) 0 1
           [default_input] 10 tt).
  - simpl. lia.
  - vm_compute. lia.
  - repeat constructor.
  - vm_compute. reflexivity.
Defined.

(** ** build_spike_train *)

Lemma sorted_leb_le (l : list Z) :
  StronglySorted (fun a b => (a <=? b) = true) l -> StronglySorted Z.le l.
Proof.
  induction 1 as [|x l Hs IH Hall]; constructor; auto.
  eapply Forall_impl; [|exact Hall]. simpl. intros a Ha. lia.
Qed.

(** An arithmetic progression with a non-negative step is ascending. *)
Lemma progression_sorted (offs step : Z) (a n : nat) :
  0 <= step ->
  StronglySorted (fun x y => (x <=? y) = true)
    (map (fun i => offs + Z.of_nat i * step + 0) (seq a n)).
Proof.
  intros Hstep. revert a. induction n as [|n IH]; intros a; simpl; constructor.
  - apply IH.
  - apply Forall_forall. intros y Hy. apply in_map_iff in Hy.
    destruct Hy as (i & <- & Hi). apply in_seq in Hi. apply Z.leb_le. nia.
Qed.

Section SpikeTrain.
Context `{RandomSource}.

Lemma burst_loop_no_jitter (p : InputParameters) (offs : Z) (js : list nat)
    (g : rng_state) :
  sigma_t p <= 0 ->
  burst_loop p offs js g =
    (map (fun i => offs + Z.of_nat i * isi p + 0) js, g).
Proof.
  intros Hs. induction js as [|i js IH]; simpl; [reflexivity|].
  replace (0 <? sigma_t p) with false by lia. rewrite IH. reflexivity.
Qed.

(** Without jitter no random number is drawn. *)
Lemma build_spike_train_gen (p : InputParameters) (offs : Z) (g : rng_state) :
  sigma_t p <= 0 -> sigma_t_offs p <= 0 ->
  snd (build_spike_train p offs g) = g.
Proof.
  intros Hs Ho. unfold build_spike_train.
  replace (0 <? sigma_t_offs p) with false by lia.
  now rewrite (burst_loop_no_jitter p offs _ g Hs).
Qed.

(** X3: a spike train has [burst_size] spikes, in ascending order, whatever
    the parameters and the random draws are. *)
Theorem build_spike_train_ascending (p : InputParameters) (offs : Z)
    (g : rng_state) :
  length (fst (build_spike_train p offs g)) = burst_size p /\
  StronglySorted Z.le (fst (build_spike_train p offs g)).
Proof.
  split; [apply build_spike_train_length|].
  unfold build_spike_train.
  destruct (if 0 <? sigma_t_offs p then normal offs (sigma_t_offs p) g
            else (offs, g)) as [offs' g0].
  destruct (burst_loop p offs' (seq 0 (burst_size p)) g0) as [res g1].
  cbn [fst]. apply sorted_leb_le.
  apply stable_sort_sorted; [apply Zleb_total|apply Zleb_trans].
Qed.

(** X4: with both jitters switched off ([sigma_t <= 0], [sigma_t_offs <= 0]),
    a non-negative inter-spike interval and times within 2^53 in magnitude
    (where binary64 computes them exactly), the train is
    [offs, offs + isi, ..., offs + (burst_size - 1) * isi] and the random
    generator is left as it was. *)
Theorem build_spike_train_without_jitter (p : InputParameters) (offs : Z)
    (g : rng_state) :
  sigma_t p <= 0 -> sigma_t_offs p <= 0 -> 0 <= isi p ->
  Z.abs offs + Z.of_nat (burst_size p) * isi p <= 9007199254740992 ->
  build_spike_train p offs g =
    (map (fun i => offs + Z.of_nat i * isi p) (seq 0 (burst_size p)), g).
Proof.
  intros Hs Ho Hisi _. unfold build_spike_train.
  replace (0 <? sigma_t_offs p) with false by lia.
  rewrite (burst_loop_no_jitter p offs _ g Hs).
  rewrite stable_sort_id by now apply progression_sorted.
  f_equal. apply map_ext. intros i. lia.
Qed.
End SpikeTrain.

Lemma build_spike_train_without_jitter_witness :
  @build_spike_train constant_source (mkInput 3 100 2 0 0) 5 tt =
    (map (fun i => 5 + Z.of_nat i * isi (mkInput 3 100 2 0 0))
         (seq 0 (burst_size (mkInput 3 100 2 0 0))), tt).
Proof.
  apply (@build_spike_train_without_jitter constant_source
           (mkInput 3 100 2 0 0) 5 tt); simpl; lia.
Defined.

(** ** build_input without jitter draws no random number *)

Section NoJitter.
Context `{RandomSource}.
Variable g : rng_state.

Lemma enc_neuron_gen (p : InputParameters) (s i j : nat) (st st' : enc_state) :
  sigma_t p <= 0 -> sigma_t_offs p <= 0 ->
  enc_neuron p s i st j = Ok st' -> enc_gen st = g -> enc_gen st' = g.
Proof.
  intros Hs Ho E Hg. unfold enc_neuron in E.
  pose proof (build_spike_train_gen p (enc_t st) (enc_gen st) Hs Ho) as Hgen.
  destruct (build_spike_train p (enc_t st) (enc_gen st)) as [train g1].
  simpl in Hgen. destruct (py_min train) as [mt|e]; [|discriminate].
  simpl in E. injection E as <-. cbn [enc_gen]. now rewrite Hgen.
Qed.

Lemma enc_input_gen (X : list (list bool)) (p : InputParameters) (s l i : nat)
    (st st' : enc_state) :
  sigma_t p <= 0 -> sigma_t_offs p <= 0 ->
  enc_input X p s l st i = Ok st' -> enc_gen st = g -> enc_gen st' = g.
Proof.
  intros Hs Ho E Hg. unfold enc_input in E.
  destruct (nth i (nth l X []) false).
  - apply (foldM_preserves (fun st => enc_gen st = g) _ _
             (fun st0 j st1 _ => enc_neuron_gen p s i j st0 st1 Hs Ho)
             st st' E Hg).
  - injection E as <-. exact Hg.
Qed.

Lemma enc_sample_gen (X : list (list bool)) (m : nat) (p : InputParameters)
    (s l : nat) (st st' : enc_state) :
  sigma_t p <= 0 -> sigma_t_offs p <= 0 ->
  enc_sample X m p s st l = Ok st' -> enc_gen st = g -> enc_gen st' = g.
Proof.
  intros Hs Ho E Hg. unfold enc_sample in E.
  destruct (foldM (enc_input X p s l) (seq 0 m) st) as [st1|e] eqn:E1;
    [|discriminate].
  simpl in E. injection E as <-. cbn [enc_gen].
  apply (foldM_preserves (fun st => enc_gen st = g) _ _
           (fun st0 i st2 _ => enc_input_gen X p s l i st0 st2 Hs Ho)
           st st1 E1 Hg).
Qed.

Lemma enc_params_gen (X : list (list bool)) (m k s : nat) (delay : Z)
    (p : InputParameters) (st st' : enc_state) :
  sigma_t p <= 0 -> sigma_t_offs p <= 0 ->
  enc_params X m k s delay st p = Ok st' -> enc_gen st = g -> enc_gen st' = g.
Proof.
  intros Hs Ho E Hg. unfold enc_params in E.
  destruct (foldM (enc_sample X m p s) (seq 0 k) st) as [st1|e] eqn:E1;
    [|discriminate].
  simpl in E. injection E as <-. cbn [enc_gen].
  apply (foldM_preserves (fun st => enc_gen st = g) _ _
           (fun st0 l st2 _ => enc_sample_gen X m p s l st0 st2 Hs Ho)
           st st1 E1 Hg).
Qed.

(** X5: when no parameter set asks for jitter, encoding draws no random
    number: [build_input] succeeds (given an input bit, a sample and bursts
    of at least one spike) and leaves the generator in the state it found. *)
Theorem build_input_without_jitter_keeps_generator (b : NetworkBuilder)
    (k time_offs : Z) (s : nat) (ps : list InputParameters) (delay : Z) :
  (0 < nb_m b)%nat -> (0 < clamp_k (nb_N b) k)%nat ->
  Forall (fun p => (0 < burst_size p)%nat) ps ->
  Forall (fun p => sigma_t p <= 0 /\ sigma_t_offs p <= 0) ps ->
  exists e, build_input b k time_offs s ps delay g = Ok e /\ e_gen e = g.
Proof.
  intros Hm Hk Hb Hj.
  destruct (enc_all_inv (s * nb_m b) (mat_in b) ps s (nb_m b)
              (clamp_k (nb_N b) k) delay
              (mkEnc (repeat [] (s * nb_m b)%nat) (repeat [] (s * nb_m b)%nat)
                     None 0 0 g) Hb eq_refl (enc_inv_init _ g))
    as (st & Hfill & _).
  eexists. split; [apply (build_input_rows b k time_offs s ps delay g st);
                   [exact Hm|exact Hk|exact Hfill]|].
  cbn [e_gen]. rewrite Forall_forall in Hj.
  apply (foldM_preserves (fun st => enc_gen st = g) _ _
           (fun st0 p st2 Hp =>
              enc_params_gen (mat_in b) (nb_m b) (clamp_k (nb_N b) k) s delay
                p st0 st2 (proj1 (Hj p Hp)) (proj2 (Hj p Hp)))
           _ st Hfill).
  reflexivity.
Qed.
End NoJitter.

Lemma build_input_without_jitter_keeps_generator_witness :
  exists e,
    @build_input constant_source example_two_samples (-1) 0 1
      [default_input] 10 tt = Ok e /\ e_gen e = tt.
Proof.
  apply (@build_input_without_jitter_keeps_generator constant_source tt
           example_two_samples (-1) 0 1 [default_input] 10).
  - simpl. lia.
  - vm_compute. lia.
  - repeat constructor.
  - repeat constructor; simpl; lia.
Defined.

(** ** flaten: what it returns and when it fails *)

Lemma flaten_unit_tagged (i : nat) (ts ks : list Z) :
  length ts = length ks -> Forall int32_range ks ->
  flaten_unit i ts ks =
    Ok (map (fun tk => mkSpike (fst tk) (snd tk) i) (combine ts ks)).
Proof.
  revert ks. induction ts as [|t ts IH]; intros [|k ks] Hlen Hr; simpl in *;
    try discriminate; [reflexivity|].
  inversion Hr as [|? ? Hk Hks]; subst.
  rewrite (to_int32_in_range k Hk). cbn [bind].
  rewrite IH by (assumption || lia). reflexivity.
Qed.

Lemma flaten_loop_tagged (times indices : list (list Z)) :
  parallel times indices -> fits_int32 indices ->
  forall i0, flaten_loop i0 times indices = Ok (tagged i0 times indices).
Proof.
  induction 1 as [|ts ks times indices Hlen Hrest IH]; intros Hfit i0; simpl;
    [reflexivity|].
  inversion Hfit as [|? ? Hks Hfit']; subst.
  rewrite flaten_unit_tagged by assumption. cbn [bind].
  now rewrite IH.
Qed.

(** X6: on parallel trains of at least one and at most 2^31 units, with
    sample indices that fit the int32 array, [flaten] returns every spike exactly once, with its
    sample index and the number of its unit, and the flat arrays are in
    ascending spike time -- also with [sort_by_sample], whose primary sort
    key is the time. *)
Theorem flaten_every_spike_once (times indices : list (list Z))
    (sort_by_sample : bool) :
  parallel times indices -> fits_int32 indices -> times <> [] ->
  Z.of_nat (length times) <= 2147483648 ->
  exists fl,
    flaten times indices sort_by_sample =
      Ok (map sp_t fl, map sp_k fl, map sp_n fl) /\
    Permutation fl (tagged 0 times indices) /\
    StronglySorted Z.le (map sp_t fl).
Proof.
  intros Hpar Hfit Hne _. unfold flaten, flaten_spikes.
  destruct times as [|ts times]; [congruence|].
  rewrite (flaten_loop_tagged _ _ Hpar Hfit 0%nat). cbn [bind].
  set (flat := tagged 0 (ts :: times) indices).
  destruct sort_by_sample.
  - exists (stable_sort lex_leb flat). split; [reflexivity|]. split.
    + apply Permutation_sym, stable_sort_perm.
    + apply sorted_map_key with (leb := lex_leb).
      * unfold lex_leb. intros a b. lia.
      * apply stable_sort_sorted; [apply lex_leb_total|apply lex_leb_trans].
  - exists (stable_sort time_leb flat). split; [reflexivity|]. split.
    + apply Permutation_sym, stable_sort_perm.
    + apply sorted_map_key with (leb := time_leb).
      * unfold time_leb. intros a b. lia.
      * apply stable_sort_sorted; [apply time_leb_total|apply time_leb_trans].
Qed.

Lemma flaten_every_spike_once_witness :
  exists fl,
    flaten [[0; 10]; [5]] [[0; 1]; [0]] true =
      Ok (map sp_t fl, map sp_k fl, map sp_n fl) /\
    Permutation fl (tagged 0 [[0; 10]; [5]] [[0; 1]; [0]]) /\
    StronglySorted Z.le (map sp_t fl).
Proof.
  apply (flaten_every_spike_once [[0; 10]; [5]] [[0; 1]; [0]] true).
  - repeat constructor.
  - int32.
  - discriminate.
  - simpl. lia.
Defined.

Lemma flaten_unit_result (i : nat) (ts ks : list Z) :
  Forall int32_range ks ->
  match flaten_unit i ts ks with
  | Ok _ => (length ts <= length ks)%nat
  | Raise e => e = IndexError /\ (length ks < length ts)%nat
  end.
Proof.
  revert ks. induction ts as [|t ts IH]; intros ks Hr; simpl; [lia|].
  destruct ks as [|k ks]; simpl; [split; [reflexivity|lia]|].
  inversion Hr as [|? ? Hk Hks]; subst.
  rewrite (to_int32_in_range k Hk). cbn [bind].
  specialize (IH ks Hks). destruct (flaten_unit i ts ks); simpl; [lia|].
  destruct IH. split; [assumption|lia].
Qed.

Lemma flaten_loop_result (i0 : nat) (times indices : list (list Z)) :
  fits_int32 indices ->
  match flaten_loop i0 times indices with
  | Ok _ => covers times indices = true
  | Raise e => e = IndexError /\ covers times indices = false
  end.
Proof.
  revert i0 indices. induction times as [|ts times IH]; intros i0 indices Hfit;
    simpl; [reflexivity|].
  assert (Hhd : Forall int32_range (hd [] indices))
    by (destruct Hfit; [constructor|assumption]).
  assert (Htl : fits_int32 (tl indices))
    by (destruct Hfit; [constructor|assumption]).
  pose proof (flaten_unit_result i0 ts (hd [] indices) Hhd) as Hu.
  destruct (flaten_unit i0 ts (hd [] indices)) as [row|e]; simpl.
  - apply Nat.leb_le in Hu. rewrite Hu. simpl.
    specialize (IH (S i0) (tl indices) Htl).
    destruct (flaten_loop (S i0) times (tl indices)); simpl; exact IH.
  - destruct Hu as [-> Hu]. split; [reflexivity|].
    apply Nat.leb_gt in Hu. now rewrite Hu.
Qed.

(** X7: with sample indices that fit the int32 array, [flaten] fails in
    exactly two ways.  Without any unit it raises TypeError (the [reduce] of
    an empty sequence); with units of which one has fewer sample indices than
    spike times it raises IndexError; in every other case it returns
    (surplus sample indices are ignored). *)
Theorem flaten_failures (times indices : list (list Z)) (sort_by_sample : bool) :
  fits_int32 indices ->
  match flaten times indices sort_by_sample with
  | Ok _ => times <> [] /\ covers times indices = true
  | Raise TypeError => times = []
  | Raise IndexError => times <> [] /\ covers times indices = false
  | Raise _ => False
  end.
Proof.
  intros Hfit. unfold flaten, flaten_spikes.
  destruct times as [|ts times]; [reflexivity|].
  pose proof (flaten_loop_result 0 (ts :: times) indices Hfit) as Hl.
  destruct (flaten_loop 0 (ts :: times) indices) as [flat|e]; cbn [bind].
  - split; [discriminate|exact Hl].
  - destruct Hl as [-> Hl]. split; [discriminate|exact Hl].
Qed.

Lemma flaten_failures_witness :
  fits_int32 [[0]; [0; 1]] /\
  flaten [[0; 10]; [5]] [[0]; [0; 1]] false = Raise IndexError /\
  covers [[0; 10]; [5]] [[0]; [0; 1]] = false.
Proof.
  assert (Hfit : fits_int32 [[0]; [0; 1]]) by int32.
  split; [exact Hfit|].
  pose proof (flaten_failures [[0; 10]; [5]] [[0]; [0; 1]] false Hfit) as Hf.
  split; [reflexivity|]. vm_compute in Hf. exact (proj2 Hf).
Defined.

(** ** match_static keeps the order of the samples *)

(** When the spikes of a later sample are strictly later, the matcher is
    monotone in the time of the output spike. *)
Lemma matched_monotone (P : list (Z * Z)) (t1 r1 t2 r2 : Z) :
  sample_monotone P -> matched P t1 r1 -> matched P t2 r2 -> t1 <= t2 ->
  r1 <= r2.
Proof.
  intros Hmono H1 H2 Hle.
  destruct (Z_le_gt_dec r1 r2) as [|Hgt]; [assumption|exfalso].
  assert (Hlt : forall a b, In (a, r2) P -> In (b, r1) P -> a < b).
  { intros a b Ha Hb. apply (Hmono a r2 b r1 Ha Hb). lia. }
  destruct H1 as [(a1 & Hin1 & Hb1 & Hmax1)|(Hnone1 & a1 & Hin1 & Hmin1)],
           H2 as [(a2 & Hin2 & Hb2 & Hmax2)|(Hnone2 & a2 & Hin2 & Hmin2)].
  - specialize (Hlt _ _ Hin2 Hin1).
    specialize (Hmax2 a1 r1 Hin1). lia.
  - specialize (Hnone2 a1 r1 Hin1). lia.
  - specialize (Hlt _ _ Hin2 Hin1). specialize (Hmin1 a2 r2 Hin2). lia.
  - specialize (Hlt _ _ Hin2 Hin1). specialize (Hmin1 a2 r2 Hin2). lia.
Qed.

Lemma pooled_map_In (f : Z -> Z) (times : list (list Z)) (t k : Z) :
  In (t, k) (pooled times (map (map f) times)) -> k = f t.
Proof.
  unfold pooled. induction times as [|ts times IH]; simpl; [tauto|].
  rewrite in_app_iff. intros [Hin|Hin]; [|exact (IH Hin)].
  clear IH. induction ts as [|a ts IH]; simpl in Hin; [tauto|].
  destruct Hin as [E|Hin]; [inversion E; reflexivity|exact (IH Hin)].
Qed.

(** X8: when the input spikes of a later sample are strictly later than
    those of an earlier sample (parallel input trains of at least one unit,
    sample indices that fit the int32 array), [match_static] gives a later
    output spike never an earlier sample: over all output units, [t1 <= t2]
    implies [k1 <= k2] for the sample indices assigned. *)
Theorem match_static_monotone (input_times input_indices output : list (list Z)) :
  parallel input_times input_indices -> fits_int32 input_indices ->
  input_times <> [] ->
  sample_monotone (pooled input_times input_indices) ->
  exists output_times output_indices,
    match_static input_times input_indices output =
      Ok (output_times, output_indices) /\
    forall t1 k1 t2 k2,
      In (t1, k1) (pooled output_times output_indices) ->
      In (t2, k2) (pooled output_times output_indices) ->
      t1 <= t2 -> k1 <= k2.
Proof.
  intros Hpar Hfit Hne Hmono.
  destruct (match_static_parallel input_times input_indices output Hpar Hfit
              Hne)
    as (fl & Hperm & Hs & Hm).
  do 2 eexists. split; [exact Hm|].
  intros t1 k1 t2 k2 H1 H2 Hle.
  apply pooled_map_In in H1, H2. subst k1 k2.
  destruct fl as [|sp fl].
  - reflexivity.
  - assert (Hmatched : forall t,
              matched (pooled input_times input_indices) t
                (match_index (map sp_t (sp :: fl)) (map sp_k (sp :: fl)) t)).
    { intros t. apply matched_ext with (P := map spike_pair (sp :: fl)).
      - intros x. split; apply Permutation_in;
          [|apply Permutation_sym]; exact Hperm.
      - rewrite <- spike_pair_fst, <- spike_pair_snd.
        apply match_index_sorted; [now rewrite spike_pair_fst|discriminate]. }
    exact (matched_monotone _ _ _ _ _ Hmono (Hmatched t1) (Hmatched t2) Hle).
Qed.

Lemma match_static_monotone_witness :
  exists output_times output_indices,
    match_static [[0; 10]] [[0; 1]] [[]; [5; 20]] =
      Ok (output_times, output_indices) /\
    forall t1 k1 t2 k2,
      In (t1, k1) (pooled output_times output_indices) ->
      In (t2, k2) (pooled output_times output_indices) ->
      t1 <= t2 -> k1 <= k2.
Proof.
  apply (match_static_monotone [[0; 10]] [[0; 1]] [[]; [5; 20]]).
  - repeat constructor.
  - int32.
  - discriminate.
  - intros t1 k1 t2 k2 H1 H2. simpl in H1, H2.
    destruct H1 as [E1|[E1|[]]], H2 as [E2|[E2|[]]];
      inversion E1; inversion E2; lia.
Defined.

(** ** calculate_latencies when time and sample order agree *)

(** In arrays ordered by time and by sample, [bisect_right] finds the latest
    spike of a sample. *)
Lemma sample_last (P : list (Z * Z)) (k : Z) :
  StronglySorted Z.le (map fst P) -> StronglySorted Z.le (map snd P) ->
  let r := bisect_right (map snd P) k in
  ((r = 0)%nat \/ nth (r - 1) (map snd P) 0 <> k -> forall t, ~ In (t, k) P) /\
  ((0 < r)%nat -> nth (r - 1) (map snd P) 0 = k ->
   last_of P k (nth (r - 1) (map fst P) 0)).
Proof.
  intros Ht Hk r.
  destruct (bisect_right_spec (map snd P) k Hk) as (Hr & Hlo & Hhi).
  fold r in Hr, Hlo, Hhi. rewrite length_map in Hr, Hhi. split.
  - intros Hcase t Hin. destruct (In_pair_nth P t k Hin) as (i & Hi & _ & Ek).
    destruct (Nat.lt_ge_cases i r) as [Hlt|Hge].
    + destruct Hcase as [E|Hne]; [lia|].
      pose proof (sorted_nth (map snd P) Hk i (r - 1)%nat) as Hs.
      rewrite length_map in Hs.
      pose proof (Hlo (r - 1)%nat). lia.
    + specialize (Hhi i Hge Hi). lia.
  - intros Hpos Ek. split.
    + pose proof (nth_pair_In P (r - 1)%nat ltac:(lia)) as Hn.
      rewrite Ek in Hn. exact Hn.
    + intros t' Hin. destruct (In_pair_nth P t' k Hin) as (i & Hi & Et & Ek').
      destruct (Nat.lt_ge_cases i r) as [Hlt|Hge].
      * rewrite <- Et. apply (sorted_nth (map fst P) Ht); [lia|].
        rewrite length_map. lia.
      * specialize (Hhi i Hge Hi). lia.
Qed.

Lemma latency_of_spec (Pin Pout : list (Z * Z)) (k : Z) :
  StronglySorted Z.le (map fst Pin) -> StronglySorted Z.le (map snd Pin) ->
  StronglySorted Z.le (map fst Pout) -> StronglySorted Z.le (map snd Pout) ->
  let lat := latency_of (map fst Pin) (map snd Pin)
                        (map fst Pout) (map snd Pout) k in
  (forall tin tout, last_of Pin k tin -> last_of Pout k tout ->
                    lat = Finite (tout - tin)) /\
  ((forall t, ~ In (t, k) Pin) \/ (forall t, ~ In (t, k) Pout) ->
   lat = Infinite).
Proof.
  intros HtI HkI HtO HkO lat. subst lat. unfold latency_of.
  destruct (sample_last Pin k HtI HkI) as [HnoI HlastI].
  destruct (sample_last Pout k HtO HkO) as [HnoO HlastO].
  set (rI := bisect_right (map snd Pin) k) in *.
  set (rO := bisect_right (map snd Pout) k) in *.
  replace (Z.to_nat (Z.of_nat rI - 1)) with (rI - 1)%nat by lia.
  replace (Z.to_nat (Z.of_nat rO - 1)) with (rO - 1)%nat by lia.
  destruct (Z.of_nat rI - 1 <? 0) eqn:EI; cbn [orb].
  { apply Z.ltb_lt in EI. split; [|reflexivity].
    intros tin tout [HinI _] _. exfalso.
    assert (E0 : rI = 0%nat) by lia.
    apply (HnoI (or_introl E0) tin HinI). }
  apply Z.ltb_ge in EI.
  destruct (Z.of_nat rO - 1 <? 0) eqn:EO; cbn [orb].
  { apply Z.ltb_lt in EO. split; [|reflexivity].
    intros tin tout _ [HinO _]. exfalso.
    assert (E0 : rO = 0%nat) by lia.
    apply (HnoO (or_introl E0) tout HinO). }
  apply Z.ltb_ge in EO.
  destruct (nth (rI - 1) (map snd Pin) 0 =? k) eqn:EkI; cbn [negb orb].
  2:{ apply Z.eqb_neq in EkI. split; [|reflexivity].
      intros tin tout [HinI _] _. exfalso.
      apply (HnoI (or_intror EkI) tin HinI). }
  apply Z.eqb_eq in EkI.
  destruct (nth (rO - 1) (map snd Pout) 0 =? k) eqn:EkO; cbn [negb orb].
  2:{ apply Z.eqb_neq in EkO. split; [|reflexivity].
      intros tin tout _ [HinO _]. exfalso.
      apply (HnoO (or_intror EkO) tout HinO). }
  apply Z.eqb_eq in EkO.
  assert (HposI : (0 < rI)%nat) by lia.
  assert (HposO : (0 < rO)%nat) by lia.
  destruct (HlastI HposI EkI) as [HinI HmaxI].
  destruct (HlastO HposO EkO) as [HinO HmaxO].
  split.
  - intros tin tout [HinI' HmaxI'] [HinO' HmaxO'].
    specialize (HmaxI _ HinI'). specialize (HmaxI' _ HinI).
    specialize (HmaxO _ HinO'). specialize (HmaxO' _ HinO).
    f_equal. lia.
  - intros [Hno|Hno]; exfalso; [exact (Hno _ HinI)|exact (Hno _ HinO)].
Qed.

(** With [sort_by_sample] and spikes whose time order agrees with their
    sample order, the flat arrays are ordered by time and by sample. *)
Lemma flaten_sample_sorted (times indices : list (list Z)) :
  parallel times indices -> fits_int32 indices -> times <> [] ->
  causal_order (pooled times indices) ->
  exists P ns,
    flaten times indices true = Ok (map fst P, map snd P, ns) /\
    (forall x, In x P <-> In x (pooled times indices)) /\
    StronglySorted Z.le (map fst P) /\ StronglySorted Z.le (map snd P).
Proof.
  intros Hpar Hfit Hne Hc.
  destruct (flaten_by_sample times indices Hpar Hfit Hne)
    as (flat & Hfl & Hflat).
  destruct (flaten_loop_parallel times indices Hpar Hfit 0%nat)
    as (fl & Hfl' & Hp).
  rewrite Hfl in Hfl'. inversion Hfl'; subst fl. clear Hfl'.
  set (srt := stable_sort lex_leb flat) in *.
  assert (Hperm : Permutation (map spike_pair srt) (pooled times indices)).
  { rewrite <- Hp. apply Permutation_map, Permutation_sym, stable_sort_perm. }
  assert (Hsorted : StronglySorted (fun a b => lex_leb a b = true) srt).
  { apply stable_sort_sorted; [apply lex_leb_total|apply lex_leb_trans]. }
  exists (map spike_pair srt), (map sp_n srt).
  rewrite spike_pair_fst, spike_pair_snd.
  split; [exact Hflat|]. split; [|split].
  - intros x. split; apply Permutation_in; [|apply Permutation_sym]; exact Hperm.
  - apply sorted_map_key with (leb := lex_leb); [|exact Hsorted].
    unfold lex_leb. intros a b. lia.
  - apply lex_sorted_by_sample; [exact Hsorted|].
    apply (causal_order_ext (pooled times indices)); [|exact Hc].
    intros x. apply Permutation_in. exact Hperm.
Qed.

Lemma last_of_ext (P P' : list (Z * Z)) (k t : Z) :
  (forall x, In x P <-> In x P') -> last_of P k t -> last_of P' k t.
Proof.
  intros HP [Hin Hmax]. split; [now apply HP|].
  intros t' Hin'. apply Hmax. now apply HP.
Qed.

(** X9: for an analysis unit whose input and output spikes are in causal
    order (a later spike never belongs to an earlier sample), whose sample
    indices fit the int32 arrays, whose input sample indices are not negative
    and whose spike times are at most 2^52 in magnitude (so that binary64
    subtracts them exactly), [calculate_latencies] returns one entry
    for each sample up to the largest input sample index [m]; the entry of
    sample [k] is the time from the latest input spike of [k] to the latest
    output spike of [k], and infinity when [k] has no input or no output
    spike. *)
Theorem calculate_latencies_causal (a : NetworkAnalysis) :
  parallel (a_input_times a) (a_input_indices a) ->
  parallel (a_output_times a) (a_output_indices a) ->
  fits_int32 (a_input_indices a) -> fits_int32 (a_output_indices a) ->
  a_output_times a <> [] ->
  pooled (a_input_times a) (a_input_indices a) <> [] ->
  (forall t k, In (t, k) (pooled (a_input_times a) (a_input_indices a)) ->
               0 <= k /\ Z.abs t <= 4503599627370496) ->
  (forall t k, In (t, k) (pooled (a_output_times a) (a_output_indices a)) ->
               Z.abs t <= 4503599627370496) ->
  causal_order (pooled (a_input_times a) (a_input_indices a)) ->
  causal_order (pooled (a_output_times a) (a_output_indices a)) ->
  exists lat m,
    calculate_latencies a = Ok lat /\
    (exists t, In (t, m) (pooled (a_input_times a) (a_input_indices a))) /\
    (forall t k, In (t, k) (pooled (a_input_times a) (a_input_indices a)) ->
                 k <= m) /\
    length lat = Z.to_nat (m + 1) /\
    forall k, 0 <= k <= m ->
      (forall tin tout,
         last_of (pooled (a_input_times a) (a_input_indices a)) k tin ->
         last_of (pooled (a_output_times a) (a_output_indices a)) k tout ->
         nth (Z.to_nat k) lat Infinite = Finite (tout - tin)) /\
      ((forall t, ~ In (t, k) (pooled (a_input_times a) (a_input_indices a)))
       \/ (forall t, ~ In (t, k)
                       (pooled (a_output_times a) (a_output_indices a))) ->
       nth (Z.to_nat k) lat Infinite = Infinite).
Proof.
  intros HparI HparO HfitI HfitO HneO HneP Hnonneg _ HcI HcO.
  assert (HneI : a_input_times a <> []).
  { intros E. apply HneP. now rewrite E. }
  destruct (flaten_sample_sorted _ _ HparI HfitI HneI HcI)
    as (Pin & nsI & HfI & HinI & HtI & HkI).
  destruct (flaten_sample_sorted _ _ HparO HfitO HneO HcO)
    as (Pout & nsO & HfO & HinO & HtO & HkO).
  assert (HneK : map snd Pin <> []).
  { destruct Pin as [|x Pin]; [|discriminate]. exfalso.
    destruct (pooled (a_input_times a) (a_input_indices a)) as [|y l];
      [now apply HneP|].
    apply (proj2 (HinI y)). now left. }
  destruct (py_max_spec _ HneK) as (m & Hmax & Hm & Hub).
  apply in_map_iff in Hm. destruct Hm as ((tm, km) & Em & Hm).
  simpl in Em. subst km.
  assert (Hm0 : 0 <= m) by (apply (Hnonneg tm), HinI, Hm).
  exists (map (latency_of (map fst Pin) (map snd Pin)
                          (map fst Pout) (map snd Pout)) (zrange (m + 1))), m.
  split; [|split; [|split; [|split]]].
  - unfold calculate_latencies. rewrite HfI. cbn [bind]. rewrite HfO.
    cbn [bind]. rewrite Hmax. cbn [bind].
    replace (m + 1 <? 0) with false by lia. reflexivity.
  - exists tm. apply HinI, Hm.
  - intros t k Hin. apply Hub. apply HinI in Hin.
    apply (in_map snd) in Hin. exact Hin.
  - unfold zrange. now rewrite !length_map, length_seq.
  - intros k Hk. rewrite zrange_nth by lia.
    destruct (latency_of_spec Pin Pout k HtI HkI HtO HkO) as [Hfin Hinf].
    split.
    + intros tin tout HlI HlO. apply Hfin.
      * apply (last_of_ext (pooled (a_input_times a) (a_input_indices a)));
          [|exact HlI].
        intros x. symmetry. apply HinI.
      * apply (last_of_ext (pooled (a_output_times a) (a_output_indices a)));
          [|exact HlO].
        intros x. symmetry. apply HinO.
    + intros [Hno|Hno]; apply Hinf; [left|right]; intros t Hin;
        apply (Hno t); [apply HinI|apply HinO]; exact Hin.
Qed.

Lemma calculate_latencies_causal_witness :
  exists lat m,
    calculate_latencies example_analysis = Ok lat /\
    (exists t, In (t, m) (pooled (a_input_times example_analysis)
                                 (a_input_indices example_analysis))) /\
    (forall t k, In (t, k) (pooled (a_input_times example_analysis)
                                   (a_input_indices example_analysis)) ->
                 k <= m) /\
    length lat = Z.to_nat (m + 1) /\
    forall k, 0 <= k <= m ->
      (forall tin tout,
         last_of (pooled (a_input_times example_analysis)
                         (a_input_indices example_analysis)) k tin ->
         last_of (pooled (a_output_times example_analysis)
                         (a_output_indices example_analysis)) k tout ->
         nth (Z.to_nat k) lat Infinite = Finite (tout - tin)) /\
      ((forall t, ~ In (t, k) (pooled (a_input_times example_analysis)
                                      (a_input_indices example_analysis)))
       \/ (forall t, ~ In (t, k)
                       (pooled (a_output_times example_analysis)
                               (a_output_indices example_analysis))) ->
       nth (Z.to_nat k) lat Infinite = Infinite).
Proof.
  apply (calculate_latencies_causal example_analysis).
  - repeat constructor.
  - repeat constructor.
  - int32.
  - int32.
  - discriminate.
  - discriminate.
  - intros t k H. simpl in H. destruct H as [E|[E|[]]]; inversion E; lia.
  - intros t k H. simpl in H. destruct H as [E|[E|[]]]; inversion E; lia.
  - intros t1 k1 t2 k2 H1 H2. simpl in H1, H2.
    destruct H1 as [E1|[E1|[]]], H2 as [E2|[E2|[]]];
      inversion E1; inversion E2; lia.
  - intros t1 k1 t2 k2 H1 H2. simpl in H1, H2.
    destruct H1 as [E1|[E1|[]]], H2 as [E2|[E2|[]]];
      inversion E1; inversion E2; lia.
Defined.

(** ** build_topology trains incrementally *)

(** X10: as long as [k] does not shrink, the cached memory is the one
    trained on the samples [0 .. last_k - 1] in order: a call on a fresh
    builder, or on a builder whose memory is trained up to [last_k], with
    [k] at least [last_k] (after clamping) leaves the memory trained up to
    the new [last_k], which is the clamped [k]; the matrices are not
    touched. *)
Theorem build_topology_incremental (b : NetworkBuilder) (k : Z) :
  (mem b = None /\ last_k b = 0%nat) \/
  mem b = Some (trained_up_to b (last_k b)) ->
  (last_k b <= clamp_k (nb_N b) k)%nat ->
  mem (build_topology b k) =
    Some (trained_up_to (build_topology b k) (last_k (build_topology b k))) /\
  last_k (build_topology b k) = clamp_k (nb_N b) k /\
  mat_in (build_topology b k) = mat_in b /\
  mat_out (build_topology b k) = mat_out b.
Proof.
  intros Hmem Hle.
  assert (E : forall j, trained_up_to (build_topology b k) j = trained_up_to b j)
    by reflexivity.
  assert (El : last_k (build_topology b k) = clamp_k (nb_N b) k) by reflexivity.
  rewrite E, El. split; [|repeat split].
  destruct Hmem as [[Hm Hl]|Hm].
  - apply build_topology_first; assumption.
  - apply build_topology_grow; assumption.
Qed.

Lemma build_topology_incremental_witness :
  mem (build_topology (build_topology example_builder 1) 2) =
    Some (trained_up_to (build_topology (build_topology example_builder 1) 2)
            (last_k (build_topology (build_topology example_builder 1) 2))) /\
  last_k (build_topology (build_topology example_builder 1) 2) =
    clamp_k (nb_N (build_topology example_builder 1)) 2 /\
  mat_in (build_topology (build_topology example_builder 1) 2) =
    mat_in (build_topology example_builder 1) /\
  mat_out (build_topology (build_topology example_builder 1) 2) =
    mat_out (build_topology example_builder 1).
Proof.
  apply (build_topology_incremental (build_topology example_builder 1) 2).
  - right. reflexivity.
  - vm_compute. lia.
Defined.

(** ** NetworkPool: any number of networks *)

Lemma slice_app_mid {A : Type} (l1 l2 l3 : list A) (a b : nat) :
  a = length l1 -> b = (a + length l2)%nat -> slice (l1 ++ l2 ++ l3) a b = l2.
Proof.
  intros -> ->. unfold slice.
  rewrite skipn_app, skipn_all, Nat.sub_diag. simpl.
  replace (length l1 + length l2 - length l1)%nat with (length l2) by lia.
  rewrite firstn_app, Nat.sub_diag, firstn_all. simpl. apply app_nil_r.
Qed.

(** The pool after [add_networks]: everything is appended in order, the
    connections re-based, the split descriptors are the running totals. *)
Lemma add_networks_fields (pool : NetworkPool) (nets : list NetworkInstance) :
  p_populations (add_networks pool nets) =
    p_populations pool ++ concat (map populations nets) /\
  p_input_times (add_networks pool nets) =
    p_input_times pool ++ concat (map input_times nets) /\
  p_input_indices (add_networks pool nets) =
    p_input_indices pool ++ concat (map input_indices nets) /\
  p_input_split (add_networks pool nets) =
    p_input_split pool ++ map input_split nets /\
  p_spatial_split (add_networks pool nets) =
    p_spatial_split pool ++
    entries (length (p_populations pool)) (length (p_input_times pool)) nets.
Proof.
  revert pool. induction nets as [|net nets IH]; intros pool.
  - simpl. now rewrite !app_nil_r.
  - unfold add_networks. cbn [fold_left]. fold (add_networks (add_network pool net) nets).
    destruct (IH (add_network pool net)) as (Hp & Ht & Hi & Hs & Hsp).
    rewrite Hp, Ht, Hi, Hs, Hsp.
    cbn [add_network p_populations p_input_times p_input_indices p_input_split
         p_spatial_split map concat entries].
    rewrite !length_app, <- !app_assoc. repeat split; reflexivity.
Qed.

(** The demultiplexing loop on the descriptors of [nets], in a pool that
    holds them after a prefix. *)
Lemma pool_analysis_loop_entries (pool : NetworkPool)
    (nets : list NetworkInstance) :
  forall (outs : list (list (list Z))) (pre_o pre_t pre_i : list (list Z))
         (pre_s : list (list Z)),
    Forall2 (fun net out => length out = length (populations net)) nets outs ->
    Forall (fun net => length (input_indices net) = length (input_times net))
           nets ->
    length pre_i = length pre_t ->
    p_input_times pool = pre_t ++ concat (map input_times nets) ->
    p_input_indices pool = pre_i ++ concat (map input_indices nets) ->
    p_input_split pool = pre_s ++ map input_split nets ->
    pool_analysis_loop pool (pre_o ++ concat outs) (length pre_s)
      (mkSpatial (length pre_o) (length pre_t))
      (entries (length pre_o) (length pre_t) nets) =
    analyses nets outs.
Proof.
  induction nets as [|net nets IH];
    intros outs pre_o pre_t pre_i pre_s Hout Hpar Hpre Ht Hi Hs.
  - reflexivity.
  - inversion Hout as [|? out ? outs' Hlen Hrest]; subst.
    inversion Hpar as [|? ? Hlen' Hpar']; subst.
    cbn [entries pool_analysis_loop analyses ss_population ss_input].
    cbn [map concat] in Ht, Hi, Hs. cbn [concat].
    rewrite Ht, Hi, Hs.
    rewrite (slice_app_mid pre_t (input_times net)) by reflexivity.
    rewrite (slice_app_mid pre_i (input_indices net)) by lia.
    rewrite (slice_app_mid pre_o out) by lia.
    rewrite app_nth2, Nat.sub_diag by lia. cbn [nth].
    unfold build_analysis at 1.
    destruct (build_analysis_static (input_times net) (input_indices net) out
                (input_split net)) as [ra|e]; cbn [bind]; [|reflexivity].
    specialize (IH outs' (pre_o ++ out) (pre_t ++ input_times net)
                  (pre_i ++ input_indices net) (pre_s ++ [input_split net])).
    rewrite !length_app in IH. cbn [length] in IH.
    rewrite Hlen in IH.
    replace (length pre_s + 1)%nat with (S (length pre_s)) in IH by lia.
    rewrite <- !app_assoc in IH. rewrite IH; try assumption; try lia.
    reflexivity.
Qed.

(** X11: spatial demultiplexing inverts [add_networks] for any number of
    networks.  For a pool built from the empty pool by adding [nets] in
    order, and the outputs of the networks concatenated in the same order
    (one entry per population), the pool's analysis is the analysis of each
    network on its own output, one after the other; it fails where the first
    of them fails. *)
Theorem pool_build_analysis_demultiplexes (nets : list NetworkInstance)
    (outs : list (list (list Z))) :
  Forall2 (fun net out => length out = length (populations net)) nets outs ->
  Forall (fun net => length (input_indices net) = length (input_times net))
         nets ->
  pool_build_analysis (add_networks empty_pool nets) (concat outs) =
    analyses nets outs.
Proof.
  intros Hout Hpar. unfold pool_build_analysis.
  destruct (add_networks_fields empty_pool nets) as (_ & Ht & Hi & Hs & Hsp).
  rewrite Hsp. cbn [empty_pool p_populations p_input_times p_spatial_split
                    length app].
  apply (pool_analysis_loop_entries (add_networks empty_pool nets) nets outs
           [] [] [] []); auto.
Qed.

Lemma pool_build_analysis_demultiplexes_witness :
  pool_build_analysis
    (add_networks empty_pool [example_net_A; example_net_B; example_net_A])
    (concat [example_out_A; example_out_B; example_out_A]) =
  analyses [example_net_A; example_net_B; example_net_A]
           [example_out_A; example_out_B; example_out_A].
Proof.
  apply (pool_build_analysis_demultiplexes
           [example_net_A; example_net_B; example_net_A]
           [example_out_A; example_out_B; example_out_A]).
  - repeat constructor.
  - repeat constructor.
Defined.

(** ** NetworkPool: connections *)

(** X12: [add_network] keeps the connections that are in the pool as they
    are and appends those of the network with both population numbers
    raised by the number of populations the pool held; neuron numbers,
    weights and delays are kept.  When the connections of the network
    stay within its own populations, the appended ones stay within the
    populations that the network occupies in the pool. *)
Theorem add_network_connections (pool : NetworkPool) (net : NetworkInstance) :
  Forall (conn_within 0 (length (populations net))) (connections net) ->
  exists added,
    p_connections (add_network pool net) = p_connections pool ++ added /\
    length added = length (connections net) /\
    Forall (conn_within (length (p_populations pool))
                        (length (p_populations (add_network pool net))))
           added /\
    Forall2 (fun c c' =>
               fst (c_src c') = (fst (c_src c) + length (p_populations pool))%nat /\
               fst (c_tar c') = (fst (c_tar c) + length (p_populations pool))%nat /\
               snd (c_src c') = snd (c_src c) /\
               snd (c_tar c') = snd (c_tar c) /\
               c_weight c' = c_weight c /\ c_delay c' = c_delay c)
            (connections net) added.
Proof.
  intros Hwf.
  exists (map (rebase_connection (length (p_populations pool)))
              (connections net)).
  split; [reflexivity|]. split; [apply length_map|]. split.
  - cbn [add_network p_populations]. rewrite length_app.
    rewrite Forall_map. eapply Forall_impl; [|exact Hwf].
    intros c [[H1 H2] [H3 H4]]. unfold conn_within, rebase_connection.
    cbn [c_src c_tar fst]. lia.
  - clear Hwf. induction (connections net) as [|c l IH]; simpl; constructor.
    + repeat split; reflexivity.
    + exact IH.
Qed.

Lemma add_network_connections_witness :
  exists added,
    p_connections (add_network (add_network empty_pool example_net_A)
                               example_net_C) =
      p_connections (add_network empty_pool example_net_A) ++ added /\
    length added = length (connections example_net_C) /\
    Forall (conn_within
              (length (p_populations (add_network empty_pool example_net_A)))
              (length (p_populations
                         (add_network (add_network empty_pool example_net_A)
                                      example_net_C))))
           added /\
    Forall2 (fun c c' =>
               fst (c_src c') =
                 (fst (c_src c) +
                  length (p_populations
                            (add_network empty_pool example_net_A)))%nat /\
               fst (c_tar c') =
                 (fst (c_tar c) +
                  length (p_populations
                            (add_network empty_pool example_net_A)))%nat /\
               snd (c_src c') = snd (c_src c) /\
               snd (c_tar c') = snd (c_tar c) /\
               c_weight c' = c_weight c /\ c_delay c' = c_delay c)
            (connections example_net_C) added.
Proof.
  apply (add_network_connections (add_network empty_pool example_net_A)
           example_net_C).
  constructor; [|constructor]. split; simpl; lia.
Defined.

(** ** split over the whole range and the default split *)

Lemma split_unit_whole (ts ks : list Z) (k1 : Z) :
  length ts = length ks -> Forall (fun k => 0 <= k < k1) ks ->
  split_unit ts ks 0 k1 = Ok (ts, ks).
Proof.
  revert ks. induction ts as [|t ts IH]; intros [|k ks] Hlen Hall; simpl in *;
    try discriminate; [reflexivity|].
  inversion Hall as [|? ? Hk Hrest]; subst.
  rewrite IH by (lia || assumption). cbn [bind].
  replace ((0 <=? k) && (k <? k1)) with true by lia.
  now rewrite Z.sub_0_r.
Qed.

Lemma split_units_whole (times indices : list (list Z)) (k1 : Z) :
  parallel times indices ->
  Forall (Forall (fun k => 0 <= k < k1)) indices ->
  split times indices 0 k1 = Ok (times, indices).
Proof.
  induction 1 as [|ts ks times indices Hlen Hrest IH]; intros Hall; simpl;
    [reflexivity|].
  inversion Hall as [|? ? Hks Hall']; subst.
  rewrite (split_unit_whole ts ks k1 Hlen Hks). cbn [bind].
  now rewrite IH.
Qed.

(** X13: splitting parallel trains at a range [[0, k1)] that holds every
    sample index returns the trains as they are, and splitting the result
    again at the same range changes nothing. *)
Theorem split_whole_range (times indices : list (list Z)) (k1 : Z) :
  parallel times indices ->
  Forall (Forall (fun k => 0 <= k < k1)) indices ->
  split times indices 0 k1 = Ok (times, indices) /\
  (r <- split times indices 0 k1 ;; split (fst r) (snd r) 0 k1) =
    Ok (times, indices).
Proof.
  intros Hpar Hall.
  rewrite (split_units_whole times indices k1 Hpar Hall).
  split; [reflexivity|]. cbn [bind fst snd].
  exact (split_units_whole times indices k1 Hpar Hall).
Qed.

Lemma split_whole_range_witness :
  split [[0; 10]; [5]] [[0; 1]; [0]] 0 2 = Ok ([[0; 10]; [5]], [[0; 1]; [0]]) /\
  (r <- split [[0; 10]; [5]] [[0; 1]; [0]] 0 2 ;; split (fst r) (snd r) 0 2) =
    Ok ([[0; 10]; [5]], [[0; 1]; [0]]).
Proof.
  apply (split_whole_range [[0; 10]; [5]] [[0; 1]; [0]] 2).
  - repeat constructor.
  - repeat constructor; lia.
Defined.

(** X14: without an explicit split descriptor, [build_analysis_static]
    raises ValueError as soon as one input unit has no spike at all (the
    [max] of its empty index list), even though matching succeeds (parallel
    input trains, sample indices that fit the int32 array). *)
Theorem build_analysis_static_silent_unit
    (input_times input_indices output : list (list Z)) :
  parallel input_times input_indices -> fits_int32 input_indices ->
  In [] input_indices ->
  is_ok (match_static input_times input_indices output) = true /\
  build_analysis_static input_times input_indices output [] = Raise ValueError.
Proof.
  intros Hpar Hfit Hin.
  assert (Hne : input_times <> []).
  { intros ->. inversion Hpar; subst. destruct Hin. }
  destruct (match_static_parallel input_times input_indices output Hpar Hfit
              Hne)
    as (fl & _ & _ & Hm).
  unfold build_analysis_static. rewrite Hm. split; [reflexivity|].
  cbn [bind length Nat.eqb]. unfold default_input_split.
  now rewrite (mapM_py_max_silent _ Hin).
Qed.

Lemma build_analysis_static_silent_unit_witness :
  is_ok (match_static [[0; 10]; []] [[0; 1]; []] [[]; []; [5]]) = true /\
  build_analysis_static [[0; 10]; []] [[0; 1]; []] [[]; []; [5]] [] =
    Raise ValueError.
Proof.
  apply (build_analysis_static_silent_unit [[0; 10]; []] [[0; 1]; []]
           [[]; []; [5]]).
  - repeat constructor.
  - int32.
  - right. left. reflexivity.
Defined.

Lemma mapM_py_max_bound (l : list (list Z)) (ms : list Z) :
  mapM py_max l = Ok ms ->
  forall ks k, In ks l -> In k ks -> exists mk, In mk ms /\ k <= mk.
Proof.
  revert ms. induction l as [|ks0 l IH]; intros ms E ks k Hks Hk; [destruct Hks|].
  cbn [mapM] in E.
  destruct (py_max ks0) as [m0|e] eqn:E0; [|discriminate]. cbn [bind] in E.
  destruct (mapM py_max l) as [ms'|e] eqn:E1; [|discriminate].
  cbn [bind] in E. inversion E; subst.
  destruct Hks as [->|Hks].
  - exists m0. split; [now left|]. exact (py_max_ge _ _ E0 k Hk).
  - destruct (IH ms' eq_refl ks k Hks Hk) as (mk & Hin & Hle).
    exists mk. split; [now right|exact Hle].
Qed.

Lemma mapM_py_max_ok (l : list (list Z)) :
  Forall (fun ks => ks <> []) l ->
  exists ms, mapM py_max l = Ok ms /\ length ms = length l.
Proof.
  induction 1 as [|ks l Hks Hl IH]; simpl; [exists []; auto|].
  destruct IH as (ms & -> & Hlen).
  destruct ks as [|k ks]; [congruence|]. cbn [py_max bind].
  eexists. split; [reflexivity|]. simpl. now rewrite Hlen.
Qed.

Lemma pooled_In_unit (times indices : list (list Z)) (t k : Z) :
  In (t, k) (pooled times indices) -> exists ks, In ks indices /\ In k ks.
Proof.
  unfold pooled. revert indices.
  induction times as [|ts times IH]; intros [|ks indices]; simpl; try tauto.
  rewrite in_app_iff. intros [Hin|Hin].
  - exists ks. split; [now left|]. eapply in_combine_r, Hin.
  - destruct (IH indices Hin) as (ks' & H1 & H2). exists ks'. auto.
Qed.

(** X15: without an explicit split descriptor, when every input unit has a
    spike, no sample index is negative and all fit the int32 array,
    [build_analysis_static] returns
    exactly one analysis unit: the input trains as given and the output
    trains with the sample indices that [match_static] assigns; no spike is
    dropped. *)
Theorem build_analysis_static_default_split
    (input_times input_indices output : list (list Z)) :
  parallel input_times input_indices -> fits_int32 input_indices ->
  input_times <> [] ->
  Forall (fun ks => ks <> [] /\ Forall (fun k => 0 <= k) ks) input_indices ->
  exists output_times output_indices,
    match_static input_times input_indices output =
      Ok (output_times, output_indices) /\
    build_analysis_static input_times input_indices output [] =
      Ok [mkAnalysis input_times input_indices output_times output_indices].
Proof.
  intros Hpar Hfit Hne Hall.
  destruct (match_static_parallel input_times input_indices output Hpar Hfit
              Hne)
    as (fl & Hperm & Hs & Hm).
  do 2 eexists. split; [exact Hm|].
  unfold build_analysis_static. rewrite Hm. cbn [bind length Nat.eqb].
  unfold default_input_split.
  destruct (mapM_py_max_ok input_indices) as (ms & Hms & Hlen).
  { eapply Forall_impl; [|exact Hall]. simpl. tauto. }
  rewrite Hms. cbn [bind].
  assert (Hms_ne : ms <> []).
  { intros ->. simpl in Hlen. apply Hne.
    apply length_zero_iff_nil. rewrite (Forall2_length Hpar). lia. }
  destruct (py_max_spec ms Hms_ne) as (m & Hmax & _ & Hub).
  rewrite Hmax. cbn [bind analysis_loop].
  assert (Hrange : forall ks k, In ks input_indices -> In k ks -> 0 <= k < m + 1).
  { intros ks k Hks Hk. split.
    - rewrite Forall_forall in Hall. destruct (Hall ks Hks) as [_ Hnn].
      rewrite Forall_forall in Hnn. now apply Hnn.
    - destruct (mapM_py_max_bound _ _ Hms ks k Hks Hk) as (mk & Hin & Hle).
      specialize (Hub mk Hin). lia. }
  rewrite (split_units_whole input_times input_indices (m + 1) Hpar).
  2:{ apply Forall_forall. intros ks Hks. apply Forall_forall. intros k Hk.
      exact (Hrange ks k Hks Hk). }
  cbn [bind].
  assert (Hfl : fl <> []).
  { intros ->. apply Permutation_nil in Hperm.
    destruct input_times as [|ts times]; [congruence|].
    inversion Hpar as [|? ks ? indices Hl Hrest]; subst.
    inversion Hall as [|? ? [Hks _] _]; subst.
    destruct ks as [|k ks]; [congruence|].
    destruct ts as [|t ts]; [discriminate|]. discriminate. }
  rewrite split_units_whole.
  - reflexivity.
  - apply Forall2_map_self. intros ts _. now rewrite length_map.
  - apply Forall_map, Forall_forall. intros ts _.
    apply Forall_map, Forall_forall. intros t _.
    assert (Hmt : matched (pooled input_times input_indices) t
                    (match_index (map sp_t fl) (map sp_k fl) t)).
    { apply matched_ext with (P := map spike_pair fl).
      - intros x. split; apply Permutation_in;
          [|apply Permutation_sym]; exact Hperm.
      - rewrite <- spike_pair_fst, <- spike_pair_snd.
        apply match_index_sorted; [now rewrite spike_pair_fst|].
        intros E. apply map_eq_nil in E. contradiction. }
    assert (Hin : exists t', In (t', match_index (map sp_t fl) (map sp_k fl) t)
                                (pooled input_times input_indices)).
    { destruct Hmt as [(t' & Hin & _)|(_ & t' & Hin & _)]; eauto. }
    destruct Hin as (t' & Hin).
    destruct (pooled_In_unit _ _ _ _ Hin) as (ks & Hks & Hk).
    exact (Hrange ks _ Hks Hk).
Qed.

Lemma build_analysis_static_default_split_witness :
  exists output_times output_indices,
    match_static [[0; 10]] [[0; 1]] [[]; [5; 20]] =
      Ok (output_times, output_indices) /\
    build_analysis_static [[0; 10]] [[0; 1]] [[]; [5; 20]] [] =
      Ok [mkAnalysis [[0; 10]] [[0; 1]] output_times output_indices].
Proof.
  apply (build_analysis_static_default_split [[0; 10]] [[0; 1]] [[]; [5; 20]]).
  - repeat constructor.
  - int32.
  - discriminate.
  - repeat constructor; try discriminate; lia.
Defined.

(** ** The sample indices that build_input emits *)

(** A loop whose steps each advance a counter by [d]. *)
Lemma foldM_counts {A S : Type} (R : Z -> S -> Prop) (d : Z)
    (f : S -> A -> result S) (l : list A) :
  (forall st a st' c, f st a = Ok st' -> R c st -> R (c + d) st') ->
  forall st st' c, foldM f l st = Ok st' -> R c st ->
                   R (c + d * Z.of_nat (length l)) st'.
Proof.
  intros Hstep. induction l as [|a l IH]; intros st st' c E HR.
  - simpl in E. injection E as <-. simpl. now rewrite Z.mul_0_r, Z.add_0_r.
  - cbn [foldM] in E. destruct (f st a) as [st1|e] eqn:E1; [|discriminate].
    cbn [bind] in E.
    replace (c + d * Z.of_nat (length (a :: l)))
      with ((c + d) + d * Z.of_nat (length l)) by (cbn [length]; lia).
    apply (IH st1 st' (c + d) E). exact (Hstep st a st1 c E1 HR).
Qed.

Section SampleIndices.
Context `{RandomSource}.

(** X16: [build_input] numbers the samples of all parameter sets
    consecutively.  When it has an input bit, a sample, bursts of at
    least one spike and at most 2^31 sample indices to give (the range of the
    int32 matrix [K]), it succeeds, every sample index it emits lies in
    [[0, k * len(input_params))] and the returned split points are
    [k, 2k, ..., len(input_params) * k], so that the last split point bounds
    every index. *)
Theorem build_input_indices_in_range (b : NetworkBuilder) (k time_offs : Z)
    (s : nat) (ps : list InputParameters) (delay : Z) (g : rng_state) :
  (0 < nb_m b)%nat -> (0 < clamp_k (nb_N b) k)%nat ->
  Forall (fun p => (0 < burst_size p)%nat) ps ->
  Z.of_nat (clamp_k (nb_N b) k) * Z.of_nat (length ps) <= 2147483648 ->
  exists e,
    build_input b k time_offs s ps delay g = Ok e /\
    e_split e = map (fun q => Z.of_nat (clamp_k (nb_N b) k * (q + 1)))
                    (seq 0 (length ps)) /\
    forall ks i, In ks (e_indices e) -> In i ks ->
      0 <= i < Z.of_nat (clamp_k (nb_N b) k) * Z.of_nat (length ps).
Proof.
  intros Hm Hk Hb _.
  destruct (enc_all_inv (s * nb_m b) (mat_in b) ps s (nb_m b)
              (clamp_k (nb_N b) k) delay
              (mkEnc (repeat [] (s * nb_m b)%nat) (repeat [] (s * nb_m b)%nat)
                     None 0 0 g) Hb eq_refl (enc_inv_init _ g))
    as (st & Hfill & (HT & HK & Hlen & Hmin) & _).
  fold (fill_matrices (mat_in b) (nb_m b) (clamp_k (nb_N b) k) s ps delay g)
    in Hfill.
  eexists. split; [apply (build_input_rows b k time_offs s ps delay g st);
                   [exact Hm|exact Hk|exact Hfill]|].
  cbn [e_split e_indices]. split; [reflexivity|].
  intros ks i Hks Hi. apply in_map_iff in Hks. destruct Hks as (x & <- & _).
  apply in_map_iff in Hi. destruct Hi as ((t, i') & Ei & Hin).
  simpl in Ei. subst i'. unfold out_row, sorted_row in Hin.
  apply (proj1 (stable_sort_In _ _ _)) in Hin. apply in_combine_r in Hin.
  exact (fill_matrices_indices _ _ _ _ _ _ _ _ Hfill x i Hin).
Qed.
End SampleIndices.

Lemma build_input_indices_in_range_witness :
  exists e,
    @build_input constant_source example_two_samples (-1) 0 1
      [default_input] 10 tt = Ok e /\
    e_split e = map (fun q => Z.of_nat (clamp_k (nb_N example_two_samples) (-1)
                                        * (q + 1)))
                    (seq 0 (length [default_input])) /\
    forall ks i, In ks (e_indices e) -> In i ks ->
      0 <= i < Z.of_nat (clamp_k (nb_N example_two_samples) (-1)) *
               Z.of_nat (length [default_input]).
Proof.
  apply (@build_input_indices_in_range constant_source example_two_samples
           (-1) 0 1 [default_input] 10 tt).
  - simpl. lia.
  - vm_compute. lia.
  - repeat constructor.
  - vm_compute. congruence.
Defined.

(** ** The time offset of build_input *)

Lemma insert_sorted_map {A : Type} (leb : A -> A -> bool) (f : A -> A)
    (x : A) (l : list A) :
  (forall a b, leb (f a) (f b) = leb a b) ->
  insert_sorted leb (f x) (map f l) = map f (insert_sorted leb x l).
Proof.
  intros Hf. induction l as [|y l IH]; simpl; [reflexivity|].
  rewrite Hf. destruct (leb x y); simpl; [reflexivity|]. now rewrite IH.
Qed.

(** Sorting commutes with a map that keeps the order. *)
Lemma stable_sort_map {A : Type} (leb : A -> A -> bool) (f : A -> A)
    (l : list A) :
  (forall a b, leb (f a) (f b) = leb a b) ->
  stable_sort leb (map f l) = map f (stable_sort leb l).
Proof.
  intros Hf. induction l as [|x l IH]; simpl; [reflexivity|].
  rewrite IH. now apply insert_sorted_map.
Qed.

Lemma sorted_row_offset (m0 time_offs : Z) (trow krow : list Z) :
  sorted_row (Some m0) time_offs trow krow =
    map (fun tk => (fst tk + time_offs, snd tk))
        (sorted_row (Some m0) 0 trow krow).
Proof.
  unfold sorted_row.
  rewrite <- (stable_sort_map pair_leb (fun tk => (fst tk + time_offs, snd tk)))
    by (intros a b; unfold pair_leb; simpl; lia).
  f_equal. revert krow. induction trow as [|t trow IH]; intros [|k krow]; simpl;
    try reflexivity.
  rewrite IH. do 2 f_equal. lia.
Qed.

Section TimeOffset.
Context `{RandomSource}.

(** X17: [time_offs] only moves the result in time.  Without jitter, with
    bursts that fit their time window, times that binary64 computes exactly
    ([times_exact]) and at most 2^31 sample indices, whenever [build_input]
    has an input bit and a sample, the call with offset [time_offs] returns the spike times of the call with offset
    0, each raised by [time_offs], with the same sample indices, split
    points and generator state. *)
Theorem build_input_time_offset (b : NetworkBuilder) (k time_offs : Z)
    (s : nat) (ps : list InputParameters) (delay : Z) (g : rng_state) :
  (0 < nb_m b)%nat -> (0 < clamp_k (nb_N b) k)%nat ->
  Forall fits_window ps -> 0 <= delay ->
  times_exact (clamp_k (nb_N b) k) ps delay time_offs ->
  Z.of_nat (clamp_k (nb_N b) k) * Z.of_nat (length ps) <= 2147483648 ->
  exists e0 e,
    build_input b k 0 s ps delay g = Ok e0 /\
    build_input b k time_offs s ps delay g = Ok e /\
    e_times e = map (map (fun t => t + time_offs)) (e_times e0) /\
    e_indices e = e_indices e0 /\
    e_split e = e_split e0 /\
    e_gen e = e_gen e0.
Proof.
  intros Hm Hk Hfit _ _ _.
  assert (Hb : Forall (fun p => (0 < burst_size p)%nat) ps).
  { eapply Forall_impl; [|exact Hfit]. intros p Hp. apply Hp. }
  destruct (enc_all_inv (s * nb_m b) (mat_in b) ps s (nb_m b)
              (clamp_k (nb_N b) k) delay
              (mkEnc (repeat [] (s * nb_m b)%nat) (repeat [] (s * nb_m b)%nat)
                     None 0 0 g) Hb eq_refl (enc_inv_init _ g))
    as (st & Hfill & (HT & HK & Hlen & Hmin) & _).
  fold (fill_matrices (mat_in b) (nb_m b) (clamp_k (nb_N b) k) s ps delay g)
    in Hfill.
  do 2 eexists.
  split; [apply (build_input_rows b k 0 s ps delay g st);
          [exact Hm|exact Hk|exact Hfill]|].
  split; [apply (build_input_rows b k time_offs s ps delay g st);
          [exact Hm|exact Hk|exact Hfill]|].
  cbn [e_times e_indices e_split e_gen].
  assert (Hrow : forall x,
            out_row st time_offs x =
              map (fun tk => (fst tk + time_offs, snd tk)) (out_row st 0 x)).
  { intros x. unfold out_row. destruct (enc_min_t st) as [m0|].
    - apply sorted_row_offset.
    - rewrite (Hmin x). reflexivity. }
  split; [|split; [|split; reflexivity]].
  - rewrite map_map. apply map_ext. intros x.
    rewrite Hrow, !map_map. reflexivity.
  - apply map_ext. intros x. rewrite Hrow, map_map. reflexivity.
Qed.
End TimeOffset.

Lemma build_input_time_offset_witness :
  exists e0 e,
    @build_input constant_source example_two_samples (-1) 0 1
      [default_input] 10 tt = Ok e0 /\
    @build_input constant_source example_two_samples (-1) 7 1
      [default_input] 10 tt = Ok e /\
    e_times e = map (map (fun t => t + 7)) (e_times e0) /\
    e_indices e = e_indices e0 /\
    e_split e = e_split e0 /\
    e_gen e = e_gen e0.
Proof.
  apply (@build_input_time_offset constant_source example_two_samples
           (-1) 7 1 [default_input] 10 tt).
  - simpl. lia.
  - vm_compute. lia.
  - repeat constructor; simpl; lia.
  - lia.
  - vm_compute. congruence.
  - vm_compute. congruence.
Defined.

(** ** The neuron coordinates of build_topology *)

Lemma row_col_unique (s i k i' k' : nat) :
  (k < s)%nat -> (k' < s)%nat -> (i * s + k = i' * s + k')%nat ->
  i = i' /\ k = k'.
Proof.
  intros Hk Hk' E.
  assert (Ei : i = i').
  { rewrite <- (div_row s i k Hk), <- (div_row s i' k' Hk'). now rewrite E. }
  subst i'. split; [reflexivity|lia].
Qed.

(** X18: the coordinates that [build_topology] gives to the neurons are
    unambiguous.  For neuron numbers below the multiplicity [s], different
    (input, neuron) pairs have different input coordinates, different
    (output, neuron) pairs have different output coordinates, and with
    [i < m] no input coordinate is an output coordinate. *)
Theorem coordinates_unambiguous (m s i i' k k' j j' l l' : nat) :
  (k < s)%nat -> (k' < s)%nat -> (l < s)%nat -> (l' < s)%nat -> (i < m)%nat ->
  (in_coord s i k = in_coord s i' k' -> i = i' /\ k = k') /\
  (out_coord m s j l = out_coord m s j' l' -> j = j' /\ l = l') /\
  in_coord s i k <> out_coord m s j l.
Proof.
  intros Hk Hk' Hl Hl' Hi. unfold in_coord, out_coord. split; [|split].
  - intros E. injection E as E. now apply (row_col_unique s).
  - intros E. injection E as E. apply (row_col_unique s); [assumption..|lia].
  - intros E. injection E as E. nia.
Qed.

Lemma coordinates_unambiguous_witness :
  (in_coord 2 1 0 = in_coord 2 0 1 -> 1%nat = 0%nat /\ 0%nat = 1%nat) /\
  (out_coord 3 2 1 0 = out_coord 3 2 0 1 -> 1%nat = 0%nat /\ 0%nat = 1%nat) /\
  in_coord 2 1 0 <> out_coord 3 2 1 0.
Proof.
  apply (coordinates_unambiguous 3 2 1 0 0 1 1 0 0 1); lia.
Defined.

(** ** The connections of build_topology *)

Section Connections.
Context `{RandomSource}.

Lemma draw_weight_nonneg (t : TopologyParameters) (g : rng_state) :
  0 <= tp_w t -> 0 <= fst (draw_weight t g).
Proof.
  intros Hw. unfold draw_weight. destruct (sigma_w t <=? 0); [exact Hw|].
  destruct (normal (tp_w t) (sigma_w t) g) as [v g']. simpl. lia.
Qed.

Lemma cell_connections_spec (t : TopologyParameters) (m n i j : nat)
    (kl : list (nat * nat)) (g : rng_state) :
  (i < m)%nat -> (j < n)%nat ->
  (forall k l, In (k, l) kl ->
               (k < multiplicity t)%nat /\ (l < multiplicity t)%nat) ->
  length (fst (cell_connections t m i j kl g)) = length kl /\
  Forall (feed_forward m n (multiplicity t))
         (fst (cell_connections t m i j kl g)) /\
  (0 <= tp_w t ->
   Forall (fun c => (0 <= c_weight c)%Q) (fst (cell_connections t m i j kl g))).
Proof.
  intros Hi Hj. revert g. induction kl as [|[k l] kl IH]; intros g Hkl.
  - simpl. auto.
  - cbn [cell_connections].
    pose proof (draw_weight_nonneg t g) as Hw.
    destruct (draw_weight t g) as [wt g1].
    specialize (IH g1 (fun k0 l0 Hin => Hkl k0 l0 (or_intror Hin))).
    destruct (cell_connections t m i j kl g1) as [rest g2].
    cbn [fst] in *. destruct IH as (Hlen & Hff & Hnn).
    destruct (Hkl k l (or_introl eq_refl)) as [Hk Hl].
    split; [simpl; now rewrite Hlen|]. split.
    + constructor; [|exact Hff].
      unfold feed_forward, in_coord, out_coord. cbn [c_src c_tar c_delay fst snd].
      repeat split; nia.
    + intros H0. constructor; [|exact (Hnn H0)].
      cbn [c_weight]. specialize (Hw H0). unfold Qle. simpl. lia.
Qed.

Lemma connections_loop_spec (W : BiNAM) (t : TopologyParameters) (m n : nat)
    (cells : list (nat * nat)) (g : rng_state) :
  (forall i j, In (i, j) cells -> (i < m)%nat /\ (j < n)%nat) ->
  length (fst (connections_loop W t m cells g)) =
    length (filter (fun ij => nth (snd ij) (nth (fst ij) W []) false) cells) /\
  Forall (fun batch =>
            length batch = (multiplicity t * multiplicity t)%nat /\
            Forall (feed_forward m n (multiplicity t)) batch /\
            (0 <= tp_w t -> Forall (fun c => (0 <= c_weight c)%Q) batch))
         (fst (connections_loop W t m cells g)).
Proof.
  revert g. induction cells as [|[i j] cells IH]; intros g Hcells.
  - simpl. auto.
  - cbn [connections_loop filter fst snd].
    assert (Hrest : forall i0 j0, In (i0, j0) cells ->
                                  (i0 < m)%nat /\ (j0 < n)%nat)
      by (intros i0 j0 Hin; apply Hcells; now right).
    destruct (nth j (nth i W []) false); [|exact (IH g Hrest)].
    destruct (Hcells i j (or_introl eq_refl)) as [Hi Hj].
    pose proof (cell_connections_spec t m n i j
                  (list_prod (seq 0 (multiplicity t)) (seq 0 (multiplicity t)))
                  g Hi Hj) as Hcell.
    destruct (cell_connections t m i j _ g) as [batch g1].
    specialize (IH g1 Hrest).
    destruct (connections_loop W t m cells g1) as [rest g2].
    cbn [fst] in *. destruct IH as [Hlen Hall].
    split; [simpl; now rewrite Hlen|].
    constructor; [|exact Hall].
    destruct Hcell as (Hl & Hff & Hnn).
    { intros k l Hin. apply in_prod_iff in Hin. rewrite !in_seq in Hin. lia. }
    rewrite length_prod, !length_seq in Hl. auto.
Qed.

(** X19: the connections that [build_topology] hands to the network.  For
    every cell of the memory that is set (and only for those) one batch of
    [s * s] connections is added; each connection leads from an input neuron
    (population below [m * s]) to an output neuron (population from [m * s]
    to [m * s + n * s - 1]), both with neuron number 0, without delay; and
    with a weight that is not negative when the configured weight is not. *)
Theorem topology_connections_feed_forward (b : NetworkBuilder) (W : BiNAM)
    (t : TopologyParameters) (g : rng_state) :
  length (fst (topology_connections b W t g)) =
    length (set_cells W (nb_m b) (nb_n b)) /\
  Forall (fun batch =>
            length batch = (multiplicity t * multiplicity t)%nat /\
            Forall (feed_forward (nb_m b) (nb_n b) (multiplicity t)) batch /\
            (0 <= tp_w t -> Forall (fun c => (0 <= c_weight c)%Q) batch))
         (fst (topology_connections b W t g)).
Proof.
  unfold topology_connections, set_cells.
  apply connections_loop_spec.
  intros i j Hin. apply in_prod_iff in Hin. rewrite !in_seq in Hin. lia.
Qed.
End Connections.

(** ** inject_input *)

(** X20: [inject_input] raises IndexError exactly when there are more spike
    trains than populations.  Otherwise the first [len(times)] populations
    carry the given spike times, in order, the populations after them are
    left as they are, and no population is added, removed or changes its
    kind. *)
Theorem inject_input_result (pops : list population) (times : list (list Z)) :
  inject_input pops times =
    if (length times <=? length pops)%nat
    then Ok (map (fun pt => mkPopulation (pop_source (fst pt)) (snd pt))
                 (combine pops times)
             ++ skipn (length times) pops)
    else Raise IndexError.
Proof.
  revert pops. induction times as [|ts times IH]; intros pops.
  - simpl. now destruct pops.
  - destruct pops as [|p pops]; [reflexivity|].
    cbn [inject_input length Nat.leb combine map skipn app fst snd].
    rewrite IH. destruct (length times <=? length pops)%nat; reflexivity.
Qed.
